(** * nl2sql: the IR, the SQL generator, the optimizers, the entity
      recognizer, the heuristic IR builder, the explainer, the pipeline and
      the schema inference of the file processor, embedded from the sources.

    Conventions of the embedding.
    - JavaScript strings are [string]: sequences of code units below 256
      (ASCII and Latin-1), which is what the schemas and prompts of the
      pipeline are written in.
    - JavaScript numbers that count things (limits, day counts, lengths) are
      [Z] or [nat]: the integer values of doubles, converted from text as
      [Number] converts and printed as [String] prints.  Numbers that measure
      (confidences, similarity scores, costs)
      are exact rationals [Q]: every comparison made on them below is between
      values that differ by far more than a rounding error of a double.
    - [undefined] fields are [None]; a thrown exception is [Throws].
    - The structural probes of the code (['func' in c], ['table' in x],
      [x.intervalDays !== undefined]) become matches on tagged unions built
      from the declared TypeScript types. *)

From Stdlib Require Import String Ascii List ZArith QArith Qround Qcanon.
From Stdlib Require Import DecimalString Lia Lqa Bool Arith Permutation.
From Stdlib Require DecimalPos.
Import ListNotations.
Open Scope string_scope.

Set Implicit Arguments.

(** ** Outcomes of a call: a value, or a thrown exception. *)

Inductive Thrown : Type :=
| JsError (message : string)   (* [throw new Error(message)] *)
| JsTypeError.                  (* a property read or call on [undefined] *)

Inductive Outcome (A : Type) : Type :=
| Returns (a : A)
| Throws (e : Thrown).
Arguments Returns {A} a.
Arguments Throws {A} e.

(** [e.name]: the class of what was thrown.  The sources declare no error
    class of their own. *)
Definition errorName (e : Thrown) : string :=
  match e with
  | JsError _ => "Error"
  | JsTypeError => "TypeError"
  end.

Definition bindO {A B} (m : Outcome A) (k : A -> Outcome B) : Outcome B :=
  match m with
  | Returns a => k a
  | Throws e => Throws e
  end.

Notation "x <- m ;; k" := (bindO m (fun x => k))
  (at level 61, m at next level, right associativity).

(** [xs.map(f)] when [f] may throw: the first exception aborts the map. *)
Fixpoint mapO {A B} (f : A -> Outcome B) (l : list A) : Outcome (list B) :=
  match l with
  | [] => Returns []
  | x :: r => y <- f x ;; ys <- mapO f r ;; Returns (y :: ys)
  end.

(** ** JavaScript string primitives used by the sources. *)

Module Js.

Definition dquote : string := String (ascii_of_nat 34) EmptyString.
Definition backtick : string := String (ascii_of_nat 96) EmptyString.
Definition newline : string := String (ascii_of_nat 10) EmptyString.

(** [s.replace(/c/g, by)] for a one-character pattern. *)
Fixpoint replaceAll (c : ascii) (by_ : string) (s : string) : string :=
  match s with
  | EmptyString => EmptyString
  | String a r =>
      if Ascii.eqb a c then by_ ++ replaceAll c by_ r
      else String a (replaceAll c by_ r)
  end.

(** Truthiness of a string: only the empty string is falsy. *)
Definition truthy (s : string) : bool :=
  match s with EmptyString => false | _ => true end.

(** Truthiness of an optional string field ([undefined] is falsy). *)
Definition truthyOpt (o : option string) : bool :=
  match o with Some s => truthy s | None => false end.

(** White space as [trim] and the regular expression class [\s] see it:
    tab to carriage return, the blank and the no-break space. *)
Definition isSpace (a : ascii) : bool :=
  let n := nat_of_ascii a in
  ((9 <=? n)%nat && (n <=? 13)%nat) || (n =? 32)%nat || (n =? 160)%nat.

Definition isDigit (a : ascii) : bool :=
  let n := nat_of_ascii a in (48 <=? n)%nat && (n <=? 57)%nat.

Fixpoint trimStart (s : string) : string :=
  match s with
  | String a r => if isSpace a then trimStart r else s
  | EmptyString => EmptyString
  end.

Definition reverse (s : string) : string :=
  string_of_list_ascii (rev (list_ascii_of_string s)).

Definition trim (s : string) : string :=
  reverse (trimStart (reverse (trimStart s))).

(** [A-Z] and the Latin-1 capitals (all of 192..222 but the multiplication
    sign) have their lower case 32 places up. *)
Definition lowerChar (a : ascii) : ascii :=
  let n := nat_of_ascii a in
  if ((65 <=? n)%nat && (n <=? 90)%nat)
     || ((192 <=? n)%nat && (n <=? 222)%nat && negb (n =? 215)%nat)
  then ascii_of_nat (n + 32) else a.

(** The letters whose upper case is a single code unit below 256. *)
Definition upperChar (a : ascii) : ascii :=
  let n := nat_of_ascii a in
  if ((97 <=? n)%nat && (n <=? 122)%nat)
     || ((224 <=? n)%nat && (n <=? 254)%nat && negb (n =? 247)%nat)
  then ascii_of_nat (n - 32) else a.

Fixpoint mapChars (f : ascii -> ascii) (s : string) : string :=
  match s with
  | EmptyString => EmptyString
  | String a r => String (f a) (mapChars f r)
  end.

Definition toLowerCase : string -> string := mapChars lowerChar.
Definition toUpperCase : string -> string := mapChars upperChar.

(** [s.includes(sub)], [s.startsWith(p)]. *)
Fixpoint includes (s sub : string) : bool :=
  if String.prefix sub s then true
  else match s with
       | EmptyString => false
       | String _ r => includes r sub
       end.

Definition startsWith (s p : string) : bool := String.prefix p s.

(** [xs.join(sep)]. *)
Definition join (sep : string) (xs : list string) : string :=
  String.concat sep xs.

(** *** Numbers

    A number of the model is the integer value of a double.  [Infinity], [NaN]
    and fractions are not numbers of the model. *)

(** The decimal digits of an integer. *)
Definition decimal (n : Z) : string := NilZero.string_of_int (Z.to_int n).

(** The double nearest to an integer: 53 significant bits, ties to the even
    significand.  The exponent range is not modelled: from about 1.8e308 on a
    double is [Infinity]. *)
Definition roundToDouble (n : Z) : Z :=
  let a := Z.abs n in
  let sh := (Z.log2 a - 52)%Z in
  if (sh <=? 0)%Z then n
  else
    let q := Z.shiftr a sh in
    let r := Z.land a (Z.ones sh) in
    let half := Z.shiftl 1 (sh - 1) in
    let q' := if (half <? r)%Z || ((r =? half)%Z && Z.odd q) then (q + 1)%Z else q in
    (Z.sgn n * Z.shiftl q' sh)%Z.

(** The integer [s * 10^(n-k)] of [Number::toString]: the one with the fewest
    significant digits [k] among those whose double is [x], the nearest to
    [x] if there are two, the one with even [s] if they are as near.  [p] is
    the power of ten under trial, from the highest down. *)
Fixpoint shortestFrom (fuel : nat) (x p : Z) : Z :=
  match fuel with
  | O => x
  | S fuel' =>
      let lo := (x / p * p)%Z in
      let hi := (lo + p)%Z in
      let okLo := (roundToDouble lo =? x)%Z in
      let okHi := (roundToDouble hi =? x)%Z in
      if okLo && okHi then
        if (x - lo <? hi - x)%Z then lo
        else if (hi - x <? x - lo)%Z then hi
        else if Z.even (lo / p) then lo else hi
      else if okLo then lo
      else if okHi then hi
      else shortestFrom fuel' x (p / 10)%Z
  end.

Definition shortest (x : Z) : Z :=
  let d := String.length (decimal x) in
  shortestFrom d x (10 ^ (Z.of_nat d - 1))%Z.

Fixpoint dropZeros (l : list ascii) : list ascii :=
  match l with
  | "0"%char :: r => dropZeros r
  | _ => l
  end.

Definition stripTrailingZeros (s : string) : string :=
  string_of_list_ascii (rev (dropZeros (rev (list_ascii_of_string s)))).

(** [d.ddde+x], the form of a number from 1e21 on. *)
Definition exponential (digits : string) : string :=
  match stripTrailingZeros digits with
  | String d rest =>
      String d (match rest with EmptyString => EmptyString | _ => "." ++ rest end)
      ++ "e+" ++ decimal (Z.of_nat (String.length digits) - 1)
  | EmptyString => digits
  end.

(** Below 2^53 every integer is a double of its own, and its digits are the
    shortest that give it back. *)
Definition positiveToString (x : Z) : string :=
  if (x <? 2 ^ 53)%Z then decimal x
  else
    let digits := decimal (shortest x) in
    if (String.length digits <=? 21)%nat then digits else exponential digits.

(** [String(n)], which is also [`${n}`] and [JSON.stringify(n)]. *)
Definition numberToString (n : Z) : string :=
  if (n <? 0)%Z then "-" ++ positiveToString (- n) else positiveToString n.

End Js.

(** ** JSON values carried by conditions: [value: unknown] in the types,
       restricted to the JSON scalars, that is [null], the booleans, the
       integer numbers and the strings.  On these [JSON.stringify] returns a
       text and [JSON.parse(JSON.stringify(v))] returns [v].  A value on which
       [JSON.stringify] throws or returns [undefined] (a BigInt, an object
       with a cycle, a function) is not a value of the model, and neither is
       a fraction. *)

Inductive JsValue : Type :=
| JNull
| JBool (b : bool)
| JNum (n : Z)
| JStr (s : string).

Module Json.

Definition hexDigit (n : nat) : ascii :=
  if (n <? 10)%nat then ascii_of_nat (48 + n) else ascii_of_nat (87 + n).

(** The escape of one character inside a JSON string. *)
Definition escapeChar (a : ascii) : string :=
  let n := nat_of_ascii a in
  let bs := String (ascii_of_nat 92) EmptyString in
  if (n =? 34)%nat then bs ++ Js.dquote
  else if (n =? 92)%nat then bs ++ bs
  else if (n =? 8)%nat then bs ++ "b"
  else if (n =? 12)%nat then bs ++ "f"
  else if (n =? 10)%nat then bs ++ "n"
  else if (n =? 13)%nat then bs ++ "r"
  else if (n =? 9)%nat then bs ++ "t"
  else if (n <? 32)%nat then
    bs ++ "u00" ++ String (hexDigit (n / 16)) (String (hexDigit (n mod 16)) EmptyString)
  else String a EmptyString.

Fixpoint escape (s : string) : string :=
  match s with
  | EmptyString => EmptyString
  | String a r => escapeChar a ++ escape r
  end.

(** [JSON.stringify(v)]. *)
Definition stringify (v : JsValue) : string :=
  match v with
  | JNull => "null"
  | JBool true => "true"
  | JBool false => "false"
  | JNum n => Js.numberToString n
  | JStr s => Js.dquote ++ escape s ++ Js.dquote
  end.

End Json.

(** ** The intermediate representation (src/ir/types.ts). *)

Inductive AggregateFunc : Type := Fcount | Fsum | Favg | Fmin | Fmax.

Record ColumnRef : Type := mkColumnRef {
  table : string;
  column : string;
  alias : option string
}.

(** [ref(table, column)] of the IR builder: no alias. *)
Definition ref (t c : string) : ColumnRef := mkColumnRef t c None.

Inductive ConditionOp : Type :=
| OpEq | OpNe | OpLt | OpLe | OpGt | OpGe
| OpLike | OpILike | OpIn | OpBetween | OpIs | OpIsNot.

(** [lhs: ColumnRef | { value }]; the IR builder also stores [{ expr }]. *)
Inductive Lhs : Type :=
| LhsColumn (c : ColumnRef)
| LhsValue (v : JsValue)
| LhsExpr (expr : string).

(** [rhs]: the six shapes of the declared union. *)
Inductive Rhs : Type :=
| RhsColumn (c : ColumnRef)
| RhsValue (v : JsValue)
| RhsValues (vs : list JsValue)
| RhsRange (lo hi : JsValue)
| RhsNull
| RhsExpr (expr : option string) (intervalDays : option Z).

Record Condition : Type := mkCondition {
  lhs : Lhs;
  op : ConditionOp;
  rhs : Rhs
}.

Inductive JoinType : Type := inner | left_join.

(** [conditions] is the field the advanced optimizer attaches with
    [(join as any).conditions]; the declared JoinSpec leaves it absent. *)
Record JoinSpec : Type := mkJoinSpec {
  join_type : JoinType;
  join_left : ColumnRef;
  join_right : ColumnRef;
  conditions : option (list Condition)
}.

Inductive Direction : Type := asc | desc.

Record OrderBySpec : Type := mkOrderBySpec {
  expr : ColumnRef;
  direction : option Direction
}.

Inductive AggExpr : Type :=
| AggColumn (c : ColumnRef)
| AggRaw (raw : string).

Record AggregateSpec : Type := mkAggregateSpec {
  func : AggregateFunc;
  agg_expr : AggExpr;
  agg_alias : option string
}.

(** An element of [columns: (ColumnRef | AggregateSpec)[]]. *)
Inductive Projection : Type :=
| PCol (c : ColumnRef)
| PAgg (a : AggregateSpec).

Record SelectQueryIR : Type := mkIR {
  from : string;
  columns : list Projection;
  joins : option (list JoinSpec);
  where_ : option (list Condition);
  groupBy : option (list ColumnRef);
  having : option (list Condition);
  orderBy : option (list OrderBySpec);
  limit : option Z
}.

Inductive SqlDialect : Type := sqlite | postgres | mysql.

(** [xs || []] for an optional array. *)
Definition orEmpty {A} (o : option (list A)) : list A :=
  match o with Some l => l | None => [] end.

(** [xs.push(x)]. *)
Definition push {A} (xs : list A) (x : A) : list A := (xs ++ [x])%list.

(** ** The SQL generator (src/generator/sql.ts). *)

Module Generator.

Definition q (ident : string) (dialect : SqlDialect) : string :=
  if String.eqb ident "*" then "*"
  else match dialect with
       | mysql =>
           Js.backtick ++ Js.replaceAll (ascii_of_nat 96) (Js.backtick ++ Js.backtick) ident
           ++ Js.backtick
       | _ =>
           Js.dquote ++ Js.replaceAll (ascii_of_nat 34) (Js.dquote ++ Js.dquote) ident
           ++ Js.dquote
       end.

(** [q(x, dialect)] where [x] may be [undefined]: [undefined.replace] throws. *)
Definition qUndef (ident : option string) (dialect : SqlDialect) : Outcome string :=
  match ident with
  | Some s => Returns (q s dialect)
  | None => Throws JsTypeError
  end.

Definition funcUpper (f : AggregateFunc) : string :=
  match f with
  | Fcount => "COUNT" | Fsum => "SUM" | Favg => "AVG" | Fmin => "MIN" | Fmax => "MAX"
  end.

Definition joinTypeUpper (t : JoinType) : string :=
  match t with inner => "INNER" | left_join => "LEFT" end.

Definition directionUpper (d : Direction) : string :=
  match d with asc => "ASC" | desc => "DESC" end.

Definition opText (o : ConditionOp) : string :=
  match o with
  | OpEq => "=" | OpNe => "!=" | OpLt => "<" | OpLe => "<=" | OpGt => ">" | OpGe => ">="
  | OpLike => "like" | OpILike => "ilike" | OpIn => "in" | OpBetween => "between"
  | OpIs => "is" | OpIsNot => "is not"
  end.

Definition emitColumn (c : Projection) (dialect : SqlDialect) : string :=
  match c with
  | PAgg a =>
      let expr :=
        match agg_expr a with
        | AggRaw raw => raw
        | AggColumn r => q (table r) dialect ++ "." ++ q (column r) dialect
        end in
      let sel := funcUpper (func a) ++ "(" ++ expr ++ ")" in
      match agg_alias a with
      | Some al => if Js.truthy al then sel ++ " AS " ++ q al dialect else sel
      | None => sel
      end
  | PCol col =>
      let sel := q (table col) dialect ++ "." ++ q (column col) dialect in
      if Js.truthyOpt (alias col) then
        sel ++ " AS " ++ q (match alias col with Some al => al | None => EmptyString end) dialect
      else if negb (String.eqb (column col) "*") then
        sel ++ " AS " ++ q (table col ++ "." ++ column col) dialect
      else sel
  end.

Definition formatInterval (days : Z) (dialect : SqlDialect) : string :=
  match dialect with
  | postgres => "CURRENT_DATE - INTERVAL '" ++ Js.numberToString days ++ " days'"
  | mysql => "DATE_SUB(CURDATE(), INTERVAL " ++ Js.numberToString days ++ " DAY)"
  | sqlite => "DATE('now', '-" ++ Js.numberToString days ++ " days')"
  end.

(** [w.lhs.table] and [w.lhs.column]: defined only on a column reference. *)
Definition lhsTable (l : Lhs) : option string :=
  match l with LhsColumn c => Some (table c) | _ => None end.

Definition lhsColumn (l : Lhs) : option string :=
  match l with LhsColumn c => Some (column c) | _ => None end.

(** The callback of [(ir.where || []).map(...)]. *)
Definition emitCondition (w : Condition) (dialect : SqlDialect) : Outcome string :=
  t <- qUndef (lhsTable (lhs w)) dialect ;;
  c <- qUndef (lhsColumn (lhs w)) dialect ;;
  let l := t ++ "." ++ c in
  let plain (r : string) := l ++ " " ++ opText (op w) ++ " " ++ r in
  Returns
    match rhs w with
    | RhsExpr _ (Some days) => plain (formatInterval days dialect)
    | RhsExpr (Some e) None => if Js.truthy e then plain e else plain "NULL"
    | RhsExpr None None => plain "NULL"
    | RhsNull => plain "NULL"
    | RhsValues vs => plain ("(" ++ Js.join ", " (map Json.stringify vs) ++ ")")
    | RhsRange lo hi =>
        l ++ " BETWEEN " ++ Json.stringify lo ++ " AND " ++ Json.stringify hi
    | RhsValue v => plain (Json.stringify v)
    | RhsColumn _ => plain "NULL"
    end.

Definition emitJoin (base : string) (j : JoinSpec) (dialect : SqlDialect) : string :=
  let joinTable :=
    if String.eqb (table (join_left j)) base then table (join_right j)
    else if String.eqb (table (join_right j)) base then table (join_left j)
    else table (join_right j) in
  let onLeft := q (table (join_left j)) dialect ++ "." ++ q (column (join_left j)) dialect in
  let onRight := q (table (join_right j)) dialect ++ "." ++ q (column (join_right j)) dialect in
  joinTypeUpper (join_type j) ++ " JOIN " ++ q joinTable dialect ++ " ON "
  ++ onLeft ++ " = " ++ onRight.

Definition emitOrderBy (o : OrderBySpec) (dialect : SqlDialect) : string :=
  Js.trim (q (table (expr o)) dialect ++ "." ++ q (column (expr o)) dialect ++ " "
           ++ match direction o with Some d => directionUpper d | None => EmptyString end).

(** A number is falsy when it is zero (the model has no NaN). *)
Definition truthyLimit (l : option Z) : bool :=
  match l with Some n => negb (Z.eqb n 0) | None => false end.

Definition limitClause (l : option Z) : string :=
  match l with
  | Some n => if negb (Z.eqb n 0) then "LIMIT " ++ Js.numberToString n else EmptyString
  | None => EmptyString
  end.

(** The [parts] array of [generateSQL], before [.filter(Boolean)]. *)
Definition clauses (ir : SelectQueryIR) (dialect : SqlDialect) : Outcome (list string) :=
  let select := Js.join ", " (map (fun c => emitColumn c dialect) (columns ir)) in
  let from_ := "FROM " ++ q (from ir) dialect in
  let joins_ := Js.join " " (map (fun j => emitJoin (from ir) j dialect) (orEmpty (joins ir))) in
  ws <- mapO (fun w => emitCondition w dialect) (orEmpty (where_ ir)) ;;
  let where_s := Js.join " AND " ws in
  let groupBy_ :=
    Js.join ", " (map (fun g => q (table g) dialect ++ "." ++ q (column g) dialect)
                      (orEmpty (groupBy ir))) in
  let orderBy_ := Js.join ", " (map (fun o => emitOrderBy o dialect) (orEmpty (orderBy ir))) in
  Returns
    [ "SELECT " ++ select;
      from_;
      joins_;
      if Js.truthy where_s then "WHERE " ++ where_s else EmptyString;
      if Js.truthy groupBy_ then "GROUP BY " ++ groupBy_ else EmptyString;
      if Js.truthy orderBy_ then "ORDER BY " ++ orderBy_ else EmptyString;
      limitClause (limit ir) ].

(** [parts.filter(Boolean)]. *)
Definition parts (ir : SelectQueryIR) (dialect : SqlDialect) : Outcome (list string) :=
  cs <- clauses ir dialect ;; Returns (filter Js.truthy cs).

Definition generateSQL (ir : SelectQueryIR) (dialect : SqlDialect) : Outcome string :=
  ps <- parts ir dialect ;; Returns (Js.join Js.newline ps).

End Generator.

(** ** The JSON text of a condition: [JSON.stringify(condition)], the keys of
       every object in the order of the declared types, which is the order
       the IR builder writes them in; absent members are left out. *)

Module IRJson.

Definition quoted (s : string) : string := Js.dquote ++ Json.escape s ++ Js.dquote.

Definition object (members : list (string * string)) : string :=
  "{" ++ Js.join "," (map (fun m => quoted (fst m) ++ ":" ++ snd m) members) ++ "}".

Definition array (items : list string) : string := "[" ++ Js.join "," items ++ "]".

Definition ofColumnRef (c : ColumnRef) : string :=
  object ([("table", quoted (table c)); ("column", quoted (column c))]
          ++ match alias c with Some a => [("alias", quoted a)] | None => [] end).

Definition ofLhs (l : Lhs) : string :=
  match l with
  | LhsColumn c => ofColumnRef c
  | LhsValue v => object [("value", Json.stringify v)]
  | LhsExpr e => object [("expr", quoted e)]
  end.

Definition ofRhs (r : Rhs) : string :=
  match r with
  | RhsColumn c => ofColumnRef c
  | RhsValue v => object [("value", Json.stringify v)]
  | RhsValues vs => object [("values", array (map Json.stringify vs))]
  | RhsRange lo hi => object [("range", array [Json.stringify lo; Json.stringify hi])]
  | RhsNull => object [("null", "true")]
  | RhsExpr e days =>
      object (match e with Some x => [("expr", quoted x)] | None => [] end
              ++ match days with
                 | Some n => [("intervalDays", Js.numberToString n)]
                 | None => []
                 end)
  end.

Definition ofCondition (c : Condition) : string :=
  object [("lhs", ofLhs (lhs c)); ("op", quoted (Generator.opText (op c)));
          ("rhs", ofRhs (rhs c))].

End IRJson.

(** ** The basic optimizer (src/optimizer/optimizer.ts). *)

Module Optimizer.

(** The predicate of [sel.some(...)]: a plain column with the table and the
    column of [g]. *)
Definition sameColumn (g : ColumnRef) (c : Projection) : bool :=
  match c with
  | PAgg _ => false
  | PCol r => String.eqb (table r) (table g) && String.eqb (column r) (column g)
  end.

(** The loop [for (const g of next.groupBy) { if (!exists) sel.unshift(g) }]. *)
Fixpoint ensureSelected (gs : list ColumnRef) (sel : list Projection) : list Projection :=
  match gs with
  | [] => sel
  | g :: r =>
      ensureSelected r (if existsb (sameColumn g) sel then sel else PCol g :: sel)
  end.

Definition key (g : ColumnRef) : string := table g ++ "." ++ column g.

(** [groupBy.filter(...)] with the [seen] set threaded through. *)
Fixpoint dedupe (seen : list string) (gs : list ColumnRef) : list ColumnRef :=
  match gs with
  | [] => []
  | g :: r =>
      if existsb (String.eqb (key g)) seen then dedupe seen r
      else g :: dedupe (key g :: seen) r
  end.

Definition optimizeIR (ir : SelectQueryIR) : SelectQueryIR :=
  let sel :=
    match groupBy ir with
    | Some (g :: gs) => ensureSelected (g :: gs) (columns ir)
    | _ => columns ir
    end in
  let grp :=
    match groupBy ir with
    | Some gs => Some (dedupe [] gs)
    | None => None
    end in
  mkIR (from ir) sel (joins ir) (where_ ir) grp (having ir) (orderBy ir) (limit ir).

End Optimizer.

(** ** Structural equality of IR values.

    [JSON.stringify] is the key of the optimizer's [Set]s and [Map]s; on the
    values of the model (fields in declaration order) two keys are equal
    exactly when the values are. *)

Module Eq.

Definition option_eq_dec {A} (d : forall x y : A, {x = y} + {x <> y})
  (x y : option A) : {x = y} + {x <> y}.
Proof. decide equality. Defined.

Create HintDb eqdec.
#[local] Hint Resolve Bool.bool_dec Z.eq_dec string_dec list_eq_dec option_eq_dec : eqdec.

Definition JsValue_eq_dec (x y : JsValue) : {x = y} + {x <> y}.
Proof. decide equality; auto with eqdec. Defined.
#[local] Hint Resolve JsValue_eq_dec : eqdec.

Definition ColumnRef_eq_dec (x y : ColumnRef) : {x = y} + {x <> y}.
Proof. decide equality; auto with eqdec. Defined.
#[local] Hint Resolve ColumnRef_eq_dec : eqdec.

Definition Lhs_eq_dec (x y : Lhs) : {x = y} + {x <> y}.
Proof. decide equality; auto with eqdec. Defined.
#[local] Hint Resolve Lhs_eq_dec : eqdec.

Definition Rhs_eq_dec (x y : Rhs) : {x = y} + {x <> y}.
Proof. decide equality; auto with eqdec. Defined.
#[local] Hint Resolve Rhs_eq_dec : eqdec.

Definition ConditionOp_eq_dec (x y : ConditionOp) : {x = y} + {x <> y}.
Proof. decide equality. Defined.
#[local] Hint Resolve ConditionOp_eq_dec : eqdec.

Definition Condition_eq_dec (x y : Condition) : {x = y} + {x <> y}.
Proof. decide equality; auto with eqdec. Defined.
#[local] Hint Resolve Condition_eq_dec : eqdec.

Definition JoinType_eq_dec (x y : JoinType) : {x = y} + {x <> y}.
Proof. decide equality. Defined.
#[local] Hint Resolve JoinType_eq_dec : eqdec.

Definition JoinSpec_eq_dec (x y : JoinSpec) : {x = y} + {x <> y}.
Proof. decide equality; auto with eqdec. Defined.
#[local] Hint Resolve JoinSpec_eq_dec : eqdec.

Definition Direction_eq_dec (x y : Direction) : {x = y} + {x <> y}.
Proof. decide equality. Defined.
#[local] Hint Resolve Direction_eq_dec : eqdec.

Definition OrderBySpec_eq_dec (x y : OrderBySpec) : {x = y} + {x <> y}.
Proof. decide equality; auto with eqdec. Defined.
#[local] Hint Resolve OrderBySpec_eq_dec : eqdec.

Definition AggregateFunc_eq_dec (x y : AggregateFunc) : {x = y} + {x <> y}.
Proof. decide equality. Defined.
#[local] Hint Resolve AggregateFunc_eq_dec : eqdec.

Definition AggExpr_eq_dec (x y : AggExpr) : {x = y} + {x <> y}.
Proof. decide equality; auto with eqdec. Defined.
#[local] Hint Resolve AggExpr_eq_dec : eqdec.

Definition AggregateSpec_eq_dec (x y : AggregateSpec) : {x = y} + {x <> y}.
Proof. decide equality; auto with eqdec. Defined.
#[local] Hint Resolve AggregateSpec_eq_dec : eqdec.

Definition Projection_eq_dec (x y : Projection) : {x = y} + {x <> y}.
Proof. decide equality; auto with eqdec. Defined.
#[local] Hint Resolve Projection_eq_dec : eqdec.

End Eq.

(** ** JavaScript [Map] and [Set] with string or structural keys: insertion
       order is kept, [set] on a present key replaces the value in place. *)

Module JsMap.
Section WithKey.
Variables (K V : Type).
Variable K_eq_dec : forall x y : K, {x = y} + {x <> y}.

Fixpoint get (k : K) (m : list (K * V)) : option V :=
  match m with
  | [] => None
  | (k', v) :: r => if K_eq_dec k k' then Some v else get k r
  end.

Fixpoint set (k : K) (v : V) (m : list (K * V)) : list (K * V) :=
  match m with
  | [] => [(k, v)]
  | (k', v') :: r =>
      if K_eq_dec k k' then (k, v) :: r else (k', v') :: set k v r
  end.

Definition has (k : K) (m : list (K * V)) : bool :=
  match get k m with Some _ => true | None => false end.

(** [set.add(k)] on a [Set], kept as the list of its members. *)
Definition add (k : K) (s : list K) : list K :=
  if in_dec K_eq_dec k s then s else (s ++ [k])%list.
End WithKey.
End JsMap.

(** ** Arithmetic on measured numbers. *)

Module JsMath.
Open Scope Q_scope.

(** [x < y]. *)
Definition Qltb (x y : Q) : bool := negb (Qle_bool y x).
Definition mathMin (x y : Q) : Q := if Qle_bool x y then x else y.
Definition mathMax (x y : Q) : Q := if Qle_bool x y then y else x.
Definition mathFloor (x : Q) : Q := inject_Z (Qfloor x).
Definition mathCeil (x : Q) : Q := inject_Z (Qceiling x).
Definition ofNat (n : nat) : Q := inject_Z (Z.of_nat n).

End JsMath.

(** ** The advanced optimizer (src/optimizer/advanced-optimizer.ts). *)

Module Advanced.

Import JsMath.
Open Scope Q_scope.


(** *** Result types *)

Inductive PlanNodeType : Type :=
| SCAN | INDEX_SCAN | BITMAP_SCAN | JOIN | SORT | AGGREGATE | FILTER | LIMIT
| MATERIALIZE | SUBQUERY | CTE.

#[local] Unset Elimination Schemes.
Inductive QueryPlan : Type :=
  mkPlan (type : PlanNodeType) (operation : string) (cost rows width : Q)
         (children : option (list QueryPlan)) (details : option (list (string * string))).
#[local] Set Elimination Schemes.

Definition plan_cost (p : QueryPlan) : Q := let 'mkPlan _ _ c _ _ _ _ := p in c.
Definition plan_rows (p : QueryPlan) : Q := let 'mkPlan _ _ _ r _ _ _ := p in r.
Definition plan_width (p : QueryPlan) : Q := let 'mkPlan _ _ _ _ w _ _ := p in w.
Definition plan_children (p : QueryPlan) : option (list QueryPlan) :=
  let 'mkPlan _ _ _ _ _ ch _ := p in ch.

Inductive OptimizationType : Type :=
| PREDICATE_PUSHDOWN | JOIN_REORDERING | INDEX_SELECTION | SUBQUERY_UNNESTING
| COMMON_SUBEXPRESSION | PARTITION_PRUNING | MATERIALIZED_VIEW | QUERY_REWRITE
| COLUMN_PRUNING | CONSTANT_FOLDING.

Inductive Impact : Type := HIGH | MEDIUM | LOW.

Record AppliedOptimization : Type := mkApplied {
  opt_type : OptimizationType;
  opt_description : string;
  impact : Impact;
  costReduction : Q
}.

Record AlternativePlan : Type := mkAlternative {
  alt_description : string;
  alt_plan : QueryPlan;
  alt_cost : Q;
  tradeoffs : list string
}.

Inductive RecommendationType : Type :=
| CREATE_INDEX | UPDATE_STATISTICS | PARTITION_TABLE | DENORMALIZE
| REC_MATERIALIZED_VIEW | REC_QUERY_REWRITE.

Record Recommendation : Type := mkRecommendation {
  rec_type : RecommendationType;
  rec_description : string;
  rec_impact : string;
  implementation : option string
}.

(** *** The IR objects the optimizer handles

    The optimizer reads and writes fields outside the declared IR
    ([prunedColumns], [selectedIndexes], [joinMethod], [subqueries]) and
    compares objects by identity ([!==]); an object is an address and its
    fields. *)

Record Index : Type := mkIndex {
  index_name : string;
  index_columns : list string;
  unique : bool;
  index_type : option string
}.

(** [selectedIndexes] is a [Map] when [selectIndexes] has just stored it and
    the plain object [{}] once [JSON.parse(JSON.stringify(ir))] has copied it. *)
Inductive SelectedIndexes : Type :=
| IndexMap (entries : list (string * list Index))
| EmptyObject.

Record Subquery : Type := mkSubquery {
  sq_type : string;
  sq_depth : Z
}.

Record IRFields : Type := mkFields {
  query : SelectQueryIR;
  prunedColumns : option (list string);
  selectedIndexes : option SelectedIndexes;
  joinMethod : option string;
  subqueries : option (list Subquery)
}.

(** An IR as the declared type has it, without the optimizer's extras. *)
Definition ofQuery (qr : SelectQueryIR) : IRFields := mkFields qr None None None None.

Record IRObject : Type := mkObject {
  addr : nat;
  fields : IRFields
}.

Definition withQuery (f : IRFields) (qr : SelectQueryIR) : IRFields :=
  mkFields qr (prunedColumns f) (selectedIndexes f) (joinMethod f) (subqueries f).

Definition setWhere (qr : SelectQueryIR) (w : option (list Condition)) : SelectQueryIR :=
  mkIR (from qr) (columns qr) (joins qr) w (groupBy qr) (having qr) (orderBy qr) (limit qr).

Definition setJoins (qr : SelectQueryIR) (j : option (list JoinSpec)) : SelectQueryIR :=
  mkIR (from qr) (columns qr) j (where_ qr) (groupBy qr) (having qr) (orderBy qr) (limit qr).

(** The copy made by [JSON.parse(JSON.stringify(ir))]: same data, the [Map]
    flattened to [{}]. *)
Definition jsonCopy (f : IRFields) : IRFields :=
  mkFields (query f) (prunedColumns f)
           (match selectedIndexes f with Some _ => Some EmptyObject | None => None end)
           (joinMethod f) (subqueries f).

Record OptimizationResult : Type := mkResult {
  optimizedIR : IRObject;
  plan : QueryPlan;
  estimatedCost : Q;
  optimizations : list AppliedOptimization;
  alternatives : list AlternativePlan;
  recommendations : list Recommendation
}.

(** *** The cache key: [JSON.stringify({from, columns, where, joins, groupBy,
        orderBy, limit})]. *)

Record Key : Type := mkKey {
  k_from : string;
  k_columns : list Projection;
  k_where : option (list Condition);
  k_joins : option (list JoinSpec);
  k_groupBy : option (list ColumnRef);
  k_orderBy : option (list OrderBySpec);
  k_limit : option Z
}.

Definition Key_eq_dec (x y : Key) : {x = y} + {x <> y}.
Proof.
  decide equality;
    repeat (first [ apply Eq.option_eq_dec | apply list_eq_dec ]);
    first [ apply Z.eq_dec | apply string_dec | apply Eq.OrderBySpec_eq_dec
          | apply Eq.ColumnRef_eq_dec | apply Eq.JoinSpec_eq_dec
          | apply Eq.Condition_eq_dec | apply Eq.Projection_eq_dec ].
Defined.

Definition getKey (f : IRFields) : Key :=
  let qr := query f in
  mkKey (from qr) (columns qr) (where_ qr) (joins qr) (groupBy qr) (orderBy qr) (limit qr).

(** *** The state a call runs in: the heap's next free address and the
        optimizer's [QueryCache]. *)

Record State : Type := mkState {
  nextAddr : nat;
  cache : list (Key * OptimizationResult);
  frequency : list (Key * nat)
}.

Definition freshState : State := mkState 0 [] [].

Definition M (A : Type) : Type := State -> Outcome A * State.

Definition ret {A} (a : A) : M A := fun s => (Returns a, s).
Definition throw {A} (e : Thrown) : M A := fun s => (Throws e, s).
Definition bind {A B} (m : M A) (k : A -> M B) : M B :=
  fun s => match m s with
           | (Returns a, s') => k a s'
           | (Throws e, s') => (Throws e, s')
           end.
Definition lift {A} (o : Outcome A) : M A := fun s => (o, s).

Notation "x <~ m ;; k" := (bind m (fun x => k))
  (at level 61, m at next level, right associativity).

(** [cloneIR]: a new object, at a new address. *)
Definition cloneIR (ir : IRFields) : M IRObject :=
  fun s => (Returns (mkObject (nextAddr s) (jsonCopy ir)),
            mkState (S (nextAddr s)) (cache s) (frequency s)).

(** [a !== b] on objects. *)
Definition differs (a b : IRObject) : bool := negb (Nat.eqb (addr a) (addr b)).

Fixpoint forM {A S} (l : list A) (acc : S) (body : S -> A -> M S) : M S :=
  match l with
  | [] => ret acc
  | x :: r => acc' <~ body acc x ;; forM r acc' body
  end.

Section CostBased.

(** [Math.log2]; the model leaves the logarithm abstract. *)
Variable log2 : Q -> Q.

(** *** class CostModel *)

Definition scanCost (_ : string) : Q :=
  let rows := 10000 in
  let pageSize := 8192 in
  let rowSize := 100 in
  let pages := mathCeil ((rows * rowSize) / pageSize) in
  pages * 1.

Definition filterCost (conds : list Condition) : Q := ofNat (length conds) * 0.01.

Definition joinCost (_ : JoinSpec) (leftRows : Q) : Q :=
  let rightRows := 10000 in
  leftRows * rightRows * 0.0001.

Definition aggregateCost (grp : list ColumnRef) (rows : Q) : Q :=
  rows * 0.001 * ofNat (length grp).

Definition sortCost (rows : Q) : Q := rows * log2 rows * 0.0001.

Definition estimate (ir : IRFields) : Q :=
  let qr := query ir in
  let c0 := 0 + scanCost (from qr) in
  let c1 := match where_ qr with Some w => c0 + filterCost w | None => c0 end in
  let c2 :=
    match joins qr with
    | Some js => fold_left (fun c j => c + joinCost j 1000) js c1
    | None => c1
    end in
  let c3 := match groupBy qr with Some g => c2 + aggregateCost g 1000 | None => c2 end in
  match orderBy qr with Some _ => c3 + sortCost 1000 | None => c3 end.

(** *** class StatisticsManager *)

Definition getTableRows (_ : string) : Q := 10000.
Definition getRowWidth (_ : string) : Q := 100.
Definition getColumnCardinality (_ _ : string) : Q := 100.
Definition hasStaleStatistics (_ : string) : bool := false.

(** *** class IndexSelector *)

Definition selectForCondition (_ _ : string) (_ : ConditionOp) : list Index := [].
Definition selectForJoin (_ _ : string) : list Index := [].

Definition findMissingIndexes (ir : IRFields) : list (string * list string) :=
  match where_ (query ir) with
  | Some w =>
      flat_map (fun c => match lhs c with
                         | LhsColumn r => [(table r, [column r])]
                         | _ => []
                         end) w
  | None => []
  end.

(** *** class QueryCache *)

Definition cacheGet (ir : IRFields) : M (option OptimizationResult) :=
  fun s =>
    let k := getKey ir in
    let n := match JsMap.get Key_eq_dec k (frequency s) with Some n => n | None => O end in
    (Returns (JsMap.get Key_eq_dec k (cache s)),
     mkState (nextAddr s) (cache s) (JsMap.set Key_eq_dec k (S n) (frequency s))).

(** [cache.set] and the size limit: above 1000 entries the oldest key goes. *)
Definition cacheInsert (k : Key) (r : OptimizationResult)
  (c : list (Key * OptimizationResult)) : list (Key * OptimizationResult) :=
  let c' := JsMap.set Key_eq_dec k r c in
  if (1000 <? length c')%nat then tl c' else c'.

Definition cacheSet (ir : IRFields) (r : OptimizationResult) : M unit :=
  fun s =>
    (Returns tt, mkState (nextAddr s) (cacheInsert (getKey ir) r (cache s)) (frequency s)).

Definition getFrequency (ir : IRFields) : M nat :=
  fun s =>
    (Returns (match JsMap.get Key_eq_dec (getKey ir) (frequency s) with
              | Some n => n | None => O end), s).

(** *** class QueryRewriter *)

(** The loop of [simplifyConditions]: [seen] is the [Set] of the keys met so
    far, of which only membership is read. *)
Fixpoint simplifyConditions (seen : list string) (conds : list Condition)
  : list Condition :=
  match conds with
  | [] => []
  | condition :: r =>
      let key := IRJson.ofCondition condition in
      if in_dec string_dec key seen then simplifyConditions seen r
      else condition :: simplifyConditions (key :: seen) r
  end.

Definition simplify (ir : IRObject) : M IRObject :=
  simplified <~ cloneIR (fields ir) ;;
  let f := fields simplified in
  ret match where_ (query f) with
      | Some w =>
          mkObject (addr simplified)
                   (withQuery f (setWhere (query f) (Some (simplifyConditions [] w))))
      | None => simplified
      end.

Definition unnestSubqueries (ir : IRObject) : IRObject := ir.
Definition convertToCTE (ir : IRObject) : IRObject := ir.

(** *** class JoinOptimizer *)

(** [[...joins.slice(0, i), ...joins.slice(i + 1)]] *)
Definition without {A} (i : nat) (l : list A) : list A :=
  (firstn i l ++ skipn (S i) l)%list.

Lemma without_length {A} (i : nat) (l : list A) :
  (i < length l)%nat -> length (without i l) = Nat.pred (length l).
Proof.
  intros Hi. unfold without.
  rewrite length_app, length_firstn, length_skipn. lia.
Qed.

(** [generateJoinOrders]: the recursion is on a list one shorter, so the
    length of the list is fuel enough. *)
Fixpoint joinOrders (fuel : nat) (js : list JoinSpec) : list (list JoinSpec) :=
  match fuel with
  | O => [js]
  | S fuel' =>
      if (length js <=? 1)%nat then [js]
      else
        flat_map
          (fun i =>
             match nth_error js i with
             | Some current => map (cons current) (joinOrders fuel' (without i js))
             | None => []
             end)
          (seq 0 (length js))
  end.

Definition generateJoinOrders (js : list JoinSpec) : list (list JoinSpec) :=
  joinOrders (length js) js.

(** One turn of [for (const order of orders)]: [cost < bestCost], the best
    cost starting at [Infinity] ([None]). *)
Definition tryOrder (ir : IRObject) (best : list JoinSpec * option Q)
  (order : list JoinSpec) : M (list JoinSpec * option Q) :=
  testIR <~ cloneIR (fields ir) ;;
  let f := fields testIR in
  let cost := estimate (withQuery f (setJoins (query f) (Some order))) in
  ret match snd best with
      | None => (order, Some cost)
      | Some bestCost => if Qltb cost bestCost then (order, Some cost) else best
      end.

Definition JoinOptimizer_optimize (ir : IRObject) : M IRObject :=
  match joins (query (fields ir)) with
  | None => ret ir
  | Some js =>
      if (length js <=? 1)%nat then ret ir
      else
        let orders := generateJoinOrders js in
        best <~ forM orders (js, None) (tryOrder ir) ;;
        optimized <~ cloneIR (fields ir) ;;
        let f := fields optimized in
        ret (mkObject (addr optimized) (withQuery f (setJoins (query f) (Some (fst best)))))
  end.

Definition generateAlternativeOrders (ir : IRObject) : M (list IRObject) :=
  match joins (query (fields ir)) with
  | None => ret [ir]
  | Some js =>
      if (length js <=? 1)%nat then ret [ir]
      else
        forM (firstn 3 (generateJoinOrders js)) []
          (fun acc order =>
             alt <~ cloneIR (fields ir) ;;
             let f := fields alt in
             ret (acc ++ [mkObject (addr alt)
                                   (withQuery f (setJoins (query f) (Some order)))])%list)
  end.

(** *** class AdvancedQueryOptimizer: helpers *)

Definition involvesAggregate (_ : Condition) : bool := false.

Definition dependsOnJoin (c : Condition) (ir : IRFields) : bool :=
  match joins (query ir), lhs c with
  | Some _, LhsColumn l =>
      match rhs c with
      | RhsColumn r => negb (String.eqb (table l) (table r))
      | _ => false
      end
  | _, _ => false
  end.

Definition canPushDown (c : Condition) (ir : IRFields) : bool :=
  match lhs c with
  | LhsColumn _ =>
      if involvesAggregate c then false
      else if dependsOnJoin c ir then false
      else true
  | _ => false
  end.

Definition isRelevantToJoin (c : Condition) (j : JoinSpec) : bool :=
  match lhs c with
  | LhsColumn l =>
      existsb (String.eqb (table l)) [table (join_left j); table (join_right j)]
  | _ => false
  end.

Definition hasSubqueries (ir : IRFields) : bool :=
  match subqueries ir with
  | Some (_ :: _) => true
  | _ => false
  end.

Definition hasComplexSubqueries (ir : IRFields) : bool :=
  hasSubqueries ir &&
  existsb (fun sq => String.eqb (sq_type sq) "correlated" || (1 <? sq_depth sq)%Z)
          (orEmpty (subqueries ir)).

(** [ir.selectedIndexes?.has(table)]: [{}] has no [has], and calling
    [undefined] throws. *)
Definition hasSelectedIndex (ir : IRFields) (t : string) : Outcome bool :=
  match selectedIndexes ir with
  | None => Returns false
  | Some (IndexMap m) => Returns (JsMap.has string_dec t m)
  | Some EmptyObject => Throws JsTypeError
  end.

Definition selectivityOf (o : ConditionOp) : Q :=
  match o with
  | OpEq => 0.1
  | OpLike | OpILike => 0.25
  | OpBetween => 0.2
  | OpIn => 0.15
  | OpGt | OpLt | OpGe | OpLe => 0.33
  | _ => 0.5
  end.

Definition estimateSelectivity (conds : list Condition) : Q :=
  mathMax 0.001 (fold_left (fun s c => s * selectivityOf (op c)) conds 1).

Definition estimateJoinRows (j : JoinSpec) (leftRows : Q) : Q :=
  let rightRows := getTableRows (table (join_right j)) in
  match join_type j with
  | inner => mathFloor (leftRows * rightRows * 0.001)
  | left_join => leftRows
  end.

Definition estimateGroupRows (grp : list ColumnRef) (inputRows : Q) : Q :=
  let distinctValues :=
    fold_left (fun product col =>
                 product * mathMin (getColumnCardinality (table col) (column col)) inputRows)
              grp 1 in
  mathMin distinctValues inputRows.

Fixpoint calculateTotalCost (p : QueryPlan) : Q :=
  let 'mkPlan _ _ c _ _ ch _ := p in
  match ch with
  | Some l =>
      (fix children (l : list QueryPlan) (total : Q) : Q :=
         match l with
         | [] => total
         | child :: r => children r (total + calculateTotalCost child)
         end) l c
  | None => c
  end.

Definition getColumnType (_ _ : string) : string := "varchar".

Definition hasTimeBasedFilter (ir : IRFields) : bool :=
  match where_ (query ir) with
  | None => false
  | Some w =>
      existsb (fun c => match lhs c with
                        | LhsColumn l =>
                            let columnType := getColumnType (table l) (column l) in
                            String.eqb columnType "date" || String.eqb columnType "timestamp"
                        | _ => false
                        end) w
  end.

Definition isComplexAggregation (ir : IRFields) : bool :=
  match groupBy (query ir) with Some (_ :: _) => true | _ => false end.

(** *** class AdvancedQueryOptimizer: the passes *)

Definition addConditions (pushed : list Condition) (j : JoinSpec) : JoinSpec :=
  let relevantConditions := filter (fun c => isRelevantToJoin c j) pushed in
  match relevantConditions with
  | [] => j
  | _ =>
      mkJoinSpec (join_type j) (join_left j) (join_right j)
                 (Some (orEmpty (conditions j) ++ relevantConditions)%list)
  end.

Definition pushPredicates (ir : IRObject) : M IRObject :=
  match where_ (query (fields ir)) with
  | None | Some [] => ret ir
  | Some w =>
      optimized <~ cloneIR (fields ir) ;;
      let pushed := filter (fun c => canPushDown c (fields ir)) w in
      let remaining := filter (fun c => negb (canPushDown c (fields ir))) w in
      let f := fields optimized in
      ret match pushed with
          | [] => optimized
          | _ =>
              let js := option_map (map (addConditions pushed)) (joins (query f)) in
              mkObject (addr optimized)
                       (withQuery f (setWhere (setJoins (query f) js) (Some remaining)))
          end
  end.

(** [`${col.table}.${col.column}`] on an element of [columns]: an aggregate
    has neither field. *)
Definition projectionName (c : Projection) : string :=
  match c with
  | PCol r => table r ++ "." ++ column r
  | PAgg _ => "undefined.undefined"
  end.

Definition columnName (r : ColumnRef) : string := table r ++ "." ++ column r.

Definition conditionNames (c : Condition) : list string :=
  (match lhs c with LhsColumn l => [columnName l] | _ => [] end
   ++ match rhs c with RhsColumn r => [columnName r] | _ => [] end)%list.

Definition joinNames (j : JoinSpec) : list string :=
  [columnName (join_left j); columnName (join_right j)].

Definition addAll (names : list string) (s : list string) : list string :=
  fold_left (fun acc n => JsMap.add string_dec n acc) names s.

(** [order.column] is read on an [OrderBySpec], which has [expr] and
    [direction] only: with any entry in [orderBy] the read of
    [order.column.table] throws. *)
Definition orderColumnNames (o : option (list OrderBySpec)) : Outcome (list string) :=
  match o with
  | Some (_ :: _) => Throws JsTypeError
  | _ => Returns []
  end.

Definition pruneColumns (ir : IRObject) : M IRObject :=
  let qr := query (fields ir) in
  let needed := addAll (map projectionName (columns qr)) [] in
  let needed := addAll (flat_map conditionNames (orEmpty (where_ qr))) needed in
  let needed := addAll (flat_map joinNames (orEmpty (joins qr))) needed in
  let needed := addAll (map columnName (orEmpty (groupBy qr))) needed in
  ord <~ lift (orderColumnNames (orderBy qr)) ;;
  let needed := addAll ord needed in
  optimized <~ cloneIR (fields ir) ;;
  let f := fields optimized in
  ret (mkObject (addr optimized)
                (mkFields (query f) (Some needed) (selectedIndexes f) (joinMethod f)
                          (subqueries f))).

Definition addIndexes (t : string) (indexes : list Index)
  (m : list (string * list Index)) : list (string * list Index) :=
  match indexes with
  | [] => m
  | _ =>
      let existing := match JsMap.get string_dec t m with Some l => l | None => [] end in
      JsMap.set string_dec t (existing ++ indexes)%list m
  end.

Definition selectIndexes (ir : IRObject) : M IRObject :=
  let qr := query (fields ir) in
  optimized <~ cloneIR (fields ir) ;;
  let m :=
    fold_left (fun m c => match lhs c with
                          | LhsColumn l =>
                              addIndexes (table l)
                                (selectForCondition (table l) (column l) (op c)) m
                          | _ => m
                          end) (orEmpty (where_ qr)) [] in
  let m :=
    fold_left (fun m j =>
                 let leftIndexes := selectForJoin (table (join_left j)) (column (join_left j)) in
                 let rightIndexes :=
                   selectForJoin (table (join_right j)) (column (join_right j)) in
                 addIndexes (table (join_right j)) rightIndexes
                            (addIndexes (table (join_left j)) leftIndexes m))
              (orEmpty (joins qr)) m in
  _ <~ lift (orderColumnNames (orderBy qr)) ;;
  let f := fields optimized in
  ret (mkObject (addr optimized)
                (mkFields (query f) (prunedColumns f) (Some (IndexMap m)) (joinMethod f)
                          (subqueries f))).

(** *** generatePlan

    [root.children] receives the base scan only; the filter, join, aggregate
    and limit nodes are built above [current] and give the root its [rows]
    and [width], not its cost. *)

Definition joinNode (ir : IRFields) (current : QueryPlan) (j : JoinSpec)
  : Outcome QueryPlan :=
  idx <- hasSelectedIndex ir (table (join_right j)) ;;
  let rightScan :=
    mkPlan (if idx then INDEX_SCAN else SCAN) ("Scan " ++ table (join_right j))
           (scanCost (table (join_right j))) (getTableRows (table (join_right j)))
           (getRowWidth (table (join_right j))) None None in
  Returns
    (mkPlan JOIN (Generator.joinTypeUpper (join_type j) ++ " Join")
            (joinCost j (plan_rows current)) (estimateJoinRows j (plan_rows current))
            (plan_width current * 2) (Some [current; rightScan])
            (Some [("condition",
                    columnName (join_left j) ++ " = " ++ columnName (join_right j))])).

Fixpoint joinNodes (ir : IRFields) (current : QueryPlan) (js : list JoinSpec)
  : Outcome QueryPlan :=
  match js with
  | [] => Returns current
  | j :: r => n <- joinNode ir current j ;; joinNodes ir n r
  end.

Definition generatePlan (ir : IRFields) : Outcome QueryPlan :=
  let qr := query ir in
  idx <- hasSelectedIndex ir (from qr) ;;
  let scanNode :=
    mkPlan (if idx then INDEX_SCAN else SCAN) ("Scan " ++ from qr) (scanCost (from qr))
           (getTableRows (from qr)) (getRowWidth (from qr)) None None in
  let current := scanNode in
  let current :=
    match where_ qr with
    | Some (c :: w) =>
        mkPlan FILTER "Filter" (filterCost (c :: w))
               (mathFloor (plan_rows current * estimateSelectivity (c :: w)))
               (plan_width current) (Some [current]) None
    | _ => current
    end in
  current <- joinNodes ir current (orEmpty (joins qr)) ;;
  let current :=
    match groupBy qr with
    | Some (g :: gs) =>
        mkPlan AGGREGATE "GroupAggregate" (aggregateCost (g :: gs) (plan_rows current))
               (estimateGroupRows (g :: gs) (plan_rows current)) (plan_width current)
               (Some [current]) None
    | _ => current
    end in
  _ <- orderColumnNames (orderBy qr) ;;
  let current :=
    match limit qr with
    | Some n =>
        if negb (Z.eqb n 0) then
          mkPlan LIMIT ("Limit " ++ Js.numberToString n) 0.01
                 (mathMin (inject_Z n) (plan_rows current)) (plan_width current)
                 (Some [current]) None
        else current
    | None => current
    end in
  let root := mkPlan SCAN "Result" 0 1 0 (Some [scanNode]) None in
  Returns (mkPlan SCAN "Result" (calculateTotalCost root) (plan_rows current)
                  (plan_width current) (Some [scanNode]) None).

(** *** generateAlternatives, generateRecommendations *)

Definition alternativeOf (description : string) (tr : list string) (ir : IRFields)
  : Outcome AlternativePlan :=
  p <- generatePlan ir ;;
  Returns (mkAlternative description p (calculateTotalCost p) tr).

Definition joinCount (ir : IRFields) : nat := length (orEmpty (joins (query ir))).

Definition generateAlternatives (ir : IRObject) : M (list AlternativePlan) :=
  alts <~ (if (1 <? joinCount (fields ir))%nat then
             orders <~ generateAlternativeOrders ir ;;
             forM orders []
               (fun acc altOrder =>
                  a <~ lift (alternativeOf "Alternative join order"
                               ["May use more memory";
                                "Better for different data distributions"]
                               (fields altOrder)) ;;
                  ret (push acc a))
           else ret []) ;;
  alts <~ (if (0 <? joinCount (fields ir))%nat then
             hashJoinIR <~ cloneIR (fields ir) ;;
             let f := fields hashJoinIR in
             a <~ lift (alternativeOf "Use hash join instead of nested loop"
                          ["Higher memory usage"; "Better for large datasets"]
                          (mkFields (query f) (prunedColumns f) (selectedIndexes f)
                                    (Some "hash") (subqueries f))) ;;
             ret (push alts a)
           else ret alts) ;;
  if hasComplexSubqueries (fields ir) then
    a <~ lift (alternativeOf "Use Common Table Expressions (CTEs)"
                 ["More readable"; "May materialize intermediate results"]
                 (fields (convertToCTE ir))) ;;
    ret (push alts a)
  else ret alts.

Definition createIndex (index : string * list string) : Recommendation :=
  let '(t, cols) := index in
  mkRecommendation CREATE_INDEX
    ("Create index on " ++ t ++ "(" ++ Js.join ", " cols ++ ")")
    "Could improve query performance by 50-80%"
    (Some ("CREATE INDEX idx_" ++ t ++ "_" ++ Js.join "_" cols ++ " ON " ++ t
           ++ "(" ++ Js.join ", " cols ++ ")")).

Definition generateRecommendations (ir : IRObject) (_ : QueryPlan)
  : M (list Recommendation) :=
  let f := fields ir in
  let base := from (query f) in
  let recs := map createIndex (findMissingIndexes f) in
  let recs :=
    if hasStaleStatistics base then
      push recs (mkRecommendation UPDATE_STATISTICS
                   ("Update statistics for table " ++ base)
                   "Better query plan selection" (Some ("ANALYZE " ++ base)))
    else recs in
  let tableRows := getTableRows base in
  let recs :=
    if Qltb 1000000 tableRows && hasTimeBasedFilter f then
      push recs (mkRecommendation PARTITION_TABLE
                   ("Consider partitioning " ++ base ++ " by date")
                   "Faster queries on date ranges, easier maintenance"
                   (Some "Partition by range on date column"))
    else recs in
  if isComplexAggregation f then
    n <~ getFrequency f ;;
    ret (if (10 <? n)%nat then
           push recs (mkRecommendation REC_MATERIALIZED_VIEW
                        "Create materialized view for this aggregation"
                        "Instant query results for pre-computed aggregations"
                        (Some "CREATE MATERIALIZED VIEW ... AS [query]"))
         else recs)
  else ret recs.

(** *** optimize

    [step candidate description] is one block
    [if (candidate !== optimized) { optimizations.push(...); optimized = candidate }]. *)

Definition step (ty : OptimizationType) (description : string) (im : Impact)
  (before : Q) (candidate : IRObject)
  (acc : list AppliedOptimization * IRObject) : list AppliedOptimization * IRObject :=
  let '(optimizations, optimized) := acc in
  if differs candidate optimized then
    (push optimizations (mkApplied ty description im (before - estimate (fields candidate))),
     candidate)
  else acc.

Definition passes (ir : IRObject) : M (list AppliedOptimization * IRObject) :=
  optimized <~ cloneIR (fields ir) ;;
  let originalCost := estimate (fields optimized) in
  let acc := ([], optimized) in
  (* 1. Constant folding and simplification *)
  simplified <~ simplify (snd acc) ;;
  let acc := step CONSTANT_FOLDING "Simplified constant expressions and predicates" LOW
                  originalCost simplified acc in
  (* 2. Predicate pushdown *)
  pushedDown <~ pushPredicates (snd acc) ;;
  let acc := step PREDICATE_PUSHDOWN "Pushed predicates closer to data source" HIGH
                  (estimate (fields (snd acc))) pushedDown acc in
  (* 3. Column pruning *)
  pruned <~ pruneColumns (snd acc) ;;
  let acc := step COLUMN_PRUNING "Removed unnecessary columns from scan" MEDIUM
                  (estimate (fields (snd acc))) pruned acc in
  (* 4. Join order optimization *)
  acc <~ (if (1 <? joinCount (fields (snd acc)))%nat then
            reordered <~ JoinOptimizer_optimize (snd acc) ;;
            ret (step JOIN_REORDERING "Optimized join order based on selectivity and cost"
                      HIGH (estimate (fields (snd acc))) reordered acc)
          else ret acc) ;;
  (* 5. Index selection *)
  withIndexes <~ selectIndexes (snd acc) ;;
  let acc := step INDEX_SELECTION "Selected optimal indexes for query execution" HIGH
                  (estimate (fields (snd acc))) withIndexes acc in
  (* 6. Subquery optimization *)
  ret (if hasSubqueries (fields (snd acc)) then
         step SUBQUERY_UNNESTING "Converted subqueries to joins where possible" MEDIUM
              (estimate (fields (snd acc))) (unnestSubqueries (snd acc)) acc
       else acc).

Definition optimize (ir : IRObject) : M OptimizationResult :=
  cached <~ cacheGet (fields ir) ;;
  match cached with
  | Some r => ret r
  | None =>
      acc <~ passes ir ;;
      let '(optimizations, optimized) := acc in
      plan <~ lift (generatePlan (fields optimized)) ;;
      let estimatedCost := estimate (fields optimized) in
      alternatives <~ generateAlternatives optimized ;;
      recommendations <~ generateRecommendations optimized plan ;;
      let result :=
        mkResult optimized plan estimatedCost optimizations alternatives recommendations in
      _ <~ cacheSet (fields ir) result ;;
      ret result
  end.

End CostBased.
End Advanced.

(** ** The entity recognizer (src/nlp/entity/entity-recognizer.ts). *)

Module TokenType.
Inductive t : Type :=
| SELECT_KEYWORD | FROM_KEYWORD | WHERE_KEYWORD | JOIN_KEYWORD | GROUP_KEYWORD
| ORDER_KEYWORD | HAVING_KEYWORD | COMPARISON_OP | LOGICAL_OP | ARITHMETIC_OP
| TABLE_NAME | COLUMN_NAME | FUNCTION_NAME | ALIAS | STRING_LITERAL | NUMBER_LITERAL
| DATE_LITERAL | BOOLEAN_LITERAL | NULL_LITERAL | NOUN | VERB | ADJECTIVE | ADVERB
| PREPOSITION | DETERMINER | PRONOUN | CONJUNCTION | AGGREGATION | TEMPORAL
| QUANTIFIER | NEGATION | QUESTION | PUNCTUATION | UNKNOWN.

Definition eq_dec (x y : t) : {x = y} + {x <> y}.
Proof. decide equality. Defined.

Definition eqb (x y : t) : bool := if eq_dec x y then true else false.
End TokenType.

Module EntityType.
Inductive t : Type :=
| TABLE | COLUMN | VALUE | FUNCTION | OPERATOR | CONDITION | AGGREGATION | TEMPORAL
| NUMERIC | TEXT | BOOLEAN | NULL | UNKNOWN.

Definition eq_dec (x y : t) : {x = y} + {x <> y}.
Proof. decide equality. Defined.

Definition eqb (x y : t) : bool := if eq_dec x y then true else false.
End EntityType.

Module Recognizer.

Import JsMath.
Open Scope Q_scope.

Record Token : Type := mkToken {
  tok_text : string;
  tok_type : TokenType.t;
  tok_position : nat;
  tok_length : nat;
  normalized : string;
  tok_confidence : Q
}.

Record ColumnInfo : Type := mkColumnInfo {
  col_name : string;
  col_type : string;
  nullable : bool
}.

Record TableInfo : Type := mkTableInfo {
  name : string;
  table_alias : option (list string);
  table_columns : list ColumnInfo
}.

Record FunctionInfo : Type := mkFunctionInfo {
  fn_name : string;
  fn_type : string;
  returnType : string
}.

Record SchemaContext : Type := mkSchema {
  tables : list TableInfo;
  functions : list FunctionInfo
}.

(** The query context of [buildContext]. *)
Record Context : Type := mkContext {
  ctx_tables : list string;
  ctx_columns : list string;
  ctx_functions : list string;
  hasAggregation : bool;
  hasGroupBy : bool;
  hasJoin : bool;
  hasWhere : bool
}.

Section WithClock.

(** [parseTemporal] reads the clock ([new Date()]); dates stay abstract. *)
Variable DateT : Type.
Variable parseTemporal : string -> option DateT.

(** [metadata.table] is the table object on TABLE entities and the table's
    name on COLUMN entities. *)
Inductive TableMeta : Type :=
| TableObject (t : TableInfo)
| TableName (n : string).

Record Metadata : Type := mkMetadata {
  md_table : option TableMeta;
  md_column : option ColumnInfo;
  md_function : option FunctionInfo;
  md_pattern : option string;
  md_parsed : option (option DateT);
  md_ambiguous : option bool;
  md_possibleTables : option (list string)
}.

Definition noMetadata : Metadata := mkMetadata None None None None None None None.

Record Entity : Type := mkEntity {
  ent_text : string;
  ent_type : EntityType.t;
  subtype : option string;
  confidence : Q;
  ent_position : nat;
  ent_length : nat;
  resolvedName : option string;
  metadata : option Metadata
}.

Variable schema : SchemaContext.

(** *** buildSynonymMap *)

Definition commonSynonyms : list (string * string) :=
  [("customer", "customer"); ("client", "customer"); ("buyer", "customer");
   ("purchaser", "customer"); ("product", "product"); ("item", "product");
   ("good", "product"); ("merchandise", "product"); ("order", "order");
   ("purchase", "order"); ("transaction", "order"); ("employee", "employee");
   ("staff", "employee"); ("worker", "employee"); ("personnel", "employee");
   ("department", "department"); ("dept", "department"); ("division", "department");
   ("unit", "department")].

Definition buildSynonymMap : list (string * string) :=
  fold_left
    (fun m t =>
       fold_left (fun m a => JsMap.set string_dec (Js.toLowerCase a)
                                       (Js.toLowerCase (name t)) m)
                 (orEmpty (table_alias t)) m)
    (tables schema) commonSynonyms.

Definition synonymMap : list (string * string) := buildSynonymMap.

(** *** matches *)

Definition isUpper (a : ascii) : bool :=
  let n := nat_of_ascii a in (65 <=? n)%nat && (n <=? 90)%nat.

(** [s.replace(/([A-Z])/g, ' $1')]. *)
Fixpoint spaceBeforeUpper (s : string) : string :=
  match s with
  | EmptyString => EmptyString
  | String a r =>
      if isUpper a then String " "%char (String a (spaceBeforeUpper r))
      else String a (spaceBeforeUpper r)
  end.

Definition matches (normalized_ target : string) : bool :=
  let targetNorm := Js.toLowerCase target in
  if String.eqb normalized_ targetNorm then true
  else if match JsMap.get string_dec normalized_ synonymMap with
          | Some synonym => String.eqb synonym targetNorm
          | None => false
          end then true
  else
    let spaced := Js.replaceAll "_"%char " " targetNorm in
    if String.eqb normalized_ spaced then true
    else
      let camelSpaced := Js.trim (Js.toLowerCase (spaceBeforeUpper targetNorm)) in
      String.eqb normalized_ camelSpaced.

(** [for (...) { if (...) return ...; }]: the first hit of a loop body. *)
Fixpoint firstSome {A B} (f : A -> option B) (l : list A) : option B :=
  match l with
  | [] => None
  | x :: r => match f x with Some y => Some y | None => firstSome f r end
  end.

(** *** directMatch *)

Definition directMatch (token : Token) : option Entity :=
  match
    firstSome
      (fun table_ =>
         if matches (normalized token) (name table_) then
           Some (mkEntity (tok_text token) EntityType.TABLE None 1.0 (tok_position token)
                          (tok_length token) (Some (name table_))
                          (Some (mkMetadata (Some (TableObject table_)) None None None
                                            None None None)))
         else
           firstSome
             (fun column_ =>
                if matches (normalized token) (col_name column_) then
                  Some (mkEntity (tok_text token) EntityType.COLUMN
                                 (Some (col_type column_)) 0.9 (tok_position token)
                                 (tok_length token) (Some (col_name column_))
                                 (Some (mkMetadata (Some (TableName (name table_)))
                                                   (Some column_) None None None None None)))
                else None)
             (table_columns table_))
      (tables schema)
  with
  | Some e => Some e
  | None =>
      firstSome
        (fun func_ =>
           if matches (normalized token) (fn_name func_) then
             Some (mkEntity (tok_text token) EntityType.FUNCTION (Some (fn_type func_)) 1.0
                            (tok_position token) (tok_length token) (Some (fn_name func_))
                            (Some (mkMetadata None None (Some func_) None None None None)))
           else None)
        (functions schema)
  end.

(** *** recognizeByType *)

Definition lookupOr (mapping : list (string * string)) (text : string) : string :=
  match JsMap.get string_dec (Js.toLowerCase text) mapping with
  | Some v => if Js.truthy v then v else Js.toUpperCase text
  | None => Js.toUpperCase text
  end.

Definition normalizeAggregation : string -> string :=
  lookupOr [("sum", "SUM"); ("total", "SUM"); ("add up", "SUM"); ("count", "COUNT");
            ("number of", "COUNT"); ("how many", "COUNT"); ("average", "AVG");
            ("avg", "AVG"); ("mean", "AVG"); ("maximum", "MAX"); ("max", "MAX");
            ("highest", "MAX"); ("minimum", "MIN"); ("min", "MIN"); ("lowest", "MIN")].

Definition normalizeOperator : string -> string :=
  lookupOr [("equal to", "="); ("equals", "="); ("is", "="); ("greater than", ">");
            ("more than", ">"); ("above", ">"); ("less than", "<"); ("fewer than", "<");
            ("below", "<"); ("not equal", "!="); ("different from", "!=");
            ("between", "BETWEEN"); ("in range", "BETWEEN"); ("like", "LIKE");
            ("contains", "LIKE"); ("includes", "LIKE"); ("and", "AND"); ("or", "OR");
            ("not", "NOT")].

Definition typed (token : Token) (ty : EntityType.t) (c : Q) (resolved : string)
  (md : option Metadata) : option Entity :=
  Some (mkEntity (tok_text token) ty None c (tok_position token) (tok_length token)
                 (Some resolved) md).

Definition recognizeByType (token : Token) : option Entity :=
  match tok_type token with
  | TokenType.STRING_LITERAL => typed token EntityType.TEXT 0.9 (normalized token) None
  | TokenType.NUMBER_LITERAL => typed token EntityType.NUMERIC 0.9 (normalized token) None
  | TokenType.DATE_LITERAL | TokenType.TEMPORAL =>
      typed token EntityType.TEMPORAL 0.9 (normalized token)
            (Some (mkMetadata None None None None
                              (Some (parseTemporal (normalized token))) None None))
  | TokenType.BOOLEAN_LITERAL =>
      typed token EntityType.BOOLEAN 1.0
            (if String.eqb (normalized token) "true" || String.eqb (normalized token) "yes"
             then "true" else "false") None
  | TokenType.NULL_LITERAL => typed token EntityType.NULL 1.0 "NULL" None
  | TokenType.AGGREGATION =>
      typed token EntityType.AGGREGATION 0.9 (normalizeAggregation (normalized token)) None
  | TokenType.COMPARISON_OP | TokenType.LOGICAL_OP =>
      typed token EntityType.OPERATOR 0.9 (normalizeOperator (normalized token)) None
  | _ => None
  end.

(** *** class FuzzyMatcher *)

(** One row of the table [dp]: [prev] is [dp[i-1][j-1..]], [leftv] is
    [dp[i][j-1]], [c] is [str1[i-1]]. *)
Fixpoint levRow (c : ascii) (str2 : string) (prev : list nat) (leftv : nat) : list nat :=
  match str2, prev with
  | String d r, diag :: ((up :: _) as prev') =>
      let v := if Ascii.eqb c d then diag
               else (1 + Nat.min up (Nat.min leftv diag))%nat in
      v :: levRow c r prev' v
  | _, _ => []
  end.

Fixpoint levRows (str1 str2 : string) (i : nat) (prev : list nat) : list nat :=
  match str1 with
  | EmptyString => prev
  | String c r => levRows r str2 (S i) (S i :: levRow c str2 prev (S i))
  end.

Definition levenshteinDistance (str1 str2 : string) : nat :=
  last (levRows str1 str2 0 (seq 0 (S (String.length str2)))) O.

Definition calculateSimilarity (str1 str2 : string) : Q :=
  let distance := levenshteinDistance str1 str2 in
  let maxLength := Nat.max (String.length str1) (String.length str2) in
  if (maxLength =? 0)%nat then 1.0
  else
    let similarity := 1 - (ofNat distance / ofNat maxLength) in
    if Js.startsWith str2 str1 || Js.startsWith str1 str2
    then mathMin (similarity * 1.2) 1.0
    else similarity.

Record Match : Type := mkMatch {
  match_type : EntityType.t;
  resolved : string;
  score : Q;
  match_metadata : Metadata
}.

(** One candidate of a loop of [match]: [if (score > bestScore) ...]. *)
Definition better (best : option Match * Q) (cand : Match) : option Match * Q :=
  if Qltb (snd best) (score cand) then (Some cand, score cand) else best.

Definition fuzzyMatch (text : string) : option Match :=
  let best := (None, 0) in
  let best :=
    fold_left
      (fun best table_ =>
         better best
           (mkMatch EntityType.TABLE (name table_)
                    (calculateSimilarity text (Js.toLowerCase (name table_)))
                    (mkMetadata (Some (TableObject table_)) None None None None None None)))
      (tables schema) best in
  let best :=
    fold_left
      (fun best table_ =>
         fold_left
           (fun best column_ =>
              better best
                (mkMatch EntityType.COLUMN (col_name column_)
                         (calculateSimilarity text (Js.toLowerCase (col_name column_)))
                         (mkMetadata (Some (TableName (name table_))) (Some column_) None
                                     None None None None)))
           (table_columns table_) best)
      (tables schema) best in
  let best :=
    fold_left
      (fun best func_ =>
         better best
           (mkMatch EntityType.FUNCTION (fn_name func_)
                    (calculateSimilarity text (Js.toLowerCase (fn_name func_)))
                    (mkMetadata None None (Some func_) None None None None)))
      (functions schema) best in
  fst best.

Definition createEntity (token : Token) (m : Match) : Entity :=
  mkEntity (tok_text token) (match_type m) None (score m) (tok_position token)
           (tok_length token) (Some (resolved m)) (Some (match_metadata m)).

(** *** class ContextualResolver *)

Definition findBestTableMatch (text : string) (context : Context) : option TableInfo :=
  match
    firstSome
      (fun contextTable =>
         find (fun t => String.eqb (Js.toLowerCase (name t)) (Js.toLowerCase contextTable))
              (tables schema))
      (ctx_tables context)
  with
  | Some t => Some t
  | None =>
      find (fun table_ =>
              Js.includes (Js.toLowerCase (name table_)) text
              || Js.includes text (Js.toLowerCase (name table_)))
           (tables schema)
  end.

Definition findBestColumnMatch (text : string) (_ : Context) : option ColumnInfo :=
  firstSome
    (fun table_ =>
       find (fun column_ =>
               String.eqb (Js.toLowerCase (col_name column_)) text
               || Js.includes (Js.toLowerCase (col_name column_)) text
               || Js.includes text (Js.toLowerCase (col_name column_)))
            (table_columns table_))
    (tables schema).

Definition typeIs (o : option Token) (ty : TokenType.t) : bool :=
  match o with Some t => TokenType.eqb (tok_type t) ty | None => false end.

Definition resolve (token : Token) (allTokens : list Token) (index : nat)
  (context : Context) : option Entity :=
  let prev := if (0 <? index)%nat then nth_error allTokens (index - 1) else None in
  let next := if (index <? length allTokens - 1)%nat
              then nth_error allTokens (index + 1) else None in
  let positioned (ty : EntityType.t) (c : Q) (resolved_ : string) (md : Metadata) :=
    mkEntity (tok_text token) ty None c (tok_position token) (tok_length token)
             (Some resolved_) (Some md) in
  let fromClause :=
    if typeIs prev TokenType.FROM_KEYWORD && TokenType.eqb (tok_type token) TokenType.NOUN
    then match findBestTableMatch (normalized token) context with
         | Some table_ =>
             Some (positioned EntityType.TABLE 0.8 (name table_)
                     (mkMetadata (Some (TableObject table_)) None None (Some "from_clause")
                                 None None None))
         | None => None
         end
    else None in
  let selectClause :=
    if typeIs prev TokenType.SELECT_KEYWORD && TokenType.eqb (tok_type token) TokenType.NOUN
    then match findBestColumnMatch (normalized token) context with
         | Some column_ =>
             Some (positioned EntityType.COLUMN 0.7 (col_name column_)
                     (mkMetadata None (Some column_) None (Some "select_clause")
                                 None None None))
         | None => None
         end
    else None in
  let comparisonLeft :=
    if typeIs next TokenType.COMPARISON_OP
    then match findBestColumnMatch (normalized token) context with
         | Some column_ =>
             Some (positioned EntityType.COLUMN 0.75 (col_name column_)
                     (mkMetadata None (Some column_) None (Some "comparison_left")
                                 None None None))
         | None => None
         end
    else None in
  match fromClause with
  | Some e => Some e
  | None => match selectClause with
            | Some e => Some e
            | None => comparisonLeft
            end
  end.

(** *** class EntityRecognizer: recognizeEntity, buildContext,
        resolveAmbiguities, recognize *)

Definition recognizeEntity (token : Token) (allTokens : list Token) (index : nat)
  (context : Context) : option Entity :=
  match directMatch token with
  | Some e => Some e
  | None =>
      let viaContext :=
        match resolve token allTokens index context with
        | Some e => Some e
        | None => recognizeByType token
        end in
      match fuzzyMatch (normalized token) with
      | Some m => if Qltb 0.7 (score m) then Some (createEntity token m) else viaContext
      | None => viaContext
      end
  end.

Definition normalizedOf (tys : list TokenType.t) (tokens : list Token) : list string :=
  fold_left
    (fun acc t =>
       if existsb (TokenType.eqb (tok_type t)) tys
       then JsMap.add string_dec (normalized t) acc else acc)
    tokens [].

Definition buildContext (tokens : list Token) : Context :=
  mkContext
    (normalizedOf [TokenType.TABLE_NAME] tokens)
    (normalizedOf [TokenType.COLUMN_NAME] tokens)
    (normalizedOf [TokenType.FUNCTION_NAME; TokenType.AGGREGATION] tokens)
    (existsb (fun t => TokenType.eqb (tok_type t) TokenType.AGGREGATION) tokens)
    (existsb (fun t => TokenType.eqb (tok_type t) TokenType.GROUP_KEYWORD) tokens)
    (existsb (fun t => TokenType.eqb (tok_type t) TokenType.JOIN_KEYWORD) tokens)
    (existsb (fun t => TokenType.eqb (tok_type t) TokenType.WHERE_KEYWORD) tokens).

Definition findTablesWithColumn (columnName : string) : list TableInfo :=
  let normalized_ := Js.toLowerCase columnName in
  filter (fun table_ =>
            existsb (fun column_ => matches normalized_ (col_name column_))
                    (table_columns table_))
         (tables schema).

(** [!entity.metadata?.table]. *)
Definition hasOwner (e : Entity) : bool :=
  match metadata e with
  | Some md =>
      match md_table md with
      | Some (TableObject _) => true
      | Some (TableName n) => Js.truthy n
      | None => false
      end
  | None => false
  end.

(** [{ ...entity.metadata }]. *)
Definition spread (e : Entity) : Metadata :=
  match metadata e with Some md => md | None => noMetadata end.

Definition withTable (md : Metadata) (t : string) : Metadata :=
  mkMetadata (Some (TableName t)) (md_column md) (md_function md) (md_pattern md)
             (md_parsed md) (md_ambiguous md) (md_possibleTables md).

Definition withAmbiguity (md : Metadata) (possible : list string) : Metadata :=
  mkMetadata (md_table md) (md_column md) (md_function md) (md_pattern md)
             (md_parsed md) (Some true) (Some possible).

Definition update (e : Entity) (c : Q) (md : Metadata) : Entity :=
  mkEntity (ent_text e) (ent_type e) (subtype e) c (ent_position e) (ent_length e)
           (resolvedName e) (Some md).

(** [entity.resolvedName || entity.text]. *)
Definition lookupName (e : Entity) : string :=
  match resolvedName e with
  | Some n => if Js.truthy n then n else ent_text e
  | None => ent_text e
  end.

(** [context.tables.find(t => possibleTables.some(pt => ...))]. *)
Definition contextTableOf (possibleTables : list TableInfo) (context : Context)
  : option string :=
  find (fun t =>
          existsb (fun pt => String.eqb (Js.toLowerCase (name pt)) (Js.toLowerCase t))
                  possibleTables)
       (ctx_tables context).

(** The body of the loop of [resolveAmbiguities], on one entity. *)
Definition resolveEntity (context : Context) (entity : Entity) : Entity :=
  if EntityType.eqb (ent_type entity) EntityType.COLUMN && negb (hasOwner entity) then
    let possibleTables := findTablesWithColumn (lookupName entity) in
    match possibleTables with
    | [] => entity
    | [only] =>
        update entity (mathMin (confidence entity * 1.1) 1.0)
               (withTable (spread entity) (name only))
    | _ =>
        match contextTableOf possibleTables context with
        | Some contextTable =>
            if Js.truthy contextTable then
              update entity (mathMin (confidence entity * 1.05) 1.0)
                     (withTable (spread entity) contextTable)
            else
              update entity (confidence entity * 0.7)
                     (withAmbiguity (spread entity) (map name possibleTables))
        | None =>
            update entity (confidence entity * 0.7)
                   (withAmbiguity (spread entity) (map name possibleTables))
        end
    end
  else entity.

(** The entities handed over are distinct objects (each is built by its own
    call of [recognizeEntity]), so updating them in place is a [map]. *)
Definition resolveAmbiguities (entities : list Entity) (context : Context) : list Entity :=
  map (resolveEntity context) entities.

Fixpoint recognizeFrom (tokens rest : list Token) (i : nat) (context : Context)
  : list Entity :=
  match rest with
  | [] => []
  | token :: r =>
      match recognizeEntity token tokens i context with
      | Some entity =>
          if Qltb 0.3 (confidence entity)
          then entity :: recognizeFrom tokens r (S i) context
          else recognizeFrom tokens r (S i) context
      | None => recognizeFrom tokens r (S i) context
      end
  end.

Definition recognize (tokens : list Token) : list Entity :=
  let context := buildContext tokens in
  let entities := recognizeFrom tokens tokens 0 context in
  resolveAmbiguities entities context.

End WithClock.
End Recognizer.

(** ** The heuristic IR builder (src/parser/intent.ts). *)

Module Intent.

Record ColumnDecl : Type := mkColumnDecl {
  cname : string;
  ctype : option string;
  pk : option bool
}.

Record TableInfo : Type := mkTableInfo {
  tname : string;
  tcolumns : list ColumnDecl
}.

Record SchemaInfo : Type := mkSchemaInfo {
  tables : list TableInfo
}.

Record ParseOptions : Type := mkParseOptions {
  defaultTable : option string
}.

(** *** The regular expressions of the builder, as matchers *)

Definition dropPrefix (p s : string) : option string :=
  if String.prefix p s
  then Some (String.substring (String.length p) (String.length s - String.length p) s)
  else None.

(** [\s+] at the start of [s]: what follows the white space. *)
Definition spaces1 (s : string) : option string :=
  match s with
  | String a r => if Js.isSpace a then Some (Js.trimStart r) else None
  | EmptyString => None
  end.

(** [w1\s+w2] at the start of [s]. *)
Definition phraseAt (w1 w2 s : string) : bool :=
  match dropPrefix w1 s with
  | Some r => match spaces1 r with
              | Some r' => String.prefix w2 r'
              | None => false
              end
  | None => false
  end.

(** A pattern tried at every offset, as [RegExp.prototype.test] does. *)
Fixpoint anywhere (p : string -> bool) (s : string) : bool :=
  if p s then true
  else match s with
       | String _ r => anywhere p r
       | EmptyString => false
       end.

(** The leftmost match of a pattern with a capture, as [String.prototype.match]. *)
Fixpoint leftmost {A} (p : string -> option A) (s : string) : option A :=
  match p s with
  | Some x => Some x
  | None => match s with
            | String _ r => leftmost p r
            | EmptyString => None
            end
  end.

(** [/w1\s+w2/.test(text)]. *)
Definition phrase (w1 w2 text : string) : bool := anywhere (phraseAt w1 w2) text.

Definition includesAny (words : list string) (text : string) : bool :=
  existsb (Js.includes text) words.

Definition isLineTerminator (a : ascii) : bool :=
  let n := nat_of_ascii a in (n =? 10)%nat || (n =? 13)%nat.

(** What [.*] can cover: the text up to the next line terminator. *)
Fixpoint restOfLine (s : string) : string :=
  match s with
  | EmptyString => EmptyString
  | String a r => if isLineTerminator a then EmptyString else String a (restOfLine r)
  end.

(** [/(avg|average|mean).*total/.test(text)]. *)
Definition averageTotal (text : string) : bool :=
  anywhere
    (fun s =>
       existsb (fun w => match dropPrefix w s with
                         | Some r => Js.includes (restOfLine r) "total"
                         | None => false
                         end)
               ["avg"; "average"; "mean"])
    text.

(** The longest run of digits at the start of [s], and what follows it. *)
Fixpoint spanDigits (s : string) : string * string :=
  match s with
  | String a r =>
      if Js.isDigit a then let '(ds, rest) := spanDigits r in (String a ds, rest)
      else (EmptyString, s)
  | EmptyString => (EmptyString, EmptyString)
  end.

(** [/last\s+(\d+)\s+days?/] at the start of [s]: the capture group. *)
Definition lastDaysAt (s : string) : option string :=
  match dropPrefix "last" s with
  | None => None
  | Some r =>
      match spaces1 r with
      | None => None
      | Some r1 =>
          let '(ds, r2) := spanDigits r1 in
          if Js.truthy ds then
            match spaces1 r2 with
            | Some r3 => if String.prefix "day" r3 then Some ds else None
            | None => None
            end
          else None
      end
  end.

(** [text.match(/last\s+(\d+)\s+days?/)]: [daysMatch[1]], if there is a match. *)
Definition daysMatch (text : string) : option string := leftmost lastDaysAt text.

(** The integer a string of decimal digits denotes. *)
Definition decimalValue (ds : string) : Z :=
  fold_left (fun n a => (10 * n + (Z.of_nat (nat_of_ascii a) - 48))%Z)
            (list_ascii_of_string ds) 0%Z.

(** [Number(digits)] for a string of decimal digits: the double nearest to
    the integer they denote. *)
Definition digitsToNumber (ds : string) : Z := Js.roundToDouble (decimalValue ds).

(** *** Helpers of the builder *)

Definition endsWith (s suffix : string) : bool :=
  String.prefix (Js.reverse suffix) (Js.reverse s).

(** [word.slice(0, -n)]. *)
Definition dropLast (n : nat) (s : string) : string :=
  String.substring 0 (String.length s - n) s.

Definition singularize (word : string) : string :=
  if endsWith word "ies" then dropLast 3 word ++ "y"
  else if endsWith word "s" then dropLast 1 word
  else word.

Definition findTableByName (schema : SchemaInfo) (name : string) : option string :=
  let lname := Js.toLowerCase name in
  match find (fun t => String.eqb (Js.toLowerCase (tname t)) lname) (tables schema) with
  | Some byExact => Some (tname byExact)
  | None =>
      let alt := singularize lname in
      match find (fun t => String.eqb (Js.toLowerCase (tname t)) alt
                           || String.eqb (Js.toLowerCase (tname t)) (alt ++ "s"))
                 (tables schema) with
      | Some bySing => Some (tname bySing)
      | None => None
      end
  end.

Definition columnExists (schema : SchemaInfo) (table_ column_ : string) : bool :=
  match find (fun x => String.eqb (tname x) table_) (tables schema) with
  | None => false
  | Some t =>
      existsb (fun c => String.eqb (Js.toLowerCase (cname c)) (Js.toLowerCase column_))
              (tcolumns t)
  end.

Fixpoint firstHit {A B} (f : A -> option B) (l : list A) : option B :=
  match l with
  | [] => None
  | x :: r => match f x with Some y => Some y | None => firstHit f r end
  end.

Definition likelyDateColumn (schema : SchemaInfo) (table_ : string) : option string :=
  let candidates := ["created_at"; "order_date"; "date"; "timestamp"; "createdat"] in
  match find (fun x => String.eqb (tname x) table_) (tables schema) with
  | None => None
  | Some t =>
      firstHit
        (fun c =>
           match find (fun x => String.eqb (Js.toLowerCase (cname x)) c) (tcolumns t) with
           | Some hit => Some (cname hit)
           | None => None
           end)
        candidates
  end.

Definition hasOrderItems (schema : SchemaInfo) : bool :=
  match find (fun t => Js.includes (Js.toLowerCase (tname t)) "order_items")
             (tables schema) with
  | Some _ => true
  | None => false
  end.

(** [a || b] on optional strings. *)
Definition orElse (a b : option string) : option string :=
  if Js.truthyOpt a then a else b.

(** [s.replace(' ', '_')]: the first blank only. *)
Fixpoint replaceFirstSpace (s : string) : string :=
  match s with
  | EmptyString => EmptyString
  | String a r => if Ascii.eqb a " "%char then String "_"%char r
                  else String a (replaceFirstSpace r)
  end.

(** *** parseIntentToIR *)

Definition entityHints : list string :=
  ["orders"; "order items"; "order_items"; "customers"; "users"; "products"; "invoices";
   "restaurants"; "merchants"].

(** The two loops that look for a base table in the text. *)
Definition inferBase (text : string) (schema : SchemaInfo) : option string :=
  let hinted :=
    fold_left
      (fun base hint =>
         let name := replaceFirstSpace hint in
         if Js.includes text hint || Js.includes text name then
           match findTableByName schema name with
           | Some t => Some t
           | None => base
           end
         else base)
      entityHints None in
  match find (fun t => Js.includes text (Js.toLowerCase (tname t))) (tables schema) with
  | Some t => Some (tname t)
  | None => hinted
  end.

(** [base] after [if (!base) base = opts.defaultTable || schema.tables[0]?.name]. *)
Definition chooseBase (text : string) (schema : SchemaInfo) (opts : ParseOptions)
  : option string :=
  let base := inferBase text schema in
  if Js.truthyOpt base then base
  else orElse (defaultTable opts) (option_map tname (hd_error (tables schema))).

Definition noTablesMessage (prompt : string) (schema : SchemaInfo) : string :=
  let availableTables := Js.join ", " (map tname (tables schema)) in
  "No tables available to infer from. Available tables: "
  ++ (if Js.truthy availableTables then availableTables else "none")
  ++ ". Query: " ++ Js.dquote ++ prompt ++ Js.dquote.

Definition sumOf (base column_ alias_ : string) : option AggregateSpec :=
  Some (mkAggregateSpec Fsum (AggColumn (ref base column_)) (Some alias_)).

Definition avgOf (base column_ alias_ : string) : option AggregateSpec :=
  Some (mkAggregateSpec Favg (AggColumn (ref base column_)) (Some alias_)).

Definition aggregation (text : string) (schema : SchemaInfo) (base : string)
  : option AggregateSpec :=
  if includesAny ["total"; "sum"; "revenue"; "sales"] text then
    match findTableByName schema "order_items" with
    | Some oi =>
        if hasOrderItems schema && Js.truthy oi then
          Some (mkAggregateSpec Fsum
                  (AggRaw (oi ++ ".quantity * " ++ oi ++ ".unit_price"))
                  (Some "total_revenue"))
        else if columnExists schema base "total" then sumOf base "total" "total_amount"
        else if columnExists schema base "amount" then sumOf base "amount" "total_amount"
        else if columnExists schema base "price" then sumOf base "price" "total_price"
        else None
    | None =>
        if columnExists schema base "total" then sumOf base "total" "total_amount"
        else if columnExists schema base "amount" then sumOf base "amount" "total_amount"
        else if columnExists schema base "price" then sumOf base "price" "total_price"
        else None
    end
  else if Js.includes text "count" then
    Some (mkAggregateSpec Fcount (AggColumn (ref base "*")) (Some "count"))
  else if averageTotal text then
    if columnExists schema base "total" then avgOf base "total" "avg_total"
    else if columnExists schema base "amount" then avgOf base "amount" "avg_amount"
    else None
  else if includesAny ["avg"; "average"; "mean"] text then
    if columnExists schema base "amount" then avgOf base "amount" "avg_amount" else None
  else None.

(** Group by [name], else by [id], of a dimension table. *)
Definition nameOrId (schema : SchemaInfo) (t : option string) : list ColumnRef :=
  match t with
  | Some d =>
      if Js.truthy d then
        if columnExists schema d "name" then [ref d "name"]
        else if columnExists schema d "id" then [ref d "id"]
        else []
      else []
  | None => []
  end.

Definition grouping (text : string) (schema : SchemaInfo) (base : string)
  : list ColumnRef :=
  if phrase "per" "customer" text || phrase "by" "customer" text then
    nameOrId schema (orElse (findTableByName schema "customers")
                            (findTableByName schema "users"))
  else if phrase "per" "product" text || phrase "by" "product" text then
    nameOrId schema (findTableByName schema "products")
  else if phrase "per" "restaurant" text || phrase "by" "restaurant" text
          || phrase "each" "restaurant" text then
    ((if columnExists schema base "merchant_id" then [ref base "merchant_id"] else [])
     ++ match findTableByName schema "merchants" with
        | Some m => if Js.truthy m && columnExists schema m "name"
                    then [ref m "name"] else []
        | None => []
        end)%list
  else if phrase "per" "restaurateur" text || phrase "each" "restaurateur" text then
    match findTableByName schema "merchants" with
    | Some m => if Js.truthy m && columnExists schema m "parent_merchant_id"
                then [ref m "parent_merchant_id"] else []
    | None => []
    end
  else if phrase "per" "day" text || phrase "by" "day" text
          || phrase "per" "date" text || phrase "by" "date" text then
    match likelyDateColumn schema base with
    | Some dc => if Js.truthy dc then [ref base dc] else []
    | None => []
    end
  else [].

Definition innerJoin (l r : ColumnRef) : JoinSpec := mkJoinSpec inner l r None.

(** [g.table === t] with [t] possibly [undefined]. *)
Definition tableIs (t : option string) (g : ColumnRef) : bool :=
  match t with Some n => String.eqb (table g) n | None => false end.

Definition bothTruthy (a b : option string) : option (string * string) :=
  match a, b with
  | Some x, Some y => if Js.truthy x && Js.truthy y then Some (x, y) else None
  | _, _ => None
  end.

(** The join section: the joins pushed and the base table it leaves. *)
Definition joining (text : string) (schema : SchemaInfo) (agg : option AggregateSpec)
  (grp : list ColumnRef) (base : string) : list JoinSpec * string :=
  let orders := findTableByName schema "orders" in
  let orderItems := findTableByName schema "order_items" in
  let customers := orElse (findTableByName schema "customers")
                          (findTableByName schema "users") in
  let merchants := findTableByName schema "merchants" in
  let restaurants := findTableByName schema "restaurants" in
  let st := ([], base) in
  let st :=
    match agg with
    | Some (mkAggregateSpec _ (AggRaw raw) _) =>
        if Js.includes raw "order_items" then
          match bothTruthy orders orderItems with
          | Some (o, oi) => (push (fst st) (innerJoin (ref o "id") (ref oi "order_id")), o)
          | None => st
          end
        else st
    | _ => st
    end in
  let st :=
    if existsb (tableIs customers) grp then
      match bothTruthy customers orders with
      | Some (c, o) => (push (fst st) (innerJoin (ref c "id") (ref o "customer_id")), o)
      | None => st
      end
    else st in
  if existsb (tableIs merchants) grp || Js.includes text "restaurant"
     || Js.includes text "merchant" then
    let st :=
      match bothTruthy orders merchants with
      | Some (o, m) =>
          (push (fst st) (innerJoin (ref o "merchant_id") (ref m "merchant_id")), o)
      | None => st
      end in
    match bothTruthy restaurants merchants with
    | Some (r, m) =>
        (push (fst st) (innerJoin (ref r "merchant_id") (ref m "merchant_id")), snd st)
    | None => st
    end
  else st.

(** [likelyDateColumn(schema, base) ||
     likelyDateColumn(schema, findTableByName(schema, 'orders') || base)]. *)
Definition dateColumnFor (schema : SchemaInfo) (base : string) : option string :=
  orElse (likelyDateColumn schema base)
         (likelyDateColumn schema
            (match orElse (findTableByName schema "orders") (Some base) with
             | Some t => t
             | None => base
             end)).

Definition filters (text : string) (schema : SchemaInfo) (base : string)
  : list Condition :=
  let dc := dateColumnFor schema base in
  let w := [] in
  let w :=
    match daysMatch text, dc with
    | Some ds, Some d =>
        if Js.truthy d then
          push w (mkCondition (LhsColumn (ref base d)) OpGe
                    (RhsExpr (Some ("DATE('now', '-" ++ ds ++ " days')"))
                             (Some (digitsToNumber ds))))
        else w
    | _, _ => w
    end in
  let w :=
    if phrase "in" "june" text || Js.includes text "june" then
      match dc with
      | Some d =>
          if Js.truthy d then
            let tableRef := if Js.includes d "." then d else base ++ "." ++ d in
            push w (mkCondition (LhsExpr ("EXTRACT(MONTH FROM " ++ tableRef ++ ")")) OpEq
                      (RhsExpr (Some "6") None))
          else w
      | None => w
      end
    else w in
  if phrase "completed" "orders" text || Js.includes text "completed" then
    if columnExists schema base "status" then
      push w (mkCondition (LhsColumn (ref base "status")) OpEq
                (RhsExpr (Some "'completed'") None))
    else w
  else w.

(** [xs.length ? xs : undefined]. *)
Definition nonEmpty {A} (l : list A) : option (list A) :=
  match l with [] => None | _ => Some l end.

Definition parseIntentToIR (prompt : string) (schema : SchemaInfo) (opts : ParseOptions)
  : Outcome SelectQueryIR :=
  let text := Js.toLowerCase prompt in
  match chooseBase text schema opts with
  | None => Throws (JsError (noTablesMessage prompt schema))
  | Some base =>
      if negb (Js.truthy base) then Throws (JsError (noTablesMessage prompt schema))
      else
        let agg := aggregation text schema base in
        let grp := grouping text schema base in
        let '(joins_, base) := joining text schema agg grp base in
        let cols := (map PCol grp ++ match agg with Some a => [PAgg a] | None => [] end)%list in
        let cols := match cols with
                    | [] => [PCol (ref base "*")]
                    | _ => cols
                    end in
        let w := filters text schema base in
        Returns (mkIR base cols (nonEmpty joins_) (nonEmpty w) (nonEmpty grp)
                      None None None)
  end.

End Intent.

(** ** The explainer (src/explain/explainer.ts). *)

Module Explainer.

Definition joinTypeText (t : JoinType) : string :=
  match t with inner => "inner" | left_join => "left" end.

Definition joinLine (j : JoinSpec) : string :=
  "- " ++ joinTypeText (join_type j) ++ " join: "
  ++ table (join_left j) ++ "." ++ column (join_left j) ++ " = "
  ++ table (join_right j) ++ "." ++ column (join_right j).

(** [ir.columns.filter((c) => 'func' in c)]. *)
Definition aggregates (cols : list Projection) : list AggregateSpec :=
  flat_map (fun c => match c with PAgg a => [a] | PCol _ => [] end) cols.

Definition aggregateLine (a : AggregateSpec) : string :=
  "- Aggregate: " ++ Generator.funcUpper (func a) ++ "("
  ++ match agg_expr a with
     | AggRaw raw => raw
     | AggColumn r => table r ++ "." ++ column r
     end
  ++ ") AS "
  ++ (if Js.truthyOpt (agg_alias a)
      then match agg_alias a with Some al => al | None => EmptyString end
      else "(no alias)")
  ++ " (chosen based on intent keywords like total/sum/avg)".

(** [`${w.lhs.table}.${w.lhs.column}`]: a left side that is not a column has
    neither field. *)
Definition lhsText (l : Lhs) : string :=
  match l with
  | LhsColumn c => table c ++ "." ++ column c
  | _ => "undefined.undefined"
  end.

(** [w.rhs?.expr ?? w.rhs?.value ?? (w.rhs?.null ? 'NULL' : '')], as a
    template literal prints it. *)
Definition rhsText (r : Rhs) : string :=
  match r with
  | RhsExpr (Some e) _ => e
  | RhsValue (JBool b) => if b then "true" else "false"
  | RhsValue (JNum n) => Js.numberToString n
  | RhsValue (JStr s) => s
  | RhsNull => "NULL"
  | _ => EmptyString
  end.

Definition filterText (w : Condition) : string :=
  lhsText (lhs w) ++ " " ++ Generator.opText (op w) ++ " " ++ rhsText (rhs w).

(** The [lines] array, as the pushes fill it. *)
Definition lines (ir : SelectQueryIR) : list string :=
  let intro := ["Reasoning & Explanation:"; "- Base table: " ++ from ir] in
  let joined := map joinLine (orEmpty (joins ir)) in
  let aggregated := map aggregateLine (aggregates (columns ir)) in
  let grouped :=
    match groupBy ir with
    | Some (g :: gs) =>
        ["- Group by: "
         ++ Js.join ", " (map (fun g => table g ++ "." ++ column g) (g :: gs))]
    | _ => []
    end in
  let filtered :=
    match where_ ir with
    | Some (w :: ws) => ["- Filters: " ++ Js.join " AND " (map filterText (w :: ws))]
    | _ => []
    end in
  let closing :=
    ["- Projection minimized to only necessary columns to improve performance.";
     "- SQL is generated for SQLite; adapts to other dialects by swapping date/time functions and quoting rules."] in
  List.concat [intro; joined; aggregated; grouped; filtered; closing].

Definition explain (ir : SelectQueryIR) : string := Js.join Js.newline (lines ir).

End Explainer.

(** ** The pipeline (src/NL2SQL.ts). *)

Module Pipeline.
Import Intent.

Record RunResult : Type := mkRunResult {
  sql : string;
  explanation : string
}.

(** [NL2SQL.run] from the schema the introspector has read to the result,
    when [execute] is not asked for; [dialect] is [opts.dialect]. *)
Definition run (prompt : string) (schema : SchemaInfo) (dialect : option SqlDialect)
  : Outcome RunResult :=
  ir <- parseIntentToIR prompt schema
          (mkParseOptions (option_map tname (hd_error (tables schema)))) ;;
  let optimized := Optimizer.optimizeIR ir in
  sql_ <- Generator.generateSQL optimized
            (match dialect with Some d => d | None => sqlite end) ;;
  let summary := Explainer.explain optimized in
  Returns (mkRunResult sql_ summary).

End Pipeline.

(** ** The file processor (src/file-processing/simple-processor.ts): the
       functions that classify a text and infer a schema from rows. *)

Module FileProcessor.

(** *** The values of a row

    The rows considered are [null] and plain objects: a plain object is its
    own fields, in the order [Object.keys] lists them, over
    [Object.prototype].  A cell is a JSON scalar (numbers being finite), a
    nested object or array (an address: a [Set] tells objects apart by
    identity), or a member inherited from [Object.prototype]. *)

Inductive Cell : Type :=
| CNull
| CUndefined
| CBool (b : bool)
| CNum (x : Qc)
| CStr (s : string)
| CObject (address : nat)
| CInherited (member : string).

Definition Cell_eq_dec (x y : Cell) : {x = y} + {x <> y}.
Proof.
  decide equality;
    first [ apply Bool.bool_dec | apply Qc_eq_dec | apply string_dec | apply Nat.eq_dec ].
Defined.

Inductive Row : Type :=
| RowNull
| RowObject (fields : list (string * Cell)).

(** The names every plain object inherits. *)
Definition prototypeMembers : list string :=
  ["constructor"; "__defineGetter__"; "__defineSetter__"; "hasOwnProperty";
   "__lookupGetter__"; "__lookupSetter__"; "isPrototypeOf"; "propertyIsEnumerable";
   "toString"; "valueOf"; "__proto__"; "toLocaleString"].

(** [row[key]]. *)
Definition getField (row : Row) (key : string) : Outcome Cell :=
  match row with
  | RowNull => Throws JsTypeError
  | RowObject fields =>
      Returns match JsMap.get string_dec key fields with
              | Some v => v
              | None => if in_dec string_dec key prototypeMembers
                        then CInherited key else CUndefined
              end
  end.

(** [Object.keys(row)] under [typeof row === 'object' && row !== null]. *)
Definition keysOf (row : Row) : list string :=
  match row with
  | RowNull => []
  | RowObject fields => map fst fields
  end.

Record ColumnSchema : Type := mkColumnSchema {
  cs_name : string;
  cs_type : string;
  cs_nullable : bool;
  isPrimaryKey : option bool
}.

Record TableSchema : Type := mkTableSchema {
  ts_name : string;
  ts_columns : list ColumnSchema
}.

Record DatabaseSchema : Type := mkDatabaseSchema {
  db_tables : list TableSchema
}.

(** *** extractColumnsFromData *)

(** The loop that adds the keys of every row to a [Set]. *)
Definition collectKeys (rows : list Row) : list string :=
  fold_left (fun columns row =>
               fold_left (fun columns key => JsMap.add string_dec key columns)
                         (keysOf row) columns)
            rows [].

Definition extractColumnsFromData (data : list Row) : list string :=
  match data with
  | [] => []
  | _ => collectKeys (firstn 10 data)
  end.

(** *** The date patterns: regular expressions without repetition, as lists
        of positions *)

Inductive Position : Type :=
| Digit
| Literal (c : ascii)
| OneOf (cs : list ascii).

Definition accepts (p : Position) (a : ascii) : bool :=
  match p with
  | Digit => Js.isDigit a
  | Literal c => Ascii.eqb a c
  | OneOf cs => existsb (Ascii.eqb a) cs
  end.

(** The text left when the positions have matched at the start of [s]. *)
Fixpoint shape (ps : list Position) (s : string) : option string :=
  match ps with
  | [] => Some s
  | p :: r =>
      match s with
      | String a rest => if accepts p a then shape r rest else None
      | EmptyString => None
      end
  end.

Definition digits (n : nat) : list Position := repeat Digit n.

(** [/^\d{4}-\d{2}-\d{2}$/] *)
Definition isoDate : list Position :=
  digits 4 ++ [Literal "-"] ++ digits 2 ++ [Literal "-"] ++ digits 2.

(** [/^\d{2}\/\d{2}\/\d{4}$/] *)
Definition slashDate : list Position :=
  digits 2 ++ [Literal "/"] ++ digits 2 ++ [Literal "/"] ++ digits 4.

(** [/^\d{4}-\d{2}-\d{2}[T ]\d{2}:\d{2}:\d{2}/] *)
Definition isoDateTime : list Position :=
  isoDate ++ [OneOf ["T"%char; " "%char]] ++ digits 2 ++ [Literal ":"] ++ digits 2
  ++ [Literal ":"] ++ digits 2.

(** A pattern between [^] and [$]. *)
Definition whole (ps : list Position) (s : string) : bool :=
  match shape ps s with
  | Some EmptyString => true
  | _ => false
  end.

(** A pattern after [^], with anything behind it. *)
Definition atStart (ps : list Position) (s : string) : bool :=
  match shape ps s with
  | Some _ => true
  | None => false
  end.

Definition looksLikeDate (value : string) : bool :=
  whole isoDate value || whole slashDate value.

Definition looksLikeDateTime (value : string) : bool := atStart isoDateTime value.

(** *** inferColumnSchema *)

(** [Number.isInteger(val)], [typeof val === 'number'],
    [typeof val === 'boolean']. *)
Definition isInteger (v : Cell) : bool :=
  match v with
  | CNum x => Pos.eqb (Qden (this x)) 1
  | _ => false
  end.

Definition isNumber (v : Cell) : bool :=
  match v with CNum _ => true | _ => false end.

Definition isBoolean (v : Cell) : bool :=
  match v with CBool _ => true | _ => false end.

(** [val !== null && val !== undefined] *)
Definition present (v : Cell) : bool :=
  match v with CNull | CUndefined => false | _ => true end.

(** [new Set(values).size] *)
Definition distinctCount (values : list Cell) : nat :=
  length (fold_left (fun s v => JsMap.add Cell_eq_dec v s) values []).

(** The type read off the first value. *)
Definition typeOfFirst (firstValue : Cell) : string :=
  match firstValue with
  | CNum _ => if isInteger firstValue then "INTEGER" else "REAL"
  | CBool _ => "BOOLEAN"
  | CStr s =>
      if looksLikeDate s then "DATE"
      else if looksLikeDateTime s then "DATETIME"
      else "TEXT"
  | _ => "TEXT"
  end.

(** The callback of [values.every(...)]. *)
Definition sameType (type : string) (val : Cell) : bool :=
  if String.eqb type "INTEGER" then isInteger val
  else if String.eqb type "REAL" then isNumber val
  else if String.eqb type "BOOLEAN" then isBoolean val
  else true.

Definition inferColumnSchema (columnName : string) (data : list Row)
  : Outcome ColumnSchema :=
  cells <- mapO (fun row => getField row columnName) data ;;
  let values := filter present cells in
  let nonNullCount := length values in
  let totalCount := length data in
  let isPrimaryKey_ :=
    Nat.eqb (distinctCount values) nonNullCount && Nat.eqb nonNullCount totalCount in
  let type :=
    match values with
    | firstValue :: _ =>
        let type := typeOfFirst firstValue in
        if forallb (sameType type) values then type else "TEXT"
    | [] => "TEXT"
    end in
  Returns (mkColumnSchema columnName type (nonNullCount <? totalCount)%nat
                          (Some isPrimaryKey_)).

(** *** inferSchemaFromData

    [tables] is the entries of the object, in the order [Object.entries]
    lists them. *)

(** One turn of the loop: the tables it pushes. *)
Definition inferTable (entry : string * list Row) : Outcome (list TableSchema) :=
  let '(tableName, data) := entry in
  match data with
  | [] => Returns []
  | _ =>
      let sampleData := firstn 100 data in
      columns <- mapO (fun columnName => inferColumnSchema columnName sampleData)
                      (collectKeys sampleData) ;;
      Returns [mkTableSchema tableName columns]
  end.

Definition inferSchemaFromData (tables : list (string * list Row))
  : Outcome DatabaseSchema :=
  found <- mapO inferTable tables ;;
  Returns (mkDatabaseSchema (List.concat found)).

(** *** analyzeTextContent, looksLikeSqlSchema *)

Inductive ContentType : Type := schema | data | mixed.

Definition looksLikeSqlSchema (content : string) : bool :=
  let sqlKeywords :=
    ["create table"; "alter table"; "drop table"; "primary key"; "foreign key"] in
  let lowercaseContent := Js.toLowerCase content in
  existsb (fun keyword => Js.includes lowercaseContent keyword) sqlKeywords.

Definition analyzeTextContent (content : string) : ContentType :=
  let lowercaseContent := Js.toLowerCase content in
  if looksLikeSqlSchema content then schema
  else if Js.includes lowercaseContent "create table"
          || Js.includes lowercaseContent "alter table"
          || Js.includes lowercaseContent "primary key"
          || Js.includes lowercaseContent "foreign key"
  then schema
  else mixed.

End FileProcessor.

(** * Properties *)

(** ** General lemmas on the outcome monad and on strings *)


Lemma bindO_throws {A B} (m : Outcome A) (k : A -> Outcome B) (e : Thrown) :
  bindO m k = Throws e -> m = Throws e \/ exists a, m = Returns a /\ k a = Throws e.
Proof. destruct m as [a|e']; simpl; intros H; [right; eauto | left; congruence]. Qed.

Lemma mapO_throws {A B} (f : A -> Outcome B) (l : list A) (e : Thrown) :
  mapO f l = Throws e -> exists x, In x l /\ f x = Throws e.
Proof.
  induction l as [|x r IH]; simpl; [discriminate|].
  destruct (f x) as [y|e'] eqn:Hx; simpl.
  - destruct (mapO f r) as [ys|e''] eqn:Hr; simpl; [discriminate|].
    intros H; injection H as ->. destruct IH as (z & Hz & Hfz); eauto.
  - intros H; injection H as ->. eauto.
Qed.

Lemma mapO_returns {A B} (f : A -> Outcome B) (l : list A) :
  Forall (fun x => exists y, f x = Returns y) l -> exists ys, mapO f l = Returns ys.
Proof.
  induction 1 as [|x r (y & Hy) _ (ys & Hys)]; simpl; [eauto|].
  rewrite Hy, Hys. simpl. eauto.
Qed.








Module GeneratorFacts.
Import Generator.

Definition setHaving (ir : SelectQueryIR) (h : option (list Condition)) : SelectQueryIR :=
  mkIR (from ir) (columns ir) (joins ir) (where_ ir) (groupBy ir) h (orderBy ir) (limit ir).

Definition setLimit (ir : SelectQueryIR) (l : option Z) : SelectQueryIR :=
  mkIR (from ir) (columns ir) (joins ir) (where_ ir) (groupBy ir) (having ir) (orderBy ir) l.

Definition lhsIsColumn (w : Condition) : Prop := exists c, lhs w = LhsColumn c.

Lemma emitCondition_column (w : Condition) (dialect : SqlDialect) :
  lhsIsColumn w -> exists s, emitCondition w dialect = Returns s.
Proof.
  intros [c Hc]. unfold emitCondition. rewrite Hc. simpl. eauto.
Qed.

Lemma emitCondition_throws (w : Condition) (dialect : SqlDialect) (e : Thrown) :
  emitCondition w dialect = Throws e -> e = JsTypeError /\ ~ lhsIsColumn w.
Proof.
  unfold emitCondition, lhsIsColumn.
  destruct (lhs w) as [c|v|x]; simpl; intros H; try discriminate;
    injection H as <-; split; auto; intros [c Hc]; discriminate.
Qed.

(** An IR with a [having] list, and the SQL text produced for it. *)
Definition havingIR : SelectQueryIR :=
  mkIR "orders"
       [PCol (ref "orders" "status");
        PAgg (mkAggregateSpec Fcount (AggColumn (ref "orders" "*")) (Some "n"))]
       None None (Some [ref "orders" "status"])
       (Some [mkCondition (LhsColumn (ref "orders" "n")) OpGt (RhsValue (JNum 10))])
       None None.

(** C1, as stated, fails: an IR whose [having] list is not empty is rendered
    without error, and the text has no trace of the clause. *)
Lemma having_dropped_without_error :
  having havingIR <> None /\ having havingIR <> Some [] /\
  generateSQL havingIR mysql =
    Returns "SELECT `orders`.`status` AS `orders.status`, COUNT(`orders`.*) AS `n`
FROM `orders`
GROUP BY `orders`.`status`" /\
  generateSQL havingIR mysql = generateSQL (setHaving havingIR None) mysql.
Proof. repeat split; try discriminate; reflexivity. Qed.

(** C1 (amended): [generateSQL] never reads [having] and raises no error on
    its account: for every IR and dialect its outcome, text or exception, is
    its outcome for the same IR with any other [having] list or with none, so
    a [having] list that is not empty is left out of the SQL text. *)
Theorem generateSQL_never_reads_having (ir : SelectQueryIR) (dialect : SqlDialect) :
  forall h, generateSQL (setHaving ir h) dialect = generateSQL ir dialect.
Proof. intros h. unfold generateSQL, parts, clauses. reflexivity. Qed.

Lemma Forall_filter {A} (P : A -> Prop) (f : A -> bool) (l : list A) :
  Forall P l -> Forall P (filter f l).
Proof.
  induction 1 as [|x r Hx _ IH]; simpl; [constructor|].
  destruct (f x); [constructor|]; assumption.
Qed.

Definition notLimit (p : string) : Prop := String.prefix "LIMIT " p = false.

Lemma emitJoin_notLimit (base : string) (j : JoinSpec) (dialect : SqlDialect) (rest : string) :
  notLimit (emitJoin base j dialect ++ rest).
Proof. unfold notLimit, emitJoin. destruct (join_type j); reflexivity. Qed.

Lemma joins_notLimit (base : string) (js : list JoinSpec) (dialect : SqlDialect) :
  notLimit (Js.join " " (map (fun j => emitJoin base j dialect) js)).
Proof.
  destruct js as [|j [|j' r]]; [reflexivity| |].
  - simpl. unfold notLimit, emitJoin. destruct (join_type j); reflexivity.
  - cbn [map Js.join String.concat]. apply emitJoin_notLimit.
Qed.

(** The IR of C10's example, with a limit of zero. *)
Definition zeroLimitIR : SelectQueryIR :=
  mkIR "orders" [PCol (ref "orders" "id")] None None None None None (Some 0%Z).

(** C10: with [limit = 0] the LIMIT clause is the empty string, no part of
    the SQL text starts a LIMIT clause, and the text is the one generated for
    the same IR without [limit]. *)
Theorem limit_zero_is_no_limit (ir : SelectQueryIR) (dialect : SqlDialect) :
  limit ir = Some 0%Z ->
  limitClause (limit ir) = EmptyString /\
  generateSQL ir dialect = generateSQL (setLimit ir None) dialect /\
  (forall ps, parts ir dialect = Returns ps -> Forall notLimit ps).
Proof.
  intros Hl. split; [now rewrite Hl|]. split.
  - unfold generateSQL, parts, clauses. rewrite Hl. reflexivity.
  - intros ps. unfold parts, clauses. rewrite Hl.
    destruct (mapO (fun w => emitCondition w dialect) (orEmpty (where_ ir))) as [ws|e];
      simpl; [|discriminate].
    intros H; injection H as <-.
    set (wh := Js.join " AND " ws).
    set (gb := Js.join ", " (map _ (orEmpty (groupBy ir)))).
    set (ob := Js.join ", " (map _ (orEmpty (orderBy ir)))).
    change (Forall notLimit
              (filter Js.truthy
                 [ "SELECT " ++ Js.join ", " (map (fun c => emitColumn c dialect) (columns ir));
                   "FROM " ++ q (from ir) dialect;
                   Js.join " " (map (fun j => emitJoin (from ir) j dialect)
                                    (orEmpty (joins ir)));
                   if Js.truthy wh then "WHERE " ++ wh else EmptyString;
                   if Js.truthy gb then "GROUP BY " ++ gb else EmptyString;
                   if Js.truthy ob then "ORDER BY " ++ ob else EmptyString;
                   EmptyString ])).
    apply Forall_filter.
    repeat constructor; try apply joins_notLimit;
      try (destruct (Js.truthy _); reflexivity).
Qed.

Lemma limit_zero_is_no_limit_witness :
  generateSQL zeroLimitIR mysql = generateSQL (setLimit zeroLimitIR None) mysql.
Proof.
  exact (proj1 (proj2 (limit_zero_is_no_limit zeroLimitIR mysql eq_refl))).
Defined.

End GeneratorFacts.

Module OptimizerFacts.
Import Optimizer.

Definition covered (g : ColumnRef) (sel : list Projection) : Prop :=
  existsb (sameColumn g) sel = true.

Lemma sameColumn_refl (g : ColumnRef) : sameColumn g (PCol g) = true.
Proof. simpl. now rewrite !String.eqb_refl. Qed.

Lemma covered_cons (g : ColumnRef) (c : Projection) (sel : list Projection) :
  covered g sel -> covered g (c :: sel).
Proof. unfold covered. simpl. intros ->. apply orb_true_r. Qed.

Lemma ensureSelected_keeps (g : ColumnRef) (gs : list ColumnRef) :
  forall sel, covered g sel -> covered g (ensureSelected gs sel).
Proof.
  induction gs as [|g' r IH]; intros sel H; simpl; [exact H|].
  apply IH. destruct (existsb (sameColumn g') sel); [exact H|].
  now apply covered_cons.
Qed.

Lemma ensureSelected_covers (g : ColumnRef) (gs : list ColumnRef) :
  forall sel, In g gs -> covered g (ensureSelected gs sel).
Proof.
  induction gs as [|g' r IH]; intros sel Hin; [contradiction|].
  simpl. destruct Hin as [->|Hin]; [|now apply IH].
  apply ensureSelected_keeps.
  destruct (existsb (sameColumn g) sel) eqn:E; [exact E|].
  unfold covered. cbn [existsb]. now rewrite sameColumn_refl.
Qed.

Lemma covered_projected (g : ColumnRef) (sel : list Projection) :
  covered g sel ->
  exists c, In (PCol c) sel /\ table c = table g /\ column c = column g.
Proof.
  unfold covered. rewrite existsb_exists. intros (p & Hin & Hp).
  destruct p as [c|a]; [|discriminate]. simpl in Hp.
  apply andb_true_iff in Hp. destruct Hp as [Ht Hc].
  apply String.eqb_eq in Ht, Hc. eauto.
Qed.

Lemma dedupe_subset (gs : list ColumnRef) :
  forall seen g, In g (dedupe seen gs) -> In g gs /\ ~ In (key g) seen.
Proof.
  induction gs as [|g' r IH]; intros seen g; simpl; [contradiction|].
  destruct (existsb (String.eqb (key g')) seen) eqn:E.
  - intros H. apply IH in H. tauto.
  - intros [<-|H].
    + split; [now left|]. intros Hin.
      assert (existsb (String.eqb (key g')) seen = true) as E'.
      { apply existsb_exists. exists (key g'). split; [exact Hin|apply String.eqb_refl]. }
      congruence.
    + apply IH in H. destruct H as [H1 H2]. split; [now right|].
      intros Hin. apply H2. now right.
Qed.

Lemma dedupe_NoDup (gs : list ColumnRef) :
  forall seen, NoDup (map key (dedupe seen gs)).
Proof.
  induction gs as [|g r IH]; intros seen; simpl; [constructor|].
  destruct (existsb (String.eqb (key g)) seen); [apply IH|].
  simpl. constructor; [|apply IH].
  rewrite in_map_iff. intros (g' & Hk & Hin).
  apply dedupe_subset in Hin. destruct Hin as [_ Hn]. apply Hn. left. now symmetry.
Qed.

(** C7: after [optimizeIR] every group-by column is among the projected
    columns as a plain column of the same table and column, the group-by list
    has no two entries with the same [table.column] key, and every field but
    [columns] and [groupBy] is the input's. *)
Theorem optimizeIR_groupBy_within_columns (ir : SelectQueryIR) :
  let out := optimizeIR ir in
  Forall (fun g => exists c, In (PCol c) (columns out)
                             /\ table c = table g /\ column c = column g)
         (orEmpty (groupBy out)) /\
  NoDup (map key (orEmpty (groupBy out))) /\
  from out = from ir /\ joins out = joins ir /\ where_ out = where_ ir /\
  having out = having ir /\ orderBy out = orderBy ir /\ limit out = limit ir.
Proof.
  cbv zeta. split; [|split; [|repeat split]].
  - apply Forall_forall. intros g Hg. apply covered_projected.
    unfold optimizeIR in *. cbn [groupBy columns] in *.
    destruct (groupBy ir) as [[|g0 gs]|]; cbn [orEmpty] in Hg; try contradiction.
    apply dedupe_subset in Hg. destruct Hg as [Hg _].
    now apply ensureSelected_covers.
  - unfold optimizeIR. simpl. destruct (groupBy ir) as [gs|]; simpl.
    + apply dedupe_NoDup.
    + constructor.
Qed.

End OptimizerFacts.

Module IntentFacts.
Import Intent.

(** *** The zero-table schema *)

Definition emptySchema : SchemaInfo := mkSchemaInfo [].

Lemma findTableByName_empty (name : string) : findTableByName emptySchema name = None.
Proof. reflexivity. Qed.

Lemma inferBase_empty (text : string) : inferBase text emptySchema = None.
Proof.
  unfold inferBase. cbn [tables emptySchema find].
  assert (forall hints, fold_left
            (fun (base : option string) hint =>
               let name := replaceFirstSpace hint in
               if Js.includes text hint || Js.includes text name
               then match findTableByName emptySchema name with
                    | Some t => Some t
                    | None => base
                    end
               else base) hints None = None) as H.
  { induction hints as [|h r IH]; [reflexivity|].
    cbn [fold_left]. cbv zeta. rewrite findTableByName_empty.
    destruct (_ || _); exact IH. }
  apply H.
Qed.

Lemma zero_tables_throws (prompt : string) :
  parseIntentToIR prompt emptySchema (mkParseOptions None) =
    Throws (JsError ("No tables available to infer from. Available tables: none. Query: "
                     ++ Js.dquote ++ prompt ++ Js.dquote)).
Proof.
  unfold parseIntentToIR, chooseBase. rewrite inferBase_empty. reflexivity.
Qed.

(** C9, as stated, fails: what the builder throws on a schema without tables
    is a plain [Error], told from other errors by its message only; it is
    not of a class [NoTableError]. *)
Lemma zero_tables_error_is_untyped :
  exists e,
    parseIntentToIR "total revenue by customer" emptySchema (mkParseOptions None) = Throws e
    /\ errorName e = "Error"
    /\ errorName e <> "NoTableError".
Proof.
  eexists. split; [apply zero_tables_throws|]. split; [reflexivity | discriminate].
Qed.

(** C9 (amended): on a schema without tables and without a [defaultTable]
    option the builder throws, whatever the prompt is, a plain [Error] with
    the message it has for this case; it does not return an IR and it does
    not end in a [TypeError]. *)
Theorem zero_tables_no_table_error (prompt : string) :
  exists e,
    parseIntentToIR prompt emptySchema (mkParseOptions None) = Throws e
    /\ e = JsError ("No tables available to infer from. Available tables: none. Query: "
                    ++ Js.dquote ++ prompt ++ Js.dquote)
    /\ errorName e = "Error"
    /\ e <> JsTypeError.
Proof.
  eexists. split; [apply zero_tables_throws|].
  split; [reflexivity|]. split; [reflexivity | discriminate].
Qed.

(** *** The "last N days" filter *)

Definition hasIntervalDays (c : Condition) : bool :=
  match rhs c with
  | RhsExpr _ (Some _) => true
  | _ => false
  end.

Lemma toLowerCase_empty (s : string) : Js.toLowerCase s = EmptyString -> s = EmptyString.
Proof. destruct s; [reflexivity | discriminate]. Qed.

Lemma likelyDateColumn_truthy (schema : SchemaInfo) (t d : string) :
  likelyDateColumn schema t = Some d -> Js.truthy d = true.
Proof.
  unfold likelyDateColumn.
  destruct (find _ (tables schema)) as [ti|]; [|discriminate].
  set (cands := ["created_at"; "order_date"; "date"; "timestamp"; "createdat"]).
  assert (Forall (fun c => c <> EmptyString) cands) as Hne
    by (repeat constructor; discriminate).
  induction cands as [|c r IH]; simpl; [discriminate|].
  inversion Hne as [|? ? Hc Hr]; subst.
  destruct (find _ (tcolumns ti)) as [hit|] eqn:Hf.
  - intros H; injection H as <-.
    apply find_some in Hf. destruct Hf as [_ Heq]. apply String.eqb_eq in Heq.
    destruct (cname hit) eqn:E; [|reflexivity].
    unfold Js.toLowerCase in Heq. simpl in Heq. congruence.
  - now apply IH.
Qed.

Lemma dateColumnFor_truthy (schema : SchemaInfo) (base d : string) :
  dateColumnFor schema base = Some d -> Js.truthy d = true.
Proof.
  unfold dateColumnFor, orElse.
  destruct (Js.truthyOpt (likelyDateColumn schema base)) eqn:E.
  - intros H. rewrite H in E. exact E.
  - apply likelyDateColumn_truthy.
Qed.





Lemma parseIntentToIR_where (prompt : string) (schema : SchemaInfo) (opts : ParseOptions)
  (ir : SelectQueryIR) :
  parseIntentToIR prompt schema opts = Returns ir ->
  where_ ir = nonEmpty (filters (Js.toLowerCase prompt) schema (from ir)).
Proof.
  unfold parseIntentToIR.
  destruct (chooseBase _ schema opts) as [base|]; [|discriminate].
  destruct (negb (Js.truthy base)); [discriminate|].
  destruct (joining _ schema _ _ base) as [js b].
  intros H; injection H as <-. reflexivity.
Qed.

(** *** Texts that contain the phrase

    A text that reads [last ds day...] after a prefix without [last] is matched
    with the digits [ds]. *)


Lemma substring_all (s : string) : String.substring 0 (String.length s) s = s.
Proof. induction s as [|a r IH]; simpl; [reflexivity | now rewrite IH]. Qed.














(** *** Decimal numerals *)












(** From 2^53 on the conversions round: [Number] to the nearest double,
    [String] to the shortest digits that give the double back. *)
Lemma conversions_beyond_2_53 :
  Js.roundToDouble 9007199254740993 = 9007199254740992%Z
  /\ Js.roundToDouble 9007199254740995 = 9007199254740996%Z
  /\ Js.numberToString 1152921504606846976 = "1152921504606847000"
  /\ Js.numberToString (10 ^ 21) = "1e+21"
  /\ Js.numberToString 123456789012345677877719597056 = "1.2345678901234568e+29".
Proof. repeat split; vm_compute; reflexivity. Qed.


(** *** The rendering *)





End IntentFacts.

Module RecognizerFacts.
Import JsMath Recognizer.
Open Scope Q_scope.

Lemma Qltb_lt (x y : Q) : Qltb x y = true -> x < y.
Proof.
  unfold Qltb. intros H. apply negb_true_iff in H.
  apply Qnot_le_lt. intros Hle. apply Qle_bool_iff in Hle. congruence.
Qed.

Lemma mathMin_above (b x y : Q) : b < x -> b < y -> b < mathMin x y.
Proof. unfold mathMin. destruct (Qle_bool x y); auto. Qed.

Lemma firstSome_prop {A B} (P : B -> Prop) (f : A -> option B) (l : list A) (y : B) :
  (forall x z, f x = Some z -> P z) -> firstSome f l = Some y -> P y.
Proof.
  intros Hf. induction l as [|x r IH]; simpl; [discriminate|].
  destruct (f x) as [z|] eqn:E; [|exact IH].
  intros H; injection H as <-. eauto.
Qed.

Section WithSchema.

Variable DateT : Type.
Variable parseTemporal : string -> option DateT.
Variable schema : SchemaContext.

(** A COLUMN entity leaves [recognizeEntity] with a confidence of 0.7 at
    least. *)
Definition columnFloor (e : Entity DateT) : Prop :=
  ent_type e = EntityType.COLUMN -> 0.7 <= confidence e.

Lemma directMatch_floor (token : Token) (e : Entity DateT) :
  directMatch DateT schema token = Some e -> columnFloor e.
Proof.
  unfold directMatch.
  destruct (firstSome _ (tables schema)) as [e'|] eqn:E.
  - intros H; injection H as <-. revert E.
    apply firstSome_prop. intros t z.
    destruct (matches schema (normalized token) (name t)).
    + intros H; injection H as <-. intros Hty; discriminate.
    + apply firstSome_prop. intros c z'.
      destruct (matches schema (normalized token) (col_name c)); [|discriminate].
      intros H; injection H as <-. intros _. simpl. lra.
  - apply firstSome_prop. intros fn z.
    destruct (matches schema (normalized token) (fn_name fn)); [|discriminate].
    intros H; injection H as <-. intros Hty; discriminate.
Qed.

Lemma resolve_floor (token : Token) (allTokens : list Token) (index : nat)
  (context : Context) (e : Entity DateT) :
  resolve DateT schema token allTokens index context = Some e -> columnFloor e.
Proof.
  unfold resolve. cbv zeta.
  repeat match goal with
         | |- context [if ?c then _ else _] => destruct c
         | |- context [match findBestTableMatch ?s ?t ?c with _ => _ end] =>
             destruct (findBestTableMatch s t c)
         | |- context [match findBestColumnMatch ?s ?t ?c with _ => _ end] =>
             destruct (findBestColumnMatch s t c)
         end;
    intros H; try discriminate; injection H as <-; intros Hty;
    try discriminate; simpl; lra.
Qed.

Lemma recognizeByType_floor (token : Token) (e : Entity DateT) :
  recognizeByType parseTemporal token = Some e -> columnFloor e.
Proof.
  unfold recognizeByType, typed.
  destruct (tok_type token); intros H; try discriminate;
    injection H as <-; intros Hty; discriminate.
Qed.

Lemma recognizeEntity_floor (token : Token) (allTokens : list Token) (index : nat)
  (context : Context) (e : Entity DateT) :
  recognizeEntity parseTemporal schema token allTokens index context = Some e ->
  columnFloor e.
Proof.
  unfold recognizeEntity.
  destruct (directMatch DateT schema token) as [d|] eqn:Hd.
  - intros H; injection H as <-. now apply directMatch_floor in Hd.
  - assert (match resolve DateT schema token allTokens index context with
            | Some e0 => Some e0
            | None => recognizeByType parseTemporal token
            end = Some e -> columnFloor e) as Hctx.
    { destruct (resolve DateT schema token allTokens index context) as [r|] eqn:Hr.
      - intros H; injection H as <-. now apply resolve_floor in Hr.
      - apply recognizeByType_floor. }
    destruct (fuzzyMatch DateT schema (normalized token)) as [m|]; [|exact Hctx].
    destruct (Qltb 0.7 (score m)) eqn:Hs; [|exact Hctx].
    intros H; injection H as <-. intros _. simpl.
    apply Qlt_le_weak. now apply Qltb_lt.
Qed.

Lemma recognizeFrom_kept (tokens rest : list Token) (i : nat) (context : Context) :
  Forall (fun e => 0.3 < confidence e /\ columnFloor e)
         (recognizeFrom parseTemporal schema tokens rest i context).
Proof.
  revert i. induction rest as [|token r IH]; intros i; simpl; [constructor|].
  destruct (recognizeEntity _ _ token tokens i context) as [e|] eqn:He; [|apply IH].
  destruct (Qltb 0.3 (confidence e)) eqn:Hc; [|apply IH].
  constructor; [|apply IH].
  split; [now apply Qltb_lt | now apply recognizeEntity_floor in He].
Qed.

Lemma resolveEntity_above (context : Context) (e : Entity DateT) :
  0.3 < confidence e -> columnFloor e ->
  0.3 < confidence (resolveEntity schema context e).
Proof.
  intros Hc Hf. unfold resolveEntity.
  destruct (EntityType.eqb (ent_type e) EntityType.COLUMN) eqn:Hty; [|exact Hc].
  assert (0.7 <= confidence e) as H7.
  { apply Hf. unfold EntityType.eqb in Hty.
    destruct (EntityType.eq_dec (ent_type e) EntityType.COLUMN); [assumption|discriminate]. }
  destruct (negb (hasOwner e)); [|exact Hc]. cbn [andb].
  destruct (findTablesWithColumn schema (lookupName e)) as [|t [|t' r]]; [exact Hc| |].
  - simpl. apply mathMin_above; lra.
  - destruct (contextTableOf _ context) as [ct|]; [destruct (Js.truthy ct)|];
      simpl; try (apply mathMin_above); lra.
Qed.

(** C4: every entity that [recognize] returns has a confidence above 0.3.
    The filter runs before the ambiguity pass, and the pass cannot bring an
    entity to 0.3 or below: it only lowers COLUMN entities, which enter it
    with 0.7 at least and leave it with 0.7 times that. *)
Theorem recognize_confidence_above_threshold (tokens : list Token) :
  Forall (fun e => 0.3 < confidence e) (recognize parseTemporal schema tokens).
Proof.
  unfold recognize, resolveAmbiguities.
  apply Forall_map.
  eapply Forall_impl; [|apply recognizeFrom_kept].
  intros e [Hc Hf]. now apply resolveEntity_above.
Qed.

(** *** The ambiguity pass *)

(** A candidate table is referenced in the query context: some table name of
    the context is, case-insensitively, the name of a candidate. *)
Definition referenced (possibleTables : list TableInfo) (context : Context) : Prop :=
  exists t pt, In t (ctx_tables context) /\ In pt possibleTables
               /\ Js.toLowerCase (name pt) = Js.toLowerCase t.

Lemma contextTableOf_some (possibleTables : list TableInfo) (context : Context) (t : string) :
  contextTableOf possibleTables context = Some t ->
  In t (ctx_tables context) /\
  exists pt, In pt possibleTables /\ Js.toLowerCase (name pt) = Js.toLowerCase t.
Proof.
  unfold contextTableOf. intros H. apply find_some in H. destruct H as [Hin Hex].
  split; [exact Hin|]. apply existsb_exists in Hex. destruct Hex as (pt & Hpt & Heq).
  apply String.eqb_eq in Heq. eauto.
Qed.

Lemma contextTableOf_none (possibleTables : list TableInfo) (context : Context) :
  contextTableOf possibleTables context = None -> ~ referenced possibleTables context.
Proof.
  unfold contextTableOf. intros H (t & pt & Ht & Hpt & Heq).
  pose proof (find_none _ _ H t Ht) as Hn. cbv beta in Hn.
  assert (existsb (fun pt0 => String.eqb (Js.toLowerCase (name pt0)) (Js.toLowerCase t))
                  possibleTables = true) as Hy.
  { apply existsb_exists. exists pt. split; [exact Hpt|]. now apply String.eqb_eq. }
  congruence.
Qed.

Lemma lower_truthy (s t : string) :
  Js.toLowerCase s = Js.toLowerCase t -> s <> EmptyString -> Js.truthy t = true.
Proof.
  intros Heq Hs. destruct t; [|reflexivity].
  destruct s; [congruence | discriminate].
Qed.

Lemma findTablesWithColumn_in (columnName : string) (t : TableInfo) :
  In t (findTablesWithColumn schema columnName) -> In t (tables schema).
Proof. unfold findTablesWithColumn. intros H. now apply filter_In in H. Qed.

(** Where no table of the schema has the empty name the ambiguity pass does
    what is asked of it: a COLUMN entity without an owning table whose name
    matches columns of more than one table is returned bound to a table of
    the context that names a candidate, when there is one, and otherwise
    with [ambiguous = true] and its confidence multiplied by 0.7. *)
Lemma ambiguous_column_resolution (entities : list (Entity DateT)) (context : Context)
  (i : nat) (entity : Entity DateT) :
  Forall (fun t => name t <> EmptyString) (tables schema) ->
  nth_error entities i = Some entity ->
  ent_type entity = EntityType.COLUMN ->
  hasOwner entity = false ->
  (1 < length (findTablesWithColumn schema (lookupName entity)))%nat ->
  exists out,
    nth_error (resolveAmbiguities schema entities context) i = Some out /\
    (referenced (findTablesWithColumn schema (lookupName entity)) context ->
     exists t pt,
       In t (ctx_tables context)
       /\ In pt (findTablesWithColumn schema (lookupName entity))
       /\ Js.toLowerCase (name pt) = Js.toLowerCase t
       /\ option_map (@md_table DateT) (metadata out) = Some (Some (TableName t))) /\
    (~ referenced (findTablesWithColumn schema (lookupName entity)) context ->
     confidence out = confidence entity * 0.7
     /\ option_map (@md_ambiguous DateT) (metadata out) = Some (Some true)).
Proof.
  intros Hnames Hnth Hty Hown Hlen.
  exists (resolveEntity schema context entity). split.
  { unfold resolveAmbiguities. rewrite nth_error_map, Hnth. reflexivity. }
  unfold resolveEntity. rewrite Hty, Hown. cbn [EntityType.eqb negb andb].
  destruct (EntityType.eq_dec EntityType.COLUMN EntityType.COLUMN) as [_|N];
    [|now destruct N].
  set (possible := findTablesWithColumn schema (lookupName entity)) in *.
  assert (forall pt, In pt possible -> name pt <> EmptyString) as Hne.
  { intros pt Hpt. unfold possible in Hpt. apply findTablesWithColumn_in in Hpt.
    rewrite Forall_forall in Hnames. now apply Hnames. }
  destruct possible as [|p1 [|p2 r]] eqn:Hp; simpl in Hlen; try lia.
  destruct (contextTableOf (p1 :: p2 :: r) context) as [ct|] eqn:Hct.
  - pose proof (contextTableOf_some _ _ Hct) as (Hin & pt & Hpt & Heq).
    rewrite (lower_truthy _ Heq (Hne pt Hpt)).
    split.
    + intros _. exists ct, pt. repeat split; auto.
    + intros Hn. exfalso. apply Hn. exists ct, pt. auto.
  - apply contextTableOf_none in Hct. split.
    + intros Hr. contradiction.
    + intros _. split; reflexivity.
Qed.

End WithSchema.

(** Scenario D: [status] is a column of two tables and the text names
    neither. *)
Definition twoStatusSchema : SchemaContext :=
  mkSchema [mkTableInfo "orders" None [mkColumnInfo "status" "text" true];
            mkTableInfo "shipments" None [mkColumnInfo "status" "text" true]]
           [].

Definition statusEntity : Entity unit :=
  mkEntity "status" EntityType.COLUMN None 0.75 7 6 (Some "status")
           (Some (mkMetadata None (Some (mkColumnInfo "status" "text" true)) None
                             (Some "comparison_left") None None None)).

Definition emptyContext : Context := mkContext [] [] [] false false false false.

(** A schema in which one of the two tables with a [status] column has the
    empty name, and a context that names that table. *)
Definition unnamedTableSchema : SchemaContext :=
  mkSchema [mkTableInfo EmptyString None [mkColumnInfo "status" "text" true];
            mkTableInfo "shipments" None [mkColumnInfo "status" "text" true]]
           [].

Definition unnamedTableContext : Context :=
  mkContext [EmptyString] [] [] false false false false.

(** C5 fails on the code: a candidate table is referenced in the context,
    and the entity is not bound to it but marked ambiguous, with its
    confidence cut to 0.7 of what it was.  The context's name of the table
    is the empty string, which [if (contextTable)] takes for no table
    found. *)
Theorem empty_table_name_is_not_preferred :
  ent_type statusEntity = EntityType.COLUMN
  /\ hasOwner statusEntity = false
  /\ length (findTablesWithColumn unnamedTableSchema (lookupName statusEntity)) = 2%nat
  /\ referenced (findTablesWithColumn unnamedTableSchema (lookupName statusEntity))
                unnamedTableContext
  /\ exists out,
       resolveAmbiguities unnamedTableSchema [statusEntity] unnamedTableContext = [out]
       /\ option_map (@md_table unit) (metadata out) = Some None
       /\ option_map (@md_ambiguous unit) (metadata out) = Some (Some true)
       /\ confidence out = 0.75 * 0.7.
Proof.
  split; [reflexivity|]. split; [reflexivity|]. split; [reflexivity|]. split.
  - exists EmptyString, (mkTableInfo EmptyString None [mkColumnInfo "status" "text" true]).
    split; [now left|]. split; [now left | reflexivity].
  - eexists. split; [reflexivity|]. repeat split.
Qed.

Lemma ambiguous_column_resolution_witness :
  exists out,
    nth_error (resolveAmbiguities twoStatusSchema [statusEntity] emptyContext) 0
      = Some out /\
    confidence out = 0.75 * 0.7 /\
    option_map (@md_ambiguous unit) (metadata out) = Some (Some true).
Proof.
  destruct (@ambiguous_column_resolution unit twoStatusSchema [statusEntity] emptyContext
              0%nat statusEntity) as (out & Hout & _ & Hamb).
  - repeat constructor; discriminate.
  - reflexivity.
  - reflexivity.
  - reflexivity.
  - vm_compute. lia.
  - exists out. split; [exact Hout|]. apply Hamb.
    intros (t & pt & Ht & _). destruct Ht.
Defined.

End RecognizerFacts.

Module AdvancedFacts.
Import JsMath Advanced.
Open Scope Q_scope.

Section Facts.
Variable log2 : Q -> Q.

Definition bump (k : nat) (s : State) : State :=
  mkState (k + nextAddr s) (cache s) (frequency s).

Lemma bind_Returns {A B} (m : M A) (k : A -> M B) (s s' : State) (a : A) :
  m s = (Returns a, s') -> bind m k s = k a s'.
Proof. unfold bind. now intros ->. Qed.

Lemma bind_Throws {A B} (m : M A) (k : A -> M B) (s s' : State) (e : Thrown) :
  m s = (Throws e, s') -> bind m k s = (Throws e, s').
Proof. unfold bind. now intros ->. Qed.

Lemma cloneIR_run (f : IRFields) (s : State) :
  cloneIR f s = (Returns (mkObject (nextAddr s) (jsonCopy f)), bump 1 s).
Proof. reflexivity. Qed.

Definition simplifyF (f : IRFields) : IRFields :=
  let f' := jsonCopy f in
  match where_ (query f') with
  | Some w => withQuery f' (setWhere (query f') (Some (simplifyConditions [] w)))
  | None => f'
  end.

Lemma simplify_run (o : IRObject) (s : State) :
  simplify o s = (Returns (mkObject (nextAddr s) (simplifyF (fields o))), bump 1 s).
Proof.
  unfold simplify. erewrite bind_Returns by apply cloneIR_run.
  unfold ret, simplifyF. cbn. destruct (where_ (query (fields o))); reflexivity.
Qed.

(** *** Join orders *)

Lemma nth_error_without {A} (l : list A) (i : nat) (x : A) :
  nth_error l i = Some x -> Permutation l (x :: without i l).
Proof.
  intros H. unfold without.
  destruct (nth_error_split l i H) as (l1 & l2 & -> & <-).
  rewrite firstn_app, firstn_all, Nat.sub_diag, firstn_O, app_nil_r.
  replace (skipn (S (length l1)) (l1 ++ x :: l2)) with l2.
  - symmetry. apply Permutation_middle.
  - rewrite skipn_app. rewrite skipn_all2 by lia.
    replace (S (length l1) - length l1)%nat with 1%nat by lia. reflexivity.
Qed.

Lemma length_flat_map_const {A B} (f : A -> list B) (l : list A) (c : nat) :
  Forall (fun x => length (f x) = c) l -> length (flat_map f l) = (length l * c)%nat.
Proof.
  induction 1 as [|x r Hx _ IH]; simpl; [reflexivity|].
  rewrite length_app, Hx, IH. reflexivity.
Qed.

Lemma joinOrders_perm (fuel : nat) :
  forall js, Forall (Permutation js) (joinOrders fuel js).
Proof.
  induction fuel as [|fuel IH]; intros js; simpl.
  - constructor; [reflexivity | constructor].
  - destruct (length js <=? 1)%nat; [constructor; [reflexivity | constructor]|].
    apply Forall_flat_map. apply Forall_forall. intros i _.
    destruct (nth_error js i) as [x|] eqn:E; [|constructor].
    apply Forall_map. eapply Forall_impl; [|apply IH].
    intros p Hp. cbv beta.
    eapply Permutation_trans; [apply (nth_error_without _ _ E) | now constructor].
Qed.

Lemma joinOrders_length (fuel : nat) :
  forall js, (length js <= fuel)%nat -> length (joinOrders fuel js) = fact (length js).
Proof.
  induction fuel as [|fuel IH]; intros js Hle; simpl.
  - destruct js; [reflexivity | simpl in Hle; lia].
  - destruct (length js <=? 1)%nat eqn:E.
    + apply Nat.leb_le in E. destruct js as [|x [|y r]]; simpl in *; try reflexivity; lia.
    + apply Nat.leb_gt in E.
      rewrite length_flat_map_const with (c := fact (Nat.pred (length js))).
      * rewrite length_seq. destruct (length js); [lia|]. reflexivity.
      * apply Forall_forall. intros i Hi. apply in_seq in Hi.
        destruct (nth_error js i) as [x|] eqn:Ex.
        -- rewrite length_map. rewrite IH; rewrite without_length by lia; [reflexivity | lia].
        -- apply nth_error_None in Ex. lia.
Qed.

Lemma joinOrders_head (fuel : nat) :
  forall js, (length js <= fuel)%nat -> exists rest, joinOrders fuel js = js :: rest.
Proof.
  induction fuel as [|fuel IH]; intros js Hle; simpl; [eauto|].
  destruct (length js <=? 1)%nat eqn:E; [eauto|].
  apply Nat.leb_gt in E. destruct js as [|x r]; [simpl in E; lia|].
  simpl in Hle. cbn [length seq flat_map nth_error].
  change (without 0 (x :: r)) with r.
  destruct (IH r) as [rest Hr]; [lia|]. rewrite Hr. simpl. eauto.
Qed.

Lemma generateJoinOrders_length (js : list JoinSpec) :
  length (generateJoinOrders js) = fact (length js).
Proof. apply joinOrders_length. lia. Qed.

Lemma generateJoinOrders_perm (js : list JoinSpec) :
  Forall (Permutation js) (generateJoinOrders js).
Proof. apply joinOrders_perm. Qed.

Lemma generateJoinOrders_head (js : list JoinSpec) :
  exists rest, generateJoinOrders js = js :: rest.
Proof. apply joinOrders_head. lia. Qed.

(** *** The join optimizer, run *)

Lemma bump_bump (j k : nat) (s : State) : bump j (bump k s) = bump (j + k) s.
Proof. unfold bump. simpl. f_equal. lia. Qed.

Lemma Qltb_irrefl (x : Q) : Qltb x x = false.
Proof.
  unfold Qltb. apply negb_false_iff. apply Qle_bool_iff. apply Qle_refl.
Qed.

Lemma fold_joinCost (o1 : list JoinSpec) :
  forall o2 c, length o1 = length o2 ->
               fold_left (fun c j => c + joinCost j 1000) o1 c
               = fold_left (fun c j => c + joinCost j 1000) o2 c.
Proof.
  induction o1 as [|j r IH]; intros [|j' r'] c Hl; simpl in Hl; try discriminate;
    [reflexivity|].
  simpl. apply IH. now injection Hl.
Qed.

Definition withJoins (f : IRFields) (js : list JoinSpec) : IRFields :=
  withQuery f (setJoins (query f) (Some js)).

Lemma estimate_withJoins (f : IRFields) (o1 o2 : list JoinSpec) :
  length o1 = length o2 ->
  estimate log2 (withJoins f o1) = estimate log2 (withJoins f o2).
Proof.
  intros Hl. unfold estimate, withJoins. cbn.
  now rewrite (fold_joinCost o1 o2 _ Hl).
Qed.

Lemma tryOrder_run (ir : IRObject) (best : list JoinSpec * option Q)
  (order : list JoinSpec) (s : State) :
  tryOrder log2 ir best order s =
    (Returns match snd best with
             | None => (order, Some (estimate log2 (withJoins (jsonCopy (fields ir)) order)))
             | Some bestCost =>
                 if Qltb (estimate log2 (withJoins (jsonCopy (fields ir)) order)) bestCost
                 then (order, Some (estimate log2 (withJoins (jsonCopy (fields ir)) order)))
                 else best
             end,
     bump 1 s).
Proof. reflexivity. Qed.

Lemma forM_tryOrder_keep (ir : IRObject) (b : list JoinSpec) (orders : list (list JoinSpec)) :
  Forall (fun o => length o = length b) orders ->
  forall s,
    forM orders (b, Some (estimate log2 (withJoins (jsonCopy (fields ir)) b)))
         (tryOrder log2 ir) s
    = (Returns (b, Some (estimate log2 (withJoins (jsonCopy (fields ir)) b))),
       bump (length orders) s).
Proof.
  induction 1 as [|o r Ho _ IH]; intros s.
  - simpl. unfold ret, bump. destruct s; reflexivity.
  - cbn [forM]. erewrite bind_Returns by apply tryOrder_run.
    cbn [snd]. rewrite (estimate_withJoins _ o b Ho), Qltb_irrefl.
    rewrite IH, bump_bump. cbn [length]. do 2 f_equal. lia.
Qed.

Lemma JoinOptimizer_optimize_run (ir : IRObject) (js : list JoinSpec) (s : State) :
  joins (query (fields ir)) = Some js ->
  (1 < length js)%nat ->
  JoinOptimizer_optimize log2 ir s =
    (Returns (mkObject (fact (length js) + nextAddr s)
                       (withJoins (jsonCopy (fields ir)) js)),
     bump (S (fact (length js))) s).
Proof.
  intros Hj Hl. unfold JoinOptimizer_optimize. rewrite Hj.
  destruct (length js <=? 1)%nat eqn:E; [apply Nat.leb_le in E; lia|].
  destruct (generateJoinOrders_head js) as [rest Hr].
  pose proof (generateJoinOrders_perm js) as Hp.
  pose proof (generateJoinOrders_length js) as Hn.
  rewrite Hr in *. inversion Hp as [|? ? _ Hrest]; subst.
  erewrite bind_Returns.
  2:{ cbn [forM]. erewrite bind_Returns by apply tryOrder_run. cbn [snd].
      apply forM_tryOrder_keep.
      eapply Forall_impl; [|exact Hrest]. intros o Ho. cbv beta.
      symmetry. now apply Permutation_length. }
  erewrite bind_Returns by apply cloneIR_run.
  unfold ret. cbn [fst addr fields]. rewrite !bump_bump.
  cbn [length] in Hn. f_equal.
  - f_equal. f_equal. unfold bump. cbn [nextAddr]. rewrite <- Hn. clear Hl E. lia.
  - f_equal. rewrite <- Hn. clear Hl E. lia.
Qed.

(** *** The passes, run *)

Definition hasWhere (f : IRFields) : bool :=
  match where_ (query f) with
  | None | Some [] => false
  | Some _ => true
  end.

Definition emptyOrder (f : IRFields) : bool :=
  match orderBy (query f) with
  | Some (_ :: _) => false
  | _ => true
  end.

Definition pushF (f : IRFields) : IRFields :=
  let w := orEmpty (where_ (query f)) in
  let f' := jsonCopy f in
  match filter (fun c => canPushDown c f) w with
  | [] => f'
  | pushed =>
      withQuery f'
        (setWhere (setJoins (query f')
                            (option_map (map (addConditions pushed)) (joins (query f'))))
                  (Some (filter (fun c => negb (canPushDown c f)) w)))
  end.

Lemma pushPredicates_run (o : IRObject) (s : State) :
  pushPredicates o s =
    if hasWhere (fields o)
    then (Returns (mkObject (nextAddr s) (pushF (fields o))), bump 1 s)
    else (Returns o, s).
Proof.
  unfold pushPredicates, hasWhere, pushF.
  destruct (where_ (query (fields o))) as [[|c w]|]; try reflexivity.
  erewrite bind_Returns by apply cloneIR_run.
  unfold ret. cbn [orEmpty addr fields].
  destruct (filter _ (c :: w)); reflexivity.
Qed.

Definition neededColumns (f : IRFields) : list string :=
  let qr := query f in
  addAll []
    (addAll (map columnName (orEmpty (groupBy qr)))
       (addAll (flat_map joinNames (orEmpty (joins qr)))
          (addAll (flat_map conditionNames (orEmpty (where_ qr)))
             (addAll (map projectionName (columns qr)) [])))).

Definition pruneF (f : IRFields) : IRFields :=
  let f' := jsonCopy f in
  mkFields (query f') (Some (neededColumns f)) (selectedIndexes f') (joinMethod f')
           (subqueries f').

Lemma pruneColumns_run (o : IRObject) (s : State) :
  pruneColumns o s =
    if emptyOrder (fields o)
    then (Returns (mkObject (nextAddr s) (pruneF (fields o))), bump 1 s)
    else (Throws JsTypeError, s).
Proof.
  unfold pruneColumns, emptyOrder, orderColumnNames.
  destruct (orderBy (query (fields o))) as [[|x r]|]; reflexivity.
Qed.

Definition indexMapOf (f : IRFields) : list (string * list Index) :=
  let qr := query f in
  fold_left (fun m j =>
               addIndexes (table (join_right j))
                 (selectForJoin (table (join_right j)) (column (join_right j)))
                 (addIndexes (table (join_left j))
                    (selectForJoin (table (join_left j)) (column (join_left j))) m))
            (orEmpty (joins qr))
            (fold_left (fun m c => match lhs c with
                                   | LhsColumn l =>
                                       addIndexes (table l)
                                         (selectForCondition (table l) (column l) (op c)) m
                                   | _ => m
                                   end)
                       (orEmpty (where_ qr)) []).

Definition indexF (f : IRFields) : IRFields :=
  let f' := jsonCopy f in
  mkFields (query f') (prunedColumns f') (Some (IndexMap (indexMapOf f))) (joinMethod f')
           (subqueries f').

Lemma selectIndexes_run (o : IRObject) (s : State) :
  selectIndexes o s =
    if emptyOrder (fields o)
    then (Returns (mkObject (nextAddr s) (indexF (fields o))), bump 1 s)
    else (Throws JsTypeError, bump 1 s).
Proof.
  unfold selectIndexes, emptyOrder, orderColumnNames.
  destruct (orderBy (query (fields o))) as [[|x r]|]; reflexivity.
Qed.

Lemma differs_fresh (a b : IRObject) : (addr b < addr a)%nat -> differs a b = true.
Proof. unfold differs. intros H. apply negb_true_iff, Nat.eqb_neq. lia. Qed.

Lemma differs_same (a : IRObject) : differs a a = false.
Proof. unfold differs. now rewrite Nat.eqb_refl. Qed.

Lemma step_fresh (ty : OptimizationType) (d : string) (im : Impact) (before : Q)
  (cand cur : IRObject) (opts : list AppliedOptimization) :
  (addr cur < addr cand)%nat ->
  step log2 ty d im before cand (opts, cur)
  = (push opts (mkApplied ty d im (before - estimate log2 (fields cand))), cand).
Proof. intros H. unfold step. now rewrite differs_fresh. Qed.

Lemma step_same (ty : OptimizationType) (d : string) (im : Impact) (before : Q)
  (cur : IRObject) (opts : list AppliedOptimization) :
  step log2 ty d im before cur (opts, cur) = (opts, cur).
Proof. unfold step. now rewrite differs_same. Qed.

Definition pushF' (f : IRFields) : IRFields := if hasWhere f then pushF f else f.

Definition reorderF (f : IRFields) : IRFields :=
  if (1 <? joinCount f)%nat then withJoins (jsonCopy f) (orEmpty (joins (query f))) else f.

(** The fields of the object [passes] ends with. *)
Definition finalF (f : IRFields) : IRFields :=
  indexF (reorderF (pruneF (pushF' (simplifyF (jsonCopy f))))).

(** The passes reported, whatever they did to the IR. *)
Definition reported (f : IRFields) : list OptimizationType :=
  ([CONSTANT_FOLDING]
   ++ (if hasWhere (simplifyF (jsonCopy f)) then [PREDICATE_PUSHDOWN] else [])
   ++ [COLUMN_PRUNING]
   ++ (if (1 <? joinCount (pruneF (pushF' (simplifyF (jsonCopy f)))))%nat
       then [JOIN_REORDERING] else [])
   ++ [INDEX_SELECTION])%list.

Lemma orderBy_simplifyF (f : IRFields) :
  orderBy (query (simplifyF f)) = orderBy (query f).
Proof. unfold simplifyF. cbn. destruct (where_ (query f)); reflexivity. Qed.

Lemma orderBy_pushF (f : IRFields) : orderBy (query (pushF f)) = orderBy (query f).
Proof. unfold pushF. cbv zeta. destruct (filter _ _); reflexivity. Qed.

Lemma orderBy_pushF' (f : IRFields) : orderBy (query (pushF' f)) = orderBy (query f).
Proof. unfold pushF'. destruct (hasWhere f); [apply orderBy_pushF | reflexivity]. Qed.

Lemma emptyOrder_pushF' (f : IRFields) :
  emptyOrder (pushF' (simplifyF (jsonCopy f))) = emptyOrder f.
Proof. unfold emptyOrder. now rewrite orderBy_pushF', orderBy_simplifyF. Qed.

Lemma map_push {A B} (g : A -> B) (l : list A) (x : A) :
  map g (push l x) = push (map g l) (g x).
Proof. unfold push. now rewrite map_app. Qed.

Lemma JoinOptimizer_optimize_reorder (o : IRObject) (s : State) :
  (1 <? joinCount (fields o))%nat = true ->
  JoinOptimizer_optimize log2 o s =
    (Returns (mkObject (fact (joinCount (fields o)) + nextAddr s) (reorderF (fields o))),
     bump (S (fact (joinCount (fields o)))) s).
Proof.
  intros H. unfold reorderF. rewrite H. apply Nat.ltb_lt in H.
  unfold joinCount in *.
  destruct (joins (query (fields o))) as [js|] eqn:Hj; [|simpl in H; lia].
  now apply JoinOptimizer_optimize_run.
Qed.

Lemma emptyOrder_pruneF (f : IRFields) : emptyOrder (pruneF f) = emptyOrder f.
Proof. reflexivity. Qed.

Lemma emptyOrder_reorderF (f : IRFields) : emptyOrder (reorderF f) = emptyOrder f.
Proof. unfold reorderF. destruct (1 <? joinCount f)%nat; reflexivity. Qed.

Lemma if_same {A} (b : bool) (x : A) : (if b then x else x) = x.
Proof. now destruct b. Qed.

(** The stages of [passes] after column pruning, from the pair
    [(optimizations, optimized)] they start with. *)
Ltac tail_stages Ho :=
  match goal with
  | |- context [(1 <? joinCount ?F)%nat] =>
      let Hj := fresh "Hj" in
      destruct (1 <? joinCount F)%nat eqn:Hj;
      [ unfold bind at 1; unfold bind at 1;
        rewrite JoinOptimizer_optimize_reorder by exact Hj;
        unfold ret at 1; cbn [fields addr];
        rewrite step_fresh by (cbn; lia)
      | unfold bind at 1; unfold ret at 1 ];
      cbn [snd fields addr];
      unfold bind at 1; rewrite selectIndexes_run; cbn [fields];
      rewrite ?emptyOrder_reorderF, emptyOrder_pruneF, Ho;
      unfold ret; rewrite step_fresh by (cbn; lia);
      cbn [snd fields addr]; unfold unnestSubqueries;
      rewrite step_same, if_same, !bump_bump;
      do 3 eexists; (split; [try (unfold reorderF; rewrite Hj); reflexivity|]);
      rewrite !map_push; reflexivity
  end.

Lemma passes_run (o : IRObject) (s : State) :
  if emptyOrder (fields o) then
    exists opts a k,
      passes log2 o s = (Returns (opts, mkObject a (finalF (fields o))), bump k s)
      /\ map opt_type opts = reported (fields o)
  else exists k, passes log2 o s = (Throws JsTypeError, bump k s).
Proof.
  pose proof (emptyOrder_pushF' (fields o)) as Ho.
  destruct (emptyOrder (fields o)) eqn:He;
    unfold passes;
    (erewrite bind_Returns by apply cloneIR_run); cbv zeta; cbn [snd];
    (erewrite bind_Returns by apply simplify_run);
    rewrite step_fresh by (cbn; lia); cbn [snd addr fields];
    unfold finalF, reported;
    set (f1 := simplifyF (jsonCopy (fields o))) in *;
    unfold bind at 1; rewrite pushPredicates_run; cbn [fields addr];
    unfold pushF' in *;
    destruct (hasWhere f1) eqn:Hw;
    rewrite ?step_same; rewrite ?step_fresh by (cbn; lia); cbn [snd addr fields];
    unfold bind at 1; rewrite pruneColumns_run; cbn [fields addr];
    rewrite Ho;
    try (rewrite !bump_bump; eexists; reflexivity);
    rewrite step_fresh by (cbn; lia); cbn [snd addr fields];
    tail_stages Ho.
Qed.

(** *** Plans, alternatives, recommendations *)

Lemma joinNodes_IndexMap (f : IRFields) (m : list (string * list Index)) (js : list JoinSpec) :
  selectedIndexes f = Some (IndexMap m) ->
  forall current, exists p, joinNodes f current js = Returns p.
Proof.
  intros Hs. induction js as [|j r IH]; intros current; simpl; [eauto|].
  unfold joinNode, hasSelectedIndex. rewrite Hs. cbn [bindO]. apply IH.
Qed.

Lemma generatePlan_IndexMap (f : IRFields) (m : list (string * list Index)) :
  selectedIndexes f = Some (IndexMap m) -> emptyOrder f = true ->
  exists p, generatePlan f = Returns p.
Proof.
  intros Hs Ho. unfold generatePlan. cbv zeta.
  unfold hasSelectedIndex at 1. rewrite Hs. cbn [bindO].
  match goal with
  | |- context [joinNodes f ?c ?js] =>
      destruct (@joinNodes_IndexMap f m js Hs c) as [p Hp]; rewrite Hp
  end.
  cbn [bindO]. unfold emptyOrder in Ho. unfold orderColumnNames.
  destruct (orderBy (query f)) as [[|x r]|]; try discriminate; cbn [bindO]; eauto.
Qed.

Lemma generatePlan_EmptyObject (f : IRFields) :
  selectedIndexes f = Some EmptyObject -> generatePlan f = Throws JsTypeError.
Proof.
  intros Hs. unfold generatePlan. cbv zeta. unfold hasSelectedIndex at 1.
  now rewrite Hs.
Qed.

Lemma generateAlternatives_no_joins (o : IRObject) (m : list (string * list Index))
  (s : State) :
  joinCount (fields o) = 0%nat ->
  selectedIndexes (fields o) = Some (IndexMap m) -> emptyOrder (fields o) = true ->
  exists alts, generateAlternatives o s = (Returns alts, s).
Proof.
  intros Hj Hs Ho. unfold generateAlternatives. rewrite Hj. cbn [Nat.ltb Nat.leb].
  unfold bind at 1, ret at 1. unfold bind at 1, ret at 1.
  destruct (hasComplexSubqueries (fields o)); [|unfold ret; eauto].
  unfold convertToCTE, alternativeOf.
  destruct (@generatePlan_IndexMap _ _ Hs Ho) as [p Hp]. rewrite Hp.
  cbn. unfold bind, lift, ret. eauto.
Qed.

Lemma generateAlternatives_joins (o : IRObject) (s s' : State)
  (alts : list AlternativePlan) :
  joinCount (fields o) <> 0%nat -> selectedIndexes (fields o) <> None ->
  generateAlternatives o s <> (Returns alts, s').
Proof.
  intros Hj Hs. unfold generateAlternatives.
  destruct (0 <? joinCount (fields o))%nat eqn:E; [|apply Nat.ltb_ge in E; lia].
  unfold bind at 1.
  match goal with |- context [match ?m s with _ => _ end] => destruct (m s) as [[a|e] s1] end;
    [|discriminate].
  unfold bind at 1. unfold bind at 1. rewrite cloneIR_run.
  unfold alternativeOf. rewrite generatePlan_EmptyObject.
  - cbn. discriminate.
  - cbn. destruct (selectedIndexes (fields o)); [reflexivity | contradiction].
Qed.

Lemma generateRecommendations_run (o : IRObject) (p : QueryPlan) (s : State) :
  exists recs, generateRecommendations o p s = (Returns recs, s).
Proof.
  unfold generateRecommendations. cbv zeta.
  destruct (isComplexAggregation (fields o)); [|unfold ret; eauto].
  unfold bind, getFrequency, ret. eauto.
Qed.

(** *** What the passes keep *)

Lemma joinCount_simplifyF (f : IRFields) : joinCount (simplifyF f) = joinCount f.
Proof. unfold simplifyF. cbn. destruct (where_ (query f)); reflexivity. Qed.

Lemma joinCount_pushF (f : IRFields) : joinCount (pushF f) = joinCount f.
Proof.
  unfold pushF. cbv zeta. destruct (filter _ _); [reflexivity|].
  unfold joinCount. cbn. destruct (joins (query f)); cbn; [apply length_map | reflexivity].
Qed.

Lemma joinCount_pushF' (f : IRFields) : joinCount (pushF' f) = joinCount f.
Proof. unfold pushF'. destruct (hasWhere f); [apply joinCount_pushF | reflexivity]. Qed.

Lemma joinCount_reorderF (f : IRFields) : joinCount (reorderF f) = joinCount f.
Proof. unfold reorderF. destruct (1 <? joinCount f)%nat; reflexivity. Qed.

Lemma joinCount_finalF (f : IRFields) : joinCount (finalF f) = joinCount f.
Proof.
  unfold finalF.
  change (joinCount (indexF ?x)) with (joinCount x).
  rewrite joinCount_reorderF.
  change (joinCount (pruneF ?x)) with (joinCount x).
  now rewrite joinCount_pushF', joinCount_simplifyF.
Qed.

Lemma emptyOrder_finalF (f : IRFields) : emptyOrder (finalF f) = emptyOrder f.
Proof.
  unfold finalF.
  change (emptyOrder (indexF ?x)) with (emptyOrder x).
  now rewrite emptyOrder_reorderF, emptyOrder_pruneF, emptyOrder_pushF'.
Qed.

Lemma selectedIndexes_finalF (f : IRFields) :
  exists m, selectedIndexes (finalF f) = Some (IndexMap m).
Proof. unfold finalF, indexF. cbn. eauto. Qed.

(** *** optimize, run *)

(** The state [cache.get] leaves: one more hit counted for the key. *)
Definition afterGet (f : IRFields) (s : State) : State :=
  mkState (nextAddr s) (cache s)
          (JsMap.set Key_eq_dec (getKey f)
             (S (match JsMap.get Key_eq_dec (getKey f) (frequency s) with
                 | Some n => n
                 | None => O
                 end))
             (frequency s)).

Lemma optimize_hit (o : IRObject) (s : State) (r : OptimizationResult) :
  JsMap.get Key_eq_dec (getKey (fields o)) (cache s) = Some r ->
  optimize log2 o s = (Returns r, afterGet (fields o) s).
Proof.
  intros H. unfold optimize, bind, cacheGet. rewrite H. reflexivity.
Qed.

Lemma optimize_miss_runs (o : IRObject) (s : State) :
  JsMap.get Key_eq_dec (getKey (fields o)) (cache s) = None ->
  emptyOrder (fields o) = true -> joinCount (fields o) = 0%nat ->
  exists r k,
    optimize log2 o s =
      (Returns r,
       mkState (k + nextAddr s) (cacheInsert (getKey (fields o)) r (cache s))
               (frequency (afterGet (fields o) s)))
    /\ fields (optimizedIR r) = finalF (fields o)
    /\ estimatedCost r = estimate log2 (finalF (fields o))
    /\ map opt_type (optimizations r) = reported (fields o).
Proof.
  intros Hget Ho Hj. unfold optimize. unfold bind at 1. unfold cacheGet at 1.
  rewrite Hget. fold (afterGet (fields o) s).
  pose proof (passes_run o (afterGet (fields o) s)) as Hp. rewrite Ho in Hp.
  destruct Hp as (opts & a & k & Hp & Hrep).
  unfold bind at 1. rewrite Hp.
  destruct (selectedIndexes_finalF (fields o)) as [m Hm].
  destruct (@generatePlan_IndexMap (finalF (fields o)) m Hm) as [p Hpl].
  { now rewrite emptyOrder_finalF. }
  unfold bind at 1, lift at 1. cbn [fields]. rewrite Hpl.
  destruct (@generateAlternatives_no_joins (mkObject a (finalF (fields o))) m
              (bump k (afterGet (fields o) s))) as [alts Ha].
  { cbn [fields]. now rewrite joinCount_finalF. }
  { exact Hm. }
  { cbn [fields]. now rewrite emptyOrder_finalF. }
  unfold bind at 1. rewrite Ha.
  destruct (generateRecommendations_run (mkObject a (finalF (fields o))) p
              (bump k (afterGet (fields o) s))) as [recs Hr].
  unfold bind at 1. rewrite Hr.
  unfold bind, cacheSet, ret. cbn.
  eexists. exists k. split; [reflexivity|]. cbn. auto.
Qed.

(** *** The where-list after the passes, without joins *)

Lemma simplifyConditions_fresh (l : list Condition) :
  forall seen c, In c (simplifyConditions seen l) ->
                 In c l /\ ~ In (IRJson.ofCondition c) seen.
Proof.
  induction l as [|x r IH]; intros seen c; simpl; [contradiction|].
  destruct (in_dec string_dec (IRJson.ofCondition x) seen) as [Hin|Hn].
  - intros H. apply IH in H. tauto.
  - intros [<-|H]; [tauto|]. apply IH in H. destruct H as [H1 H2].
    split; [tauto|]. intros Hc. apply H2. now right.
Qed.

Lemma simplifyConditions_keys (l : list Condition) :
  forall seen, NoDup (map IRJson.ofCondition (simplifyConditions seen l)).
Proof.
  induction l as [|x r IH]; intros seen; simpl; [constructor|].
  destruct (in_dec string_dec (IRJson.ofCondition x) seen); [apply IH|].
  cbn [map]. constructor; [|apply IH].
  intros H. apply in_map_iff in H. destruct H as (c & Hk & Hc).
  apply simplifyConditions_fresh in Hc. destruct Hc as [_ Hc]. apply Hc.
  rewrite Hk. now left.
Qed.

Lemma simplifyConditions_NoDup (l : list Condition) :
  forall seen, NoDup (simplifyConditions seen l).
Proof. intros seen. eapply NoDup_map_inv. apply simplifyConditions_keys. Qed.

Lemma simplifyConditions_id (l : list Condition) :
  forall seen, NoDup (map IRJson.ofCondition l) ->
               (forall c, In c l -> ~ In (IRJson.ofCondition c) seen) ->
               simplifyConditions seen l = l.
Proof.
  induction l as [|x r IH]; intros seen Hnd Hs; simpl; [reflexivity|].
  inversion Hnd as [|? ? Hx Hr]; subst.
  destruct (in_dec string_dec (IRJson.ofCondition x) seen) as [Hin|_].
  - exfalso. apply (Hs x); [now left | exact Hin].
  - f_equal. apply IH; [exact Hr|].
    intros c Hc [Hk|Hin].
    + apply Hx. rewrite Hk. now apply in_map.
    + apply (Hs c); [now right | exact Hin].
Qed.

(** Dropping conditions leaves the keys of the others distinct. *)
Lemma filter_keys (keep : Condition -> bool) (conds : list Condition) :
  NoDup (map IRJson.ofCondition conds) ->
  NoDup (map IRJson.ofCondition (filter keep conds)).
Proof.
  intros Hnd. induction conds as [|c r IH]; cbn [filter map] in *; [exact Hnd|].
  inversion Hnd as [|? ? Hc Hr]; subst.
  destruct (keep c); [|now apply IH].
  cbn [map]. constructor; [|now apply IH].
  intros Hin. apply Hc. apply in_map_iff in Hin. destruct Hin as (y & Hy & Hin).
  apply filter_In in Hin. apply in_map_iff. exists y. tauto.
Qed.

Lemma filter_none_negb {A} (p : A -> bool) (l : list A) :
  filter p l = [] -> filter (fun x => negb (p x)) l = l.
Proof.
  induction l as [|x r IH]; simpl; [reflexivity|].
  destruct (p x); [discriminate|]. intros H. simpl. f_equal. now apply IH.
Qed.

Lemma filter_idem {A} (p : A -> bool) (l : list A) : filter p (filter p l) = filter p l.
Proof.
  induction l as [|x r IH]; simpl; [reflexivity|].
  destruct (p x) eqn:E; simpl; rewrite ?E, IH; reflexivity.
Qed.

Lemma canPushDown_joins (c : Condition) (f g : IRFields) :
  joins (query f) = joins (query g) -> canPushDown c f = canPushDown c g.
Proof. intros H. unfold canPushDown, dependsOnJoin. now rewrite H. Qed.

(** What is left of a where-list: duplicates removed, then the conditions
    that can be pushed down removed. *)
Definition settleWhere (f : IRFields) (w : list Condition) : list Condition :=
  filter (fun c => negb (canPushDown c f)) (simplifyConditions [] w).

Lemma settleWhere_idem (f : IRFields) (w : list Condition) :
  settleWhere f (settleWhere f w) = settleWhere f w.
Proof.
  unfold settleWhere. rewrite simplifyConditions_id.
  - apply filter_idem.
  - apply filter_keys, simplifyConditions_keys.
  - intros c _ [].
Qed.

Lemma settleWhere_joins (f g : IRFields) (w : list Condition) :
  joins (query f) = joins (query g) -> settleWhere f w = settleWhere g w.
Proof.
  intros H. unfold settleWhere. apply filter_ext. intros c.
  now rewrite (canPushDown_joins c f g H).
Qed.

Lemma reorderF_no_joins (f : IRFields) : joinCount f = 0%nat -> reorderF f = f.
Proof. intros H. unfold reorderF. now rewrite H. Qed.

Lemma no_joins_map (f : IRFields) (g : JoinSpec -> JoinSpec) :
  joinCount f = 0%nat -> option_map (map g) (joins (query f)) = joins (query f).
Proof.
  unfold joinCount. destruct (joins (query f)) as [[|j r]|]; simpl; try reflexivity.
  discriminate.
Qed.

Lemma query_pushF' (f : IRFields) :
  joinCount f = 0%nat ->
  query (pushF' f)
  = setWhere (query f)
             (option_map (filter (fun c => negb (canPushDown c f))) (where_ (query f))).
Proof.
  intros Hj. unfold pushF', hasWhere, pushF.
  destruct f as [[fr cols js w g h o l] pc si jm sq].
  unfold joinCount in Hj. cbn [query joins orEmpty] in Hj.
  destruct w as [[|c w]|]; try reflexivity.
  cbv zeta. cbn [orEmpty query where_].
  match goal with
  | |- context [match filter ?p (c :: w) with _ => _ end] =>
      destruct (filter p (c :: w)) as [|p0 ps] eqn:E
  end.
  - cbn [query option_map]. now rewrite (filter_none_negb _ _ E).
  - destruct js as [[|j r]|]; try discriminate Hj; reflexivity.
Qed.

Lemma query_finalF (f : IRFields) :
  joinCount f = 0%nat ->
  query (finalF f) = setWhere (query f) (option_map (settleWhere f) (where_ (query f))).
Proof.
  intros Hj. unfold finalF.
  change (query (indexF ?x)) with (query x).
  rewrite reorderF_no_joins.
  2:{ change (joinCount (pruneF ?x)) with (joinCount x).
      now rewrite joinCount_pushF', joinCount_simplifyF. }
  change (query (pruneF ?x)) with (query x).
  rewrite query_pushF' by now rewrite joinCount_simplifyF.
  unfold simplifyF, settleWhere.
  destruct f as [[fr cols js w g h o l] pc si jm sq].
  destruct w as [w|]; reflexivity.
Qed.

(** *** Computations that leave the cache alone *)

Definition keeps {A} (m : M A) : Prop := forall s, cache (snd (m s)) = cache s.

Lemma keeps_ret {A} (a : A) : keeps (ret a).
Proof. intros s. reflexivity. Qed.

Lemma keeps_lift {A} (x : Outcome A) : keeps (lift x).
Proof. intros s. reflexivity. Qed.

Lemma keeps_cloneIR (f : IRFields) : keeps (cloneIR f).
Proof. intros s. reflexivity. Qed.

Lemma keeps_bind {A B} (m : M A) (k : A -> M B) :
  keeps m -> (forall a, keeps (k a)) -> keeps (bind m k).
Proof.
  intros Hm Hk s. unfold bind. specialize (Hm s).
  destruct (m s) as [[a|e] s1]; simpl in *; [|exact Hm].
  now rewrite Hk.
Qed.

Lemma keeps_forM {A S} (l : list A) (body : S -> A -> M S) :
  (forall acc x, keeps (body acc x)) -> forall acc, keeps (forM l acc body).
Proof.
  intros Hb. induction l as [|x r IH]; intros acc; simpl.
  - apply keeps_ret.
  - apply keeps_bind; [apply Hb | intros a; apply IH].
Qed.

Lemma keeps_generateAlternativeOrders (o : IRObject) : keeps (generateAlternativeOrders o).
Proof.
  unfold generateAlternativeOrders.
  destruct (joins (query (fields o))) as [js|]; [|apply keeps_ret].
  destruct (length js <=? 1)%nat; [apply keeps_ret|].
  apply keeps_forM. intros acc x.
  apply keeps_bind; [apply keeps_cloneIR | intros a; apply keeps_ret].
Qed.

Lemma keeps_generateAlternatives (o : IRObject) : keeps (generateAlternatives o).
Proof.
  unfold generateAlternatives.
  apply keeps_bind.
  - destruct (1 <? joinCount (fields o))%nat; [|apply keeps_ret].
    apply keeps_bind; [apply keeps_generateAlternativeOrders|].
    intros orders. apply keeps_forM. intros acc x.
    apply keeps_bind; [apply keeps_lift | intros a; apply keeps_ret].
  - intros alts. apply keeps_bind.
    + destruct (0 <? joinCount (fields o))%nat; [|apply keeps_ret].
      apply keeps_bind; [apply keeps_cloneIR|]. intros h.
      apply keeps_bind; [apply keeps_lift | intros a; apply keeps_ret].
    + intros alts'. destruct (hasComplexSubqueries (fields o)); [|apply keeps_ret].
      apply keeps_bind; [apply keeps_lift | intros a; apply keeps_ret].
Qed.

Lemma optimize_miss_throws (o : IRObject) (s : State) :
  JsMap.get Key_eq_dec (getKey (fields o)) (cache s) = None ->
  emptyOrder (fields o) = false \/ joinCount (fields o) <> 0%nat ->
  exists e s', optimize log2 o s = (Throws e, s') /\ cache s' = cache s.
Proof.
  intros Hget Hbad. unfold optimize. unfold bind at 1. unfold cacheGet at 1.
  rewrite Hget. fold (afterGet (fields o) s).
  pose proof (passes_run o (afterGet (fields o) s)) as Hp.
  destruct (emptyOrder (fields o)) eqn:Ho.
  - destruct Hbad as [Hbad|Hj]; [discriminate|].
    destruct Hp as (opts & a & k & Hp & _).
    unfold bind at 1. rewrite Hp.
    destruct (selectedIndexes_finalF (fields o)) as [m Hm].
    destruct (@generatePlan_IndexMap (finalF (fields o)) m Hm) as [p Hpl].
    { now rewrite emptyOrder_finalF. }
    unfold bind at 1, lift at 1. cbn [fields]. rewrite Hpl.
    unfold bind at 1.
    pose proof (keeps_generateAlternatives (mkObject a (finalF (fields o)))
                  (bump k (afterGet (fields o) s))) as Hk.
    destruct (generateAlternatives (mkObject a (finalF (fields o)))
                (bump k (afterGet (fields o) s))) as [[alts|e] s2] eqn:Ha.
    + exfalso. revert Ha. apply generateAlternatives_joins.
      * cbn [fields]. now rewrite joinCount_finalF.
      * cbn [fields]. rewrite Hm. discriminate.
    + exists e, s2. split; [reflexivity|]. exact Hk.
  - destruct Hp as [k Hp]. unfold bind at 1. rewrite Hp. eauto.
Qed.

(** *** What the estimated cost depends on *)

Definition costShape (f : IRFields)
  : option (list Condition) * option (list JoinSpec) * option (list ColumnRef)
    * option (list OrderBySpec) :=
  (where_ (query f), joins (query f), groupBy (query f), orderBy (query f)).

Lemma costShape_key (f g : IRFields) : getKey f = getKey g -> costShape f = costShape g.
Proof. unfold getKey, costShape. intros H. injection H as _ _ -> -> -> -> _. reflexivity. Qed.

Lemma estimate_shape (f g : IRFields) :
  costShape f = costShape g -> estimate log2 f = estimate log2 g.
Proof.
  unfold costShape, estimate. intros H. injection H as Hw Hj Hg Ho.
  cbv zeta. rewrite Hw, Hj, Hg, Ho. reflexivity.
Qed.

Lemma joinCount_shape (f g : IRFields) :
  costShape f = costShape g -> joinCount f = joinCount g.
Proof. unfold costShape, joinCount. intros H. injection H as _ -> _ _. reflexivity. Qed.

Lemma emptyOrder_shape (f g : IRFields) :
  costShape f = costShape g -> emptyOrder f = emptyOrder g.
Proof. unfold costShape, emptyOrder. intros H. injection H as _ _ _ ->. reflexivity. Qed.

Lemma costShape_finalF (f : IRFields) :
  joinCount f = 0%nat ->
  costShape (finalF f)
  = (option_map (settleWhere f) (where_ (query f)), joins (query f), groupBy (query f),
     orderBy (query f)).
Proof. intros Hj. unfold costShape. now rewrite query_finalF. Qed.

Lemma costShape_finalF_congr (f g : IRFields) :
  joinCount f = 0%nat -> costShape f = costShape g ->
  costShape (finalF f) = costShape (finalF g).
Proof.
  intros Hj Hs. pose proof (@joinCount_shape f g Hs) as Hjg.
  rewrite !costShape_finalF by congruence.
  unfold costShape in Hs. injection Hs as Hw Hjs Hg Ho.
  rewrite <- Hw, <- Hjs, <- Hg, <- Ho.
  replace (option_map (settleWhere g) (where_ (query f)))
    with (option_map (settleWhere f) (where_ (query f))); [reflexivity|].
  destruct (where_ (query f)); [|reflexivity]. simpl. f_equal.
  now apply settleWhere_joins.
Qed.

Lemma costShape_finalF_idem (f : IRFields) :
  joinCount f = 0%nat -> costShape (finalF (finalF f)) = costShape (finalF f).
Proof.
  intros Hj.
  rewrite (costShape_finalF (finalF f)) by now rewrite joinCount_finalF.
  rewrite costShape_finalF by exact Hj.
  rewrite !query_finalF by exact Hj. cbn [where_ joins groupBy orderBy setWhere].
  replace (option_map (settleWhere (finalF f)) (option_map (settleWhere f) (where_ (query f))))
    with (option_map (settleWhere f) (where_ (query f))); [reflexivity|].
  destruct (where_ (query f)) as [w|]; [|reflexivity]. simpl. f_equal.
  rewrite (@settleWhere_joins (finalF f) f).
  - symmetry. apply settleWhere_idem.
  - now rewrite query_finalF.
Qed.

(** *** The cache holds results of runs *)

(** [r] is what a run of the passes on an IR with the key [k] returns. *)
Definition Computed (k : Key) (r : OptimizationResult) : Prop :=
  exists f, getKey f = k /\ emptyOrder f = true /\ joinCount f = 0%nat
            /\ fields (optimizedIR r) = finalF f
            /\ estimatedCost r = estimate log2 (finalF f).

Definition CacheSound (s : State) : Prop :=
  Forall (fun kr => Computed (fst kr) (snd kr)) (cache s).

Lemma get_In {V} (k : Key) (v : V) (m : list (Key * V)) :
  JsMap.get Key_eq_dec k m = Some v -> In (k, v) m.
Proof.
  induction m as [|[k' v'] r IH]; simpl; [discriminate|].
  destruct (Key_eq_dec k k') as [->|_].
  - intros H; injection H as ->. now left.
  - intros H. right. now apply IH.
Qed.

Lemma set_In {V} (k : Key) (v : V) (m : list (Key * V)) (x : Key * V) :
  In x (JsMap.set Key_eq_dec k v m) -> x = (k, v) \/ In x m.
Proof.
  induction m as [|[k' v'] r IH]; simpl.
  - intros [<-|[]]. now left.
  - destruct (Key_eq_dec k k') as [->|_]; simpl.
    + intros [<-|H]; [now left | right; now right].
    + intros [<-|H]; [right; now left|].
      apply IH in H. destruct H as [->|H]; [now left | right; now right].
Qed.

Lemma cacheInsert_In (k : Key) (r : OptimizationResult)
  (c : list (Key * OptimizationResult)) (x : Key * OptimizationResult) :
  In x (cacheInsert k r c) -> x = (k, r) \/ In x c.
Proof.
  unfold cacheInsert. intros H. apply (@set_In _ k r c x).
  destruct (1000 <? length (JsMap.set Key_eq_dec k r c))%nat; [|exact H].
  destruct (JsMap.set Key_eq_dec k r c); [destruct H | now right].
Qed.

Lemma CacheSound_fresh : CacheSound freshState.
Proof. constructor. Qed.

Lemma CacheSound_get (s : State) (k : Key) (r : OptimizationResult) :
  CacheSound s -> JsMap.get Key_eq_dec k (cache s) = Some r -> Computed k r.
Proof.
  intros Hs Hg. apply get_In in Hg. unfold CacheSound in Hs.
  rewrite Forall_forall in Hs. exact (Hs _ Hg).
Qed.

(** Every call leaves the cache sound, and what a call returns is the
    result of a run. *)
Lemma optimize_sound (o : IRObject) (s : State) :
  CacheSound s ->
  CacheSound (snd (optimize log2 o s)) /\
  forall r, fst (optimize log2 o s) = Returns r -> exists k, Computed k r.
Proof.
  intros Hs.
  destruct (JsMap.get Key_eq_dec (getKey (fields o)) (cache s)) as [r0|] eqn:Hget.
  - rewrite (optimize_hit o s Hget). cbn [fst snd]. split; [exact Hs|].
    intros r H; injection H as <-. eauto using CacheSound_get.
  - destruct (emptyOrder (fields o)) eqn:Ho;
      [destruct (Nat.eq_dec (joinCount (fields o)) 0) as [Hj|Hj]|].
    + destruct (optimize_miss_runs o s Hget Ho Hj) as (r & k & Hrun & Hf & Hc & _).
      rewrite Hrun. cbn [fst snd].
      assert (Computed (getKey (fields o)) r) as Hcomp
        by (exists (fields o); auto).
      split.
      * unfold CacheSound. cbn [cache]. apply Forall_forall. intros x Hx.
        apply cacheInsert_In in Hx. destruct Hx as [->|Hx]; [exact Hcomp|].
        unfold CacheSound in Hs. rewrite Forall_forall in Hs. now apply Hs.
      * intros r' H; injection H as <-. eauto.
    + destruct (optimize_miss_throws o s Hget (or_intror Hj)) as (e & s' & Hrun & Hc).
      rewrite Hrun. cbn [fst snd]. split; [|discriminate].
      unfold CacheSound. now rewrite Hc.
    + destruct (optimize_miss_throws o s Hget (or_introl Ho)) as (e & s' & Hrun & Hc).
      rewrite Hrun. cbn [fst snd]. split; [|discriminate].
      unfold CacheSound. now rewrite Hc.
Qed.

(** The states an optimizer can be in: the new optimizer's, and the state
    any call of [optimize] leaves. *)
Inductive Reachable : State -> Prop :=
| reach_fresh : Reachable freshState
| reach_optimize (o : IRObject) (s : State) :
    Reachable s -> Reachable (snd (optimize log2 o s)).

Lemma Reachable_sound (s : State) : Reachable s -> CacheSound s.
Proof.
  induction 1 as [|o s _ IH]; [apply CacheSound_fresh|].
  now apply optimize_sound.
Qed.

(** C8: from any state an optimizer can be in, when [optimize] returns a
    result, [optimize] on the [optimizedIR] of that result returns too, with
    the very same [estimatedCost]: re-optimizing yields no cost reduction. *)
Theorem reoptimizing_yields_no_cost_reduction (s s1 : State) (ir : IRObject)
  (r1 : OptimizationResult) :
  Reachable s ->
  optimize log2 ir s = (Returns r1, s1) ->
  exists r2 s2,
    optimize log2 (optimizedIR r1) s1 = (Returns r2, s2)
    /\ estimatedCost r2 = estimatedCost r1
    /\ ~ (estimatedCost r2 < estimatedCost r1).
Proof.
  intros Hreach Hrun. apply Reachable_sound in Hreach.
  destruct (optimize_sound ir Hreach) as [Hs1 Hr1]. rewrite Hrun in Hs1, Hr1.
  cbn [fst snd] in Hs1, Hr1.
  destruct (Hr1 r1 eq_refl) as (k & f0 & _ & Ho & Hj & Hf & Hc).
  set (o1 := optimizedIR r1) in *.
  assert (emptyOrder (fields o1) = true) as Ho1 by now rewrite Hf, emptyOrder_finalF.
  assert (joinCount (fields o1) = 0%nat) as Hj1 by now rewrite Hf, joinCount_finalF.
  assert (forall r2 s2, optimize log2 o1 s1 = (Returns r2, s2) ->
                        estimatedCost r2 = estimate log2 (finalF (fields o1)) ->
                        exists r2 s2,
                          optimize log2 o1 s1 = (Returns r2, s2)
                          /\ estimatedCost r2 = estimatedCost r1
                          /\ ~ (estimatedCost r2 < estimatedCost r1)) as Hfin.
  { intros r2 s2 Hrun2 Hc2. exists r2, s2. split; [exact Hrun2|].
    assert (estimatedCost r2 = estimatedCost r1) as Heq.
    { rewrite Hc2, Hc, Hf. apply estimate_shape. now apply costShape_finalF_idem. }
    split; [exact Heq|]. rewrite Heq. apply Qlt_irrefl. }
  destruct (JsMap.get Key_eq_dec (getKey (fields o1)) (cache s1)) as [r2|] eqn:Hget.
  - pose proof (CacheSound_get _ Hs1 Hget) as (f' & Hk & Ho' & Hj' & Hf' & Hc').
    apply (Hfin r2 _ (optimize_hit o1 s1 Hget)).
    rewrite Hc'. apply estimate_shape. apply costShape_finalF_congr; [exact Hj'|].
    now apply costShape_key.
  - destruct (optimize_miss_runs o1 s1 Hget Ho1 Hj1) as (r2 & k2 & Hrun2 & _ & Hc2 & _).
    exact (Hfin r2 _ Hrun2 Hc2).
Qed.

(** C2 (amended): whatever the number [n >= 2] of joins, the join
    optimizer builds all [n!] permutations of the join list, clones the IR and
    estimates the cost once per permutation ([n! + 1] objects allocated), and
    returns the joins in the input order; no cap and no greedy ordering is
    involved. *)
Theorem join_reordering_is_exhaustive (ir : IRObject) (js : list JoinSpec) (s : State) :
  joins (query (fields ir)) = Some js ->
  (1 < length js)%nat ->
  length (generateJoinOrders js) = fact (length js)
  /\ Forall (Permutation js) (generateJoinOrders js)
  /\ exists out s',
       JoinOptimizer_optimize log2 ir s = (Returns out, s')
       /\ nextAddr s' = (fact (length js) + 1 + nextAddr s)%nat
       /\ joins (query (fields out)) = Some js.
Proof.
  intros Hj Hl. split; [apply generateJoinOrders_length|].
  split; [apply generateJoinOrders_perm|].
  rewrite (JoinOptimizer_optimize_run ir s Hj Hl).
  do 2 eexists. split; [reflexivity|]. split; [|reflexivity].
  cbn [nextAddr bump]. clear. lia.
Qed.

(** Support for C3: on every run that is computed (no cache entry, no
    joins, no order-by entries) the passes reported are those of [reported],
    which holds constant folding, column pruning and index selection whatever
    the IR is. *)
Lemma computed_run_reports (o : IRObject) (s : State) :
  JsMap.get Key_eq_dec (getKey (fields o)) (cache s) = None ->
  emptyOrder (fields o) = true -> joinCount (fields o) = 0%nat ->
  exists r s',
    optimize log2 o s = (Returns r, s')
    /\ In CONSTANT_FOLDING (map opt_type (optimizations r))
    /\ In COLUMN_PRUNING (map opt_type (optimizations r))
    /\ In INDEX_SELECTION (map opt_type (optimizations r)).
Proof.
  intros Hget Ho Hj.
  destruct (optimize_miss_runs o s Hget Ho Hj) as (r & k & Hrun & _ & _ & Hrep).
  exists r. eexists. split; [exact Hrun|]. rewrite Hrep. unfold reported.
  cbn [app]. split; [now left|]. split.
  - right. apply in_or_app. right. now left.
  - right. apply in_or_app. right. right. apply in_or_app. right. now left.
Qed.

End Facts.

(** *** Concrete runs *)

(** A stand-in for [Math.log2] in concrete runs: the logarithm of the integer
    part, rounded down. *)
Definition floorLog2 (x : Q) : Q := inject_Z (Z.log2 (Qfloor x)).

Definition joinTo (t : string) : JoinSpec :=
  mkJoinSpec inner (ref "orders" "id") (ref t "order_id") None.

Definition fiveJoins : list JoinSpec :=
  [joinTo "a"; joinTo "b"; joinTo "c"; joinTo "d"; joinTo "e"].

Definition fiveJoinIR : IRObject :=
  mkObject 0 (ofQuery (mkIR "orders" [PCol (ref "orders" "id")] (Some fiveJoins)
                            None None None None None)).

(** C2, as stated, fails: with five joins the step goes through all
    [5! = 120] orders (120 clones and cost estimates, then the final clone)
    and returns the input order. *)
Lemma five_joins_searched_exhaustively :
  length fiveJoins = 5%nat
  /\ length (generateJoinOrders fiveJoins) = 120%nat
  /\ nextAddr (snd (JoinOptimizer_optimize floorLog2 fiveJoinIR freshState)) = 121%nat
  /\ match fst (JoinOptimizer_optimize floorLog2 fiveJoinIR freshState) with
     | Returns out => joins (query (fields out)) = Some fiveJoins
     | Throws _ => False
     end.
Proof. vm_compute. repeat split. Qed.

Lemma join_reordering_is_exhaustive_witness :
  length (generateJoinOrders (firstn 3 fiveJoins)) = 6%nat.
Proof.
  exact (proj1 (@join_reordering_is_exhaustive floorLog2
                  (mkObject 0 (ofQuery (mkIR "orders" [] (Some (firstn 3 fiveJoins))
                                             None None None None None)))
                  (firstn 3 fiveJoins) freshState eq_refl
                  ltac:(vm_compute; lia))).
Defined.

Definition plainIR : SelectQueryIR :=
  mkIR "orders" [PCol (ref "orders" "id")] None None None None None None.

(** C3 fails on the code: for an IR no pass can alter, [optimize] hands back
    the very same query and still reports three passes, each with a cost
    reduction of zero. *)
Theorem unchanged_ir_reports_three_passes (log2 : Q -> Q) :
  exists r s,
    optimize log2 (mkObject 0 (ofQuery plainIR)) freshState = (Returns r, s)
    /\ query (fields (optimizedIR r)) = plainIR
    /\ map opt_type (optimizations r)
       = [CONSTANT_FOLDING; COLUMN_PRUNING; INDEX_SELECTION]
    /\ Forall (fun a => costReduction a == 0) (optimizations r).
Proof.
  do 2 eexists. split; [vm_compute; reflexivity|].
  split; [reflexivity|]. split; [reflexivity|].
  repeat constructor.
Qed.

Definition duplicateFilterIR : IRObject :=
  let c := mkCondition (LhsColumn (ref "orders" "status")) OpEq (RhsValue (JStr "open")) in
  mkObject 0 (ofQuery (mkIR "orders" [PCol (ref "orders" "id")] None (Some [c; c])
                            (Some [ref "orders" "status"]) None None (Some 10%Z))).

Lemma reoptimizing_yields_no_cost_reduction_witness :
  exists r1 s1 r2 s2,
    optimize floorLog2 duplicateFilterIR freshState = (Returns r1, s1)
    /\ optimize floorLog2 (optimizedIR r1) s1 = (Returns r2, s2)
    /\ estimatedCost r2 = estimatedCost r1.
Proof.
  destruct (optimize floorLog2 duplicateFilterIR freshState) as [[r1|e] s1] eqn:E;
    [|vm_compute in E; discriminate].
  destruct (@reoptimizing_yields_no_cost_reduction floorLog2 freshState s1
              duplicateFilterIR r1 (reach_fresh floorLog2) E)
    as (r2 & s2 & Hrun & Heq & _).
  exists r1, s1, r2, s2. auto.
Defined.

End AdvancedFacts.

(** * Further properties of the code *)

Module QuotingFacts.
Import Generator.

(** *** Quoting *)

Definition doubled (c : ascii) : string := String c (String c EmptyString).

Lemma escaped_inj (c : ascii) :
  forall s1 s2,
    Js.replaceAll c (doubled c) s1 ++ String c EmptyString
    = Js.replaceAll c (doubled c) s2 ++ String c EmptyString ->
    s1 = s2.
Proof.
  induction s1 as [|a r1 IH]; intros [|b r2]; cbn [Js.replaceAll]; intros H.
  - reflexivity.
  - exfalso. destruct (Ascii.eqb b c) eqn:E; cbn in H; inversion H; subst.
    now rewrite Ascii.eqb_refl in E.
  - exfalso. destruct (Ascii.eqb a c) eqn:E; cbn in H; inversion H; subst.
    now rewrite Ascii.eqb_refl in E.
  - destruct (Ascii.eqb a c) eqn:Ea, (Ascii.eqb b c) eqn:Eb; cbn in H;
      inversion H; subst; rewrite ?Ascii.eqb_refl in *; try discriminate.
    + apply Ascii.eqb_eq in Ea, Eb. subst. f_equal. now apply IH.
    + f_equal. now apply IH.
Qed.

Lemma q_star (ident : string) (dialect : SqlDialect) :
  q ident dialect = "*" -> ident = "*".
Proof.
  unfold q. destruct (String.eqb ident "*") eqn:E; [now apply String.eqb_eq in E|].
  destruct dialect; discriminate.
Qed.

(** X1: quoting keeps identifiers apart.  In each dialect two different
    identifiers get two different quoted texts, whatever quote characters
    they contain: the quote character is doubled inside, and only [*] is
    left bare. *)
Theorem q_keeps_identifiers_apart (dialect : SqlDialect) (s1 s2 : string) :
  s1 <> s2 -> q s1 dialect <> q s2 dialect.
Proof.
  intros Hne H. apply Hne.
  destruct (String.eqb s1 "*") eqn:E1.
  - apply String.eqb_eq in E1. subst s1. symmetry. apply (@q_star s2 dialect). now rewrite <- H.
  - destruct (String.eqb s2 "*") eqn:E2.
    + apply String.eqb_eq in E2. subst s2. apply (@q_star s1 dialect). now rewrite H.
    + unfold q in H. rewrite E1, E2 in H.
      destruct dialect; cbn in H; injection H as H; now apply escaped_inj in H.
Qed.

Lemma q_keeps_identifiers_apart_witness :
  q ("a" ++ Js.dquote ++ "b") postgres <> q ("a" ++ Js.dquote ++ Js.dquote ++ "b") postgres.
Proof. apply q_keeps_identifiers_apart. intros H. vm_compute in H. discriminate H. Defined.

End QuotingFacts.

Module DialectFacts.
Import Generator.

Lemma mapO_ext_in {A B} (f g : A -> Outcome B) (l : list A) :
  (forall x, In x l -> f x = g x) -> mapO f l = mapO g l.
Proof.
  induction l as [|x r IH]; intros H; simpl; [reflexivity|].
  rewrite (H x) by now left. rewrite IH; [reflexivity|].
  intros y Hy. apply H. now right.
Qed.

Lemma emitCondition_plain (w : Condition) :
  IntentFacts.hasIntervalDays w = false ->
  emitCondition w postgres = emitCondition w sqlite.
Proof.
  unfold IntentFacts.hasIntervalDays, emitCondition. 
  destruct (rhs w) as [c|v|vs|lo hi| |e [n|]]; try discriminate; reflexivity.
Qed.

(** X2: the postgres and the sqlite dialect differ in relative dates only.
    An IR none of whose where-conditions carries [intervalDays] gets the same
    outcome, text or exception, in both. *)
Theorem postgres_is_sqlite_but_for_intervals (ir : SelectQueryIR) :
  forallb (fun w => negb (IntentFacts.hasIntervalDays w)) (orEmpty (where_ ir)) = true ->
  generateSQL ir postgres = generateSQL ir sqlite.
Proof.
  intros H. rewrite forallb_forall in H.
  unfold generateSQL, parts, clauses.
  rewrite (@mapO_ext_in _ _ (fun w => emitCondition w postgres)
                        (fun w => emitCondition w sqlite)); [reflexivity|].
  intros w Hw. apply emitCondition_plain. apply negb_true_iff. now apply H.
Qed.

Definition openOrdersIR : SelectQueryIR :=
  mkIR "orders" [PCol (ref "orders" "id")] None
       (Some [mkCondition (LhsColumn (ref "orders" "status")) OpEq (RhsValue (JStr "open"))])
       None None None (Some 5%Z).

Lemma postgres_is_sqlite_but_for_intervals_witness :
  generateSQL openOrdersIR postgres = generateSQL openOrdersIR sqlite.
Proof. exact (@postgres_is_sqlite_but_for_intervals openOrdersIR eq_refl). Defined.

End DialectFacts.

Module OptimizerLaws.
Import Optimizer OptimizerFacts.

Lemma ensureSelected_id (gs : list ColumnRef) (sel : list Projection) :
  (forall g, In g gs -> covered g sel) -> ensureSelected gs sel = sel.
Proof.
  induction gs as [|g r IH]; intros H; simpl; [reflexivity|].
  rewrite (H g) by now left. apply IH. intros g' Hg'. apply H. now right.
Qed.

Lemma dedupe_id (gs : list ColumnRef) :
  forall seen, NoDup (map key gs) -> (forall g, In g gs -> ~ In (key g) seen) ->
               dedupe seen gs = gs.
Proof.
  induction gs as [|g r IH]; intros seen Hnd Hs; simpl; [reflexivity|].
  inversion Hnd as [|? ? Hg Hr]; subst.
  destruct (existsb (String.eqb (key g)) seen) eqn:E.
  - exfalso. apply existsb_exists in E. destruct E as (k & Hk & Heq).
    apply String.eqb_eq in Heq. subst k. apply (Hs g); [now left | exact Hk].
  - f_equal. apply IH; [exact Hr|].
    intros g' Hg' [Hk|Hin].
    + apply Hg. rewrite Hk. now apply in_map.
    + apply (Hs g'); [now right | exact Hin].
Qed.

Lemma dedupe_idem (gs : list ColumnRef) : dedupe [] (dedupe [] gs) = dedupe [] gs.
Proof. apply dedupe_id; [apply dedupe_NoDup | intros g _ []]. Qed.

(** X3: the basic optimizer is idempotent.  A second pass over its own
    output changes nothing. *)
Theorem optimizeIR_idempotent (ir : SelectQueryIR) :
  optimizeIR (optimizeIR ir) = optimizeIR ir.
Proof.
  unfold optimizeIR. cbn [from columns joins where_ groupBy having orderBy limit].
  destruct (groupBy ir) as [[|g gs]|]; try reflexivity.
  rewrite dedupe_idem. f_equal.
  destruct (dedupe [] (g :: gs)) as [|g' gs'] eqn:E; [reflexivity|].
  apply ensureSelected_id. intros x Hx. rewrite <- E in Hx.
  apply dedupe_subset in Hx. destruct Hx as [Hx _].
  now apply ensureSelected_covers.
Qed.

Lemma not_covered_weaken (g : ColumnRef) (l1 l2 : list Projection) :
  existsb (sameColumn g) (l1 ++ l2) = false -> existsb (sameColumn g) l2 = false.
Proof. rewrite existsb_app. intros H. apply orb_false_iff in H. tauto. Qed.

Lemma ensureSelected_shape (gs : list ColumnRef) (sel0 : list Projection) :
  forall pre,
    Forall (fun g => existsb (sameColumn g) sel0 = false) pre ->
    exists added,
      ensureSelected gs (map PCol pre ++ sel0) = (map PCol added ++ sel0)%list
      /\ Forall (fun g => existsb (sameColumn g) sel0 = false) added
      /\ (forall g, In g added -> In g pre \/ In g gs).
Proof.
  induction gs as [|g r IH]; intros pre Hpre; simpl.
  - exists pre. auto.
  - destruct (existsb (sameColumn g) (map PCol pre ++ sel0)) eqn:E.
    + destruct (IH pre Hpre) as (added & H1 & H2 & H3).
      exists added. split; [exact H1|]. split; [exact H2|].
      intros x Hx. destruct (H3 x Hx); auto.
    + destruct (IH (g :: pre)) as (added & H1 & H2 & H3).
      { constructor; [|exact Hpre]. now apply not_covered_weaken in E. }
      exists added. split; [exact H1|]. split; [exact H2|].
      intros x Hx. destruct (H3 x Hx) as [[<-|Hp]|Hr]; auto.
Qed.

(** X4: the basic optimizer removes no projection and moves none.  The
    projected columns of its output are those of the input, in the same
    order, behind the added ones; each added one is a group-by column of the
    input that no plain projection of the input matched. *)
Theorem optimizeIR_keeps_projections (ir : SelectQueryIR) :
  exists added,
    columns (optimizeIR ir) = (map PCol added ++ columns ir)%list
    /\ Forall (fun g => In g (orEmpty (groupBy ir))
                        /\ existsb (sameColumn g) (columns ir) = false) added.
Proof.
  unfold optimizeIR. cbn [columns].
  destruct (groupBy ir) as [[|g gs]|]; try (exists []; split; [reflexivity | constructor]).
  destruct (@ensureSelected_shape (g :: gs) (columns ir) [] (Forall_nil _))
    as (added & H1 & H2 & H3).
  exists added. split; [exact H1|].
  apply Forall_forall. intros x Hx. split.
  - destruct (H3 x Hx) as [[]|H]; exact H.
  - rewrite Forall_forall in H2. now apply H2.
Qed.

End OptimizerLaws.

Module RewriterFacts.
Import JsMath Advanced AdvancedFacts.
Open Scope Q_scope.

(** *** simplify *)





(** *** generateJoinOrders *)

Lemma joinOrders_complete (fuel : nat) :
  forall js p, (length js <= fuel)%nat -> Permutation js p -> In p (joinOrders fuel js).
Proof.
  induction fuel as [|fuel IH]; intros js p Hle Hp; simpl.
  - destruct js; [|simpl in Hle; lia]. apply Permutation_nil in Hp. subst. now left.
  - destruct (length js <=? 1)%nat eqn:E.
    + apply Nat.leb_le in E. left.
      destruct js as [|x [|y r]]; [| |simpl in E; lia].
      * apply Permutation_nil in Hp. now subst.
      * apply Permutation_length_1_inv in Hp. now subst.
    + apply Nat.leb_gt in E.
      destruct p as [|x p'].
      { apply Permutation_sym, Permutation_nil in Hp. subst. simpl in E. lia. }
      assert (In x js) as Hx.
      { eapply Permutation_in; [apply Permutation_sym; exact Hp | now left]. }
      apply In_nth_error in Hx. destruct Hx as [i Hi].
      apply in_flat_map. exists i. split.
      * apply in_seq. split; [lia|]. simpl. apply nth_error_Some. congruence.
      * rewrite Hi. apply in_map. apply IH.
        -- rewrite without_length; [lia|]. apply nth_error_Some. congruence.
        -- apply Permutation_cons_inv with (a := x).
           eapply Permutation_trans; [|exact Hp].
           apply Permutation_sym. now apply nth_error_without.
Qed.

(** X6: the join orders generated are all of them.  Every reordering of the
    join list is among the orders the join optimizer tries. *)
Theorem generateJoinOrders_complete (js p : list JoinSpec) :
  Permutation js p -> In p (generateJoinOrders js).
Proof. apply joinOrders_complete. lia. Qed.

Lemma generateJoinOrders_complete_witness :
  In [joinTo "b"; joinTo "a"] (generateJoinOrders [joinTo "a"; joinTo "b"]).
Proof. apply generateJoinOrders_complete. apply perm_swap. Defined.

(** *** estimateSelectivity *)

Lemma selectivityOf_range (o : ConditionOp) : 0 <= selectivityOf o /\ selectivityOf o <= 1.
Proof. destruct o; cbn; split; lra. Qed.

Lemma selectivity_product (conds : list Condition) :
  forall acc, 0 <= acc /\ acc <= 1 ->
              0 <= fold_left (fun s c => s * selectivityOf (op c)) conds acc
              /\ fold_left (fun s c => s * selectivityOf (op c)) conds acc <= 1.
Proof.
  induction conds as [|c r IH]; intros acc Hacc; simpl; [exact Hacc|].
  apply IH. destruct (selectivityOf_range (op c)) as [H0 H1]. destruct Hacc as [A0 A1].
  split; [apply Qmult_le_0_compat; assumption|].
  setoid_replace 1 with (1 * 1) by reflexivity.
  apply Qmult_le_compat_nonneg; split; assumption.
Qed.

(** X7: the selectivity estimated for a list of conditions is never zero
    and never more than one: it lies between 0.001 and 1. *)
Theorem estimateSelectivity_range (conds : list Condition) :
  0.001 <= estimateSelectivity conds /\ estimateSelectivity conds <= 1.
Proof.
  unfold estimateSelectivity, mathMax.
  destruct (@selectivity_product conds 1) as [H0 H1]; [split; lra|].
  destruct (Qle_bool 0.001 _) eqn:E.
  - apply Qle_bool_iff in E. split; assumption.
  - split; lra.
Qed.

End RewriterFacts.

Module PlanFacts.
Import JsMath Advanced AdvancedFacts.
Open Scope Q_scope.

(** *** generatePlan *)

Lemma joinNodes_throws (f : IRFields) (js : list JoinSpec) :
  forall current e, joinNodes f current js = Throws e -> e = JsTypeError.
Proof.
  induction js as [|j r IH]; intros current e; simpl; [discriminate|].
  unfold joinNode, hasSelectedIndex.
  destruct (selectedIndexes f) as [[m|]|]; cbn [bindO]; try apply IH.
  intros H. now injection H.
Qed.

Lemma generatePlan_throws (f : IRFields) (e : Thrown) :
  generatePlan f = Throws e -> e = JsTypeError.
Proof.
  unfold generatePlan. cbv zeta. unfold hasSelectedIndex at 1.
  destruct (selectedIndexes f) as [[m|]|]; cbn [bindO];
    try (intros H; now injection H);
    (match goal with
     | |- context [joinNodes f ?c ?js] =>
         destruct (joinNodes f c js) as [p|e'] eqn:Hj
     end;
     [ cbn [bindO]; unfold orderColumnNames;
       destruct (orderBy (query f)) as [[|x r]|]; cbn [bindO];
       try discriminate; intros H; now injection H
     | cbn [bindO]; intros H; injection H as <-; now apply joinNodes_throws in Hj ]).
Qed.

(** X8: the plan [generatePlan] returns is flat and its cost is constant.
    The root has the base-table scan as its only child, whatever filters,
    joins, grouping and limit the IR has, and its cost is the 123 of that
    scan. *)
Theorem generatePlan_counts_the_base_scan_only (f : IRFields) (p : QueryPlan) :
  generatePlan f = Returns p ->
  plan_cost p == 123
  /\ exists scan, plan_children p = Some [scan]
                  /\ plan_children scan = None
                  /\ plan_cost scan == 123.
Proof.
  unfold generatePlan. cbv zeta.
  destruct (hasSelectedIndex f (from (query f))) as [idx|e]; cbn [bindO]; [|discriminate].
  match goal with
  | |- context [joinNodes f ?c ?js] => destruct (joinNodes f c js) as [cur|e]
  end; cbn [bindO]; [|discriminate].
  destruct (orderColumnNames (orderBy (query f))) as [ord|e]; cbn [bindO]; [|discriminate].
  intros H. injection H as <-. cbn [plan_cost plan_children].
  split; [vm_compute; reflexivity|].
  eexists. split; [reflexivity|]. split; [reflexivity|]. vm_compute. reflexivity.
Qed.

(** A query with a filter, a join, a grouping and a limit. *)
Definition busyQuery : IRFields :=
  ofQuery (mkIR "orders" [PCol (ref "orders" "id")] (Some [joinTo "items"])
                (Some [mkCondition (LhsColumn (ref "orders" "status")) OpEq
                                   (RhsValue (JStr "open"))])
                (Some [ref "orders" "status"]) None None (Some 10%Z)).

Lemma generatePlan_counts_the_base_scan_only_witness :
  exists p, generatePlan busyQuery = Returns p /\ plan_cost p == 123.
Proof.
  destruct (generatePlan busyQuery) as [p|e] eqn:E; [|vm_compute in E; discriminate].
  exists p. split; [reflexivity|].
  exact (proj1 (@generatePlan_counts_the_base_scan_only busyQuery p E)).
Defined.

End PlanFacts.

Module CostFacts.
Import JsMath Advanced AdvancedFacts.
Open Scope Q_scope.

Lemma ofNat_S (n : nat) : ofNat (S n) == ofNat n + 1.
Proof.
  unfold ofNat. rewrite Nat2Z.inj_succ. unfold Z.succ. rewrite inject_Z_plus. reflexivity.
Qed.

Lemma fold_joinCost_sum (js : list JoinSpec) :
  forall c, fold_left (fun c j => c + joinCost j 1000) js c == c + ofNat (length js) * 1000.
Proof.
  induction js as [|j r IH]; intros c; cbn [fold_left length].
  - change (ofNat 0) with 0. lra.
  - rewrite IH, ofNat_S. unfold joinCost. lra.
Qed.

Section Facts.
Variable log2 : Q -> Q.

(** X9: the estimated cost counts and nothing else: 123 for the scan of the
    base table, 0.01 for each where-condition, 1000 for each join, 1 for each
    group-by column and, when [orderBy] is present, even empty, the cost of
    sorting a thousand rows.  Which tables, columns and conditions the IR
    names, and in which order, makes no difference. *)
Theorem estimate_counts (f : IRFields) :
  estimate log2 f
  == 123
     + ofNat (length (orEmpty (where_ (query f)))) * 0.01
     + ofNat (length (orEmpty (joins (query f)))) * 1000
     + ofNat (length (orEmpty (groupBy (query f))))
     + match orderBy (query f) with
       | Some _ => 1000 * log2 1000 * 0.0001
       | None => 0
       end.
Proof.
  unfold estimate. cbv zeta.
  assert (0 + scanCost (from (query f)) == 123) as Hs by (vm_compute; reflexivity).
  set (c0 := 0 + scanCost (from (query f))) in *.
  unfold filterCost, aggregateCost, sortCost.
  destruct (where_ (query f)) as [w|], (joins (query f)) as [js|],
    (groupBy (query f)) as [g|], (orderBy (query f)) as [o|];
    cbn [orEmpty length]; rewrite ?fold_joinCost_sum; change (ofNat 0) with 0;
    rewrite Hs; lra.
Qed.

End Facts.
End CostFacts.

Module CacheFacts.
Import JsMath Advanced AdvancedFacts PlanFacts.
Open Scope Q_scope.

(** *** Computations that only allocate, and the exceptions they raise *)

(** [m] leaves the cache and the hit counts alone, and raises nothing but a
    [TypeError]. *)
Definition tame {A} (m : M A) : Prop :=
  forall s, frequency (snd (m s)) = frequency s
            /\ forall e, fst (m s) = Throws e -> e = JsTypeError.

Lemma tame_ret {A} (a : A) : tame (ret a).
Proof. intros s. split; [reflexivity | discriminate]. Qed.

Lemma tame_lift {A} (x : Outcome A) :
  (forall e, x = Throws e -> e = JsTypeError) -> tame (lift x).
Proof. intros H s. split; [reflexivity | exact H]. Qed.

Lemma tame_cloneIR (f : IRFields) : tame (cloneIR f).
Proof. intros s. split; [reflexivity | discriminate]. Qed.

Lemma tame_bind {A B} (m : M A) (k : A -> M B) :
  tame m -> (forall a, tame (k a)) -> tame (bind m k).
Proof.
  intros Hm Hk s. unfold bind. destruct (Hm s) as [Hf He].
  destruct (m s) as [[a|e] s1]; cbn [fst snd] in *.
  - destruct (Hk a s1) as [Hf' He']. split; [congruence | exact He'].
  - split; [exact Hf|]. intros e0 H. injection H as <-. now apply He.
Qed.

Lemma tame_forM {A S} (l : list A) (body : S -> A -> M S) :
  (forall acc x, tame (body acc x)) -> forall acc, tame (forM l acc body).
Proof.
  intros Hb. induction l as [|x r IH]; intros acc; simpl.
  - apply tame_ret.
  - apply tame_bind; [apply Hb | intros a; apply IH].
Qed.

Lemma tame_alternativeOf (d : string) (tr : list string) (f : IRFields) :
  tame (lift (alternativeOf d tr f)).
Proof.
  apply tame_lift. unfold alternativeOf. intros e.
  destruct (generatePlan f) as [p|e'] eqn:E; cbn [bindO]; [discriminate|].
  intros H; injection H as <-. now apply generatePlan_throws in E.
Qed.

Lemma tame_generateAlternativeOrders (o : IRObject) : tame (generateAlternativeOrders o).
Proof.
  unfold generateAlternativeOrders.
  destruct (joins (query (fields o))) as [js|]; [|apply tame_ret].
  destruct (length js <=? 1)%nat; [apply tame_ret|].
  apply tame_forM. intros acc x.
  apply tame_bind; [apply tame_cloneIR | intros a; apply tame_ret].
Qed.

Lemma tame_generateAlternatives (o : IRObject) : tame (generateAlternatives o).
Proof.
  unfold generateAlternatives.
  apply tame_bind.
  - destruct (1 <? joinCount (fields o))%nat; [|apply tame_ret].
    apply tame_bind; [apply tame_generateAlternativeOrders|].
    intros orders. apply tame_forM. intros acc x.
    apply tame_bind; [apply tame_alternativeOf | intros a; apply tame_ret].
  - intros alts. apply tame_bind.
    + destruct (0 <? joinCount (fields o))%nat; [|apply tame_ret].
      apply tame_bind; [apply tame_cloneIR|]. intros h.
      apply tame_bind; [apply tame_alternativeOf | intros a; apply tame_ret].
    + intros alts'. destruct (hasComplexSubqueries (fields o)); [|apply tame_ret].
      apply tame_bind; [apply tame_alternativeOf | intros a; apply tame_ret].
Qed.

Lemma emptyOrder_iff (f : IRFields) :
  emptyOrder f = true <-> orEmpty (orderBy (query f)) = [].
Proof.
  unfold emptyOrder. destruct (orderBy (query f)) as [[|x r]|]; simpl; split;
    intros H; try reflexivity; discriminate.
Qed.

Lemma joinCount_iff (f : IRFields) :
  joinCount f = 0%nat <-> orEmpty (joins (query f)) = [].
Proof. unfold joinCount. destruct (orEmpty (joins (query f))); simpl; split; intros H; try reflexivity; discriminate. Qed.

Section Facts.
Variable log2 : Q -> Q.

(** What a call that finds nothing in the cache does to the state when it
    throws: it has counted the call and allocated. *)
Lemma optimize_miss_throws_TypeError (o : IRObject) (s : State) :
  JsMap.get Key_eq_dec (getKey (fields o)) (cache s) = None ->
  emptyOrder (fields o) = false \/ joinCount (fields o) <> 0%nat ->
  exists s', optimize log2 o s = (Throws JsTypeError, s')
             /\ cache s' = cache s
             /\ frequency s' = frequency (afterGet (fields o) s).
Proof.
  intros Hget Hbad. unfold optimize. unfold bind at 1. unfold cacheGet at 1.
  rewrite Hget. fold (afterGet (fields o) s).
  pose proof (passes_run log2 o (afterGet (fields o) s)) as Hp.
  destruct (emptyOrder (fields o)) eqn:Ho.
  - destruct Hbad as [Hbad|Hj]; [discriminate|].
    destruct Hp as (opts & a & k & Hp & _).
    unfold bind at 1. rewrite Hp.
    destruct (selectedIndexes_finalF (fields o)) as [m Hm].
    destruct (@generatePlan_IndexMap (finalF (fields o)) m Hm) as [p Hpl].
    { now rewrite emptyOrder_finalF. }
    unfold bind at 1, lift at 1. cbn [fields]. rewrite Hpl.
    unfold bind at 1.
    pose proof (keeps_generateAlternatives (mkObject a (finalF (fields o)))
                  (bump k (afterGet (fields o) s))) as Hk.
    destruct (tame_generateAlternatives (mkObject a (finalF (fields o)))
                (bump k (afterGet (fields o) s))) as [Hf He].
    destruct (generateAlternatives (mkObject a (finalF (fields o)))
                (bump k (afterGet (fields o) s))) as [[alts|e'] s2] eqn:Ha.
    + exfalso. revert Ha. apply generateAlternatives_joins.
      * cbn [fields]. now rewrite joinCount_finalF.
      * cbn [fields]. rewrite Hm. discriminate.
    + cbn [fst snd] in *. rewrite (He e' eq_refl). exists s2. auto.
  - destruct Hp as [k Hp]. unfold bind at 1. rewrite Hp.
    exists (bump k (afterGet (fields o) s)). auto.
Qed.

(** X10: on a query that is not in the cache [optimize] returns a result
    exactly when the query has no join and no order-by entry; with either it
    throws a [TypeError]. *)
Theorem optimize_throws_on_joins_and_order_by (o : IRObject) (s : State) :
  JsMap.get Key_eq_dec (getKey (fields o)) (cache s) = None ->
  (orEmpty (joins (query (fields o))) = [] /\ orEmpty (orderBy (query (fields o))) = [] ->
   exists r s', optimize log2 o s = (Returns r, s'))
  /\ (orEmpty (joins (query (fields o))) <> [] \/ orEmpty (orderBy (query (fields o))) <> [] ->
      exists s', optimize log2 o s = (Throws JsTypeError, s')).
Proof.
  intros Hget. split.
  - intros [Hj Ho]. apply joinCount_iff in Hj. apply emptyOrder_iff in Ho.
    destruct (optimize_miss_runs log2 o s Hget Ho Hj) as (r & k & Hrun & _).
    eauto.
  - intros Hbad.
    destruct (@optimize_miss_throws_TypeError o s Hget) as (s' & Hrun & _).
    + destruct Hbad as [Hj|Ho].
      * right. now rewrite joinCount_iff.
      * left. destruct (emptyOrder (fields o)) eqn:E; [|reflexivity].
        apply emptyOrder_iff in E. contradiction.
    + eauto.
Qed.

End Facts.

Lemma optimize_throws_on_joins_and_order_by_witness :
  exists s', optimize floorLog2 (mkObject 0 busyQuery) freshState = (Throws JsTypeError, s').
Proof.
  apply (proj2 (@optimize_throws_on_joins_and_order_by floorLog2 (mkObject 0 busyQuery)
                  freshState eq_refl)).
  left. discriminate.
Defined.

End CacheFacts.

Module CacheLaws.
Import JsMath Advanced AdvancedFacts PlanFacts CacheFacts.
Open Scope Q_scope.

(** *** Maps *)

Section MapLaws.
Variables (K V : Type).
Variable K_eq_dec : forall x y : K, {x = y} + {x <> y}.

Lemma get_set_same (k : K) (v : V) (m : list (K * V)) :
  JsMap.get K_eq_dec k (JsMap.set K_eq_dec k v m) = Some v.
Proof.
  induction m as [|[k' v'] r IH]; simpl.
  - destruct (K_eq_dec k k); [reflexivity | contradiction].
  - destruct (K_eq_dec k k') as [E|E]; simpl.
    + destruct (K_eq_dec k k); [reflexivity | contradiction].
    + destruct (K_eq_dec k k'); [contradiction | exact IH].
Qed.

Lemma get_set_other (k k' : K) (v : V) (m : list (K * V)) :
  k' <> k -> JsMap.get K_eq_dec k' (JsMap.set K_eq_dec k v m) = JsMap.get K_eq_dec k' m.
Proof.
  intros Hne. induction m as [|[k0 v0] r IH]; simpl.
  - destruct (K_eq_dec k' k); [contradiction | reflexivity].
  - destruct (K_eq_dec k k0) as [E|E]; simpl.
    + subst k0. destruct (K_eq_dec k' k); [contradiction | reflexivity].
    + destruct (K_eq_dec k' k0); [reflexivity | exact IH].
Qed.

Lemma set_absent (k : K) (v : V) (m : list (K * V)) :
  JsMap.get K_eq_dec k m = None -> JsMap.set K_eq_dec k v m = (m ++ [(k, v)])%list.
Proof.
  induction m as [|[k' v'] r IH]; simpl; [reflexivity|].
  destruct (K_eq_dec k k'); [discriminate|]. intros H. now rewrite IH.
Qed.

Lemma get_app_absent (k : K) (v : V) (m : list (K * V)) :
  JsMap.get K_eq_dec k m = None -> JsMap.get K_eq_dec k (m ++ [(k, v)]) = Some v.
Proof.
  induction m as [|[k' v'] r IH]; simpl.
  - destruct (K_eq_dec k k); [reflexivity | contradiction].
  - destruct (K_eq_dec k k'); [discriminate | exact IH].
Qed.

Lemma length_set (k : K) (v : V) (m : list (K * V)) :
  (length (JsMap.set K_eq_dec k v m) <= S (length m))%nat.
Proof.
  induction m as [|[k' v'] r IH]; simpl; [lia|].
  destruct (K_eq_dec k k'); simpl; lia.
Qed.

End MapLaws.

Lemma cacheInsert_get (k : Key) (r : OptimizationResult) (c : list (Key * OptimizationResult)) :
  JsMap.get Key_eq_dec k c = None ->
  JsMap.get Key_eq_dec k (cacheInsert k r c) = Some r.
Proof.
  intros Hget. unfold cacheInsert. rewrite (set_absent Key_eq_dec k r c Hget).
  destruct (1000 <? length (c ++ [(k, r)]))%nat eqn:E;
    [|now apply get_app_absent].
  destruct c as [|[k0 r0] c'].
  - simpl in E. discriminate.
  - cbn [app tl]. apply get_app_absent.
    simpl in Hget. destruct (Key_eq_dec k k0); [discriminate | exact Hget].
Qed.

Lemma cacheInsert_length (k : Key) (r : OptimizationResult)
  (c : list (Key * OptimizationResult)) :
  (length c <= 1000)%nat -> (length (cacheInsert k r c) <= 1000)%nat.
Proof.
  intros H. unfold cacheInsert.
  pose proof (length_set Key_eq_dec k r c) as Hs.
  destruct (1000 <? length (JsMap.set Key_eq_dec k r c))%nat eqn:E.
  - destruct (JsMap.set Key_eq_dec k r c); simpl in *; lia.
  - apply Nat.ltb_ge in E. exact E.
Qed.

Section Facts.
Variable log2 : Q -> Q.

(** The cache and the hit counts after a call, in all three cases. *)
Lemma optimize_state (o : IRObject) (s : State) :
  frequency (snd (optimize log2 o s)) = frequency (afterGet (fields o) s)
  /\ (cache (snd (optimize log2 o s)) = cache s
      \/ exists r, JsMap.get Key_eq_dec (getKey (fields o)) (cache s) = None
                   /\ fst (optimize log2 o s) = Returns r
                   /\ cache (snd (optimize log2 o s))
                      = cacheInsert (getKey (fields o)) r (cache s)).
Proof.
  destruct (JsMap.get Key_eq_dec (getKey (fields o)) (cache s)) as [r0|] eqn:Hget.
  - rewrite (optimize_hit log2 o s Hget). cbn [snd]. split; [reflexivity | now left].
  - destruct (emptyOrder (fields o)) eqn:Ho;
      [destruct (Nat.eq_dec (joinCount (fields o)) 0) as [Hj|Hj]|].
    + destruct (optimize_miss_runs log2 o s Hget Ho Hj) as (r & k & Hrun & _).
      rewrite Hrun. cbn [fst snd cache frequency]. split; [reflexivity|].
      right. exists r. auto.
    + destruct (@optimize_miss_throws_TypeError log2 o s Hget (or_intror Hj))
        as (s' & Hrun & Hc & Hf).
      rewrite Hrun. cbn [snd]. split; [exact Hf | now left].
    + destruct (@optimize_miss_throws_TypeError log2 o s Hget (or_introl Ho))
        as (s' & Hrun & Hc & Hf).
      rewrite Hrun. cbn [snd]. split; [exact Hf | now left].
Qed.

(** X11: a result, once returned, is what the cache answers.  The next call
    on any IR with the same cache key returns the very same result and leaves
    the cache as it is. *)
Theorem optimize_answers_from_cache (o o' : IRObject) (s s1 : State)
  (r : OptimizationResult) :
  optimize log2 o s = (Returns r, s1) ->
  getKey (fields o') = getKey (fields o) ->
  exists s2, optimize log2 o' s1 = (Returns r, s2) /\ cache s2 = cache s1.
Proof.
  intros Hrun Hk.
  assert (JsMap.get Key_eq_dec (getKey (fields o')) (cache s1) = Some r) as Hhit.
  { rewrite Hk.
    destruct (JsMap.get Key_eq_dec (getKey (fields o)) (cache s)) as [r0|] eqn:Hget.
    - rewrite (optimize_hit log2 o s Hget) in Hrun. injection Hrun as <- <-. exact Hget.
    - destruct (optimize_state o s) as [_ [Hc|(r' & _ & Hr & Hc)]];
        rewrite Hrun in *; cbn [fst snd] in *.
      + exfalso.
        destruct (emptyOrder (fields o)) eqn:Ho;
          [destruct (Nat.eq_dec (joinCount (fields o)) 0) as [Hj|Hj]|].
        * destruct (optimize_miss_runs log2 o s Hget Ho Hj) as (r1 & k & Hrun1 & _).
          rewrite Hrun in Hrun1. injection Hrun1 as -> ->. cbn [cache] in Hc.
          pose proof (@cacheInsert_get _ r1 _ Hget) as Hin. rewrite Hc in Hin. congruence.
        * destruct (@optimize_miss_throws_TypeError log2 o s Hget (or_intror Hj))
            as (s' & Hrun1 & _). congruence.
        * destruct (@optimize_miss_throws_TypeError log2 o s Hget (or_introl Ho))
            as (s' & Hrun1 & _). congruence.
      + injection Hr as <-. rewrite Hc. now apply cacheInsert_get. }
  rewrite (optimize_hit log2 o' s1 Hhit). eexists. split; reflexivity.
Qed.

(** X12: the cache never grows beyond its limit.  In every state an
    optimizer can be in it holds at most 1000 results. *)
Theorem cache_holds_at_most_1000 (s : State) :
  Reachable log2 s -> (length (cache s) <= 1000)%nat.
Proof.
  induction 1 as [|o s _ IH]; [simpl; lia|].
  destruct (optimize_state o s) as [_ [Hc|(r & _ & _ & Hc)]]; rewrite Hc.
  - exact IH.
  - now apply cacheInsert_length.
Qed.

(** X13: every call counts.  Whether [optimize] answers from the cache,
    computes or throws, the hit count of the argument's cache key goes up by
    one and no other count moves. *)
Theorem optimize_counts_every_call (o : IRObject) (s : State) :
  let count k st :=
    match JsMap.get Key_eq_dec k (frequency st) with Some n => n | None => O end in
  let s' := snd (optimize log2 o s) in
  count (getKey (fields o)) s' = S (count (getKey (fields o)) s)
  /\ forall k, k <> getKey (fields o) ->
               JsMap.get Key_eq_dec k (frequency s') = JsMap.get Key_eq_dec k (frequency s).
Proof.
  cbv zeta. destruct (optimize_state o s) as [Hf _]. rewrite Hf.
  unfold afterGet. cbn [frequency]. split.
  - now rewrite get_set_same.
  - intros k Hk. now apply get_set_other.
Qed.

End Facts.

(** A query with two equal filters and no join. *)
Definition filteredQuery : IRFields :=
  let c := mkCondition (LhsColumn (ref "orders" "status")) OpEq (RhsValue (JStr "open")) in
  ofQuery (mkIR "orders" [PCol (ref "orders" "id")] None (Some [c; c]) None None None
                (Some 10%Z)).

Lemma optimize_answers_from_cache_witness :
  exists r s1 s2,
    optimize floorLog2 (mkObject 0 filteredQuery) freshState = (Returns r, s1)
    /\ optimize floorLog2 (mkObject 7 filteredQuery) s1 = (Returns r, s2)
    /\ cache s2 = cache s1.
Proof.
  destruct (optimize floorLog2 (mkObject 0 filteredQuery) freshState) as [[r|e] s1] eqn:E;
    [|vm_compute in E; discriminate].
  destruct (@optimize_answers_from_cache floorLog2 (mkObject 0 filteredQuery)
              (mkObject 7 filteredQuery) freshState s1 r E eq_refl) as (s2 & H & Hc).
  exists r, s1, s2. auto.
Defined.

Lemma cache_holds_at_most_1000_witness :
  (length (cache (snd (optimize floorLog2 (mkObject 0 filteredQuery) freshState))) <= 1000)%nat.
Proof.
  apply (@cache_holds_at_most_1000 floorLog2).
  apply reach_optimize, reach_fresh.
Defined.

Lemma optimize_counts_every_call_witness :
  JsMap.get Key_eq_dec (getKey busyQuery)
            (frequency (snd (optimize floorLog2 (mkObject 0 filteredQuery) freshState)))
  = None.
Proof.
  apply (proj2 (optimize_counts_every_call floorLog2 (mkObject 0 filteredQuery) freshState)).
  discriminate.
Defined.

End CacheLaws.

Module PassFacts.
Import JsMath Advanced AdvancedFacts PlanFacts CacheFacts.
Open Scope Q_scope.

(** *** pruneColumns *)

Lemma add_In (n : string) (s : list string) : In n (JsMap.add string_dec n s).
Proof.
  unfold JsMap.add. destruct (in_dec string_dec n s); [assumption|].
  apply in_or_app. right. now left.
Qed.

Lemma add_keeps (n m : string) (s : list string) : In m s -> In m (JsMap.add string_dec n s).
Proof.
  unfold JsMap.add. destruct (in_dec string_dec n s); [auto|].
  intros H. apply in_or_app. now left.
Qed.

Lemma add_NoDup (n : string) (s : list string) : NoDup s -> NoDup (JsMap.add string_dec n s).
Proof.
  unfold JsMap.add. destruct (in_dec string_dec n s) as [|Hn]; [auto|].
  intros H. apply NoDup_app; [exact H | repeat constructor; intros [] |].
  intros x Hx [<-|[]]. contradiction.
Qed.

Lemma addAll_keeps (names : list string) :
  forall s m, In m s -> In m (addAll names s).
Proof.
  induction names as [|n r IH]; intros s m H; simpl; [exact H|].
  apply IH. now apply add_keeps.
Qed.

Lemma addAll_In (names : list string) :
  forall s m, In m names -> In m (addAll names s).
Proof.
  induction names as [|n r IH]; intros s m; simpl; [contradiction|].
  intros [<-|H]; [apply addAll_keeps, add_In | now apply IH].
Qed.

Lemma addAll_NoDup (names : list string) :
  forall s, NoDup s -> NoDup (addAll names s).
Proof.
  induction names as [|n r IH]; intros s H; simpl; [exact H|].
  apply IH. now apply add_NoDup.
Qed.

(** X14: column pruning prunes nothing.  When the IR has order-by entries
    it throws a [TypeError]; otherwise it hands back a new object with the
    query as it was and, in [prunedColumns], a duplicate-free list holding
    the name of every column the projections, the conditions, the joins and
    the group-by list mention. *)
Theorem pruneColumns_keeps_the_query (o : IRObject) (s : State) :
  (orEmpty (orderBy (query (fields o))) <> [] ->
   pruneColumns o s = (Throws JsTypeError, s))
  /\ (orEmpty (orderBy (query (fields o))) = [] ->
      exists o' names,
        pruneColumns o s = (Returns o', bump 1 s)
        /\ addr o' = nextAddr s
        /\ query (fields o') = query (fields o)
        /\ prunedColumns (fields o') = Some names
        /\ NoDup names
        /\ (forall c, In c (columns (query (fields o))) -> In (projectionName c) names)
        /\ (forall w n, In w (orEmpty (where_ (query (fields o)))) ->
                        In n (conditionNames w) -> In n names)
        /\ (forall j, In j (orEmpty (joins (query (fields o)))) ->
                      In (columnName (join_left j)) names
                      /\ In (columnName (join_right j)) names)
        /\ (forall g, In g (orEmpty (groupBy (query (fields o)))) ->
                      In (columnName g) names)).
Proof.
  rewrite pruneColumns_run. split.
  - intros H. destruct (emptyOrder (fields o)) eqn:E; [|reflexivity].
    apply emptyOrder_iff in E. contradiction.
  - intros H. apply emptyOrder_iff in H. rewrite H.
    do 2 eexists. split; [reflexivity|]. split; [reflexivity|].
    split; [reflexivity|]. split; [reflexivity|].
    unfold neededColumns. cbv zeta. cbn [addAll fold_left].
    split; [repeat apply addAll_NoDup; constructor|].
    split; [|split; [|split]].
    + intros c Hc. do 3 apply addAll_keeps. apply addAll_In. now apply in_map.
    + intros w n Hw Hn. do 2 apply addAll_keeps. apply addAll_In.
      apply in_flat_map. eauto.
    + intros j Hj. split; apply addAll_keeps, addAll_In, in_flat_map;
        exists j; (split; [exact Hj|]); simpl; auto.
    + intros g Hg. apply addAll_In. now apply in_map.
Qed.

Definition orderedQuery : IRFields :=
  ofQuery (mkIR "orders" [PCol (ref "orders" "id")] None None None None
                (Some [mkOrderBySpec (ref "orders" "id") None]) None).

Lemma pruneColumns_keeps_the_query_witness :
  pruneColumns (mkObject 0 orderedQuery) freshState = (Throws JsTypeError, freshState).
Proof.
  apply (proj1 (pruneColumns_keeps_the_query (mkObject 0 orderedQuery) freshState)).
  discriminate.
Defined.

(** *** Predicate pushdown inside optimize *)

Lemma canPushDown_without_joins (c : Condition) (f : IRFields) :
  joins (query f) = None ->
  canPushDown c f = match lhs c with LhsColumn _ => true | _ => false end.
Proof.
  intros H. unfold canPushDown, dependsOnJoin, involvesAggregate. rewrite H.
  destruct (lhs c); reflexivity.
Qed.

Section Facts.
Variable log2 : Q -> Q.

(** X15: pushing predicates down loses them when there is nothing to push
    them to.  For a query without joins and order-by entries that is not in
    the cache, the where-list of the optimized IR is the input's without its
    repeated conditions and without every condition [canPushDown] accepts,
    and the joins are the input's; when [joins] is absent, no condition on a
    column is left. *)
Theorem optimize_drops_pushed_predicates (o : IRObject) (s : State) :
  JsMap.get Key_eq_dec (getKey (fields o)) (cache s) = None ->
  orEmpty (joins (query (fields o))) = [] ->
  orEmpty (orderBy (query (fields o))) = [] ->
  exists r s',
    optimize log2 o s = (Returns r, s')
    /\ where_ (query (fields (optimizedIR r)))
       = option_map (fun w => filter (fun c => negb (canPushDown c (fields o)))
                                     (simplifyConditions [] w))
                    (where_ (query (fields o)))
    /\ joins (query (fields (optimizedIR r))) = joins (query (fields o))
    /\ (joins (query (fields o)) = None ->
        forall c col, In c (orEmpty (where_ (query (fields (optimizedIR r))))) ->
                      lhs c <> LhsColumn col).
Proof.
  intros Hget Hj Ho. apply joinCount_iff in Hj. apply emptyOrder_iff in Ho.
  destruct (optimize_miss_runs log2 o s Hget Ho Hj) as (r & k & Hrun & Hf & _).
  exists r. eexists. split; [exact Hrun|].
  rewrite Hf, (query_finalF _ Hj). cbn [where_ joins setWhere].
  split; [reflexivity|]. split; [reflexivity|].
  intros Hnone c col Hin Hl.
  destruct (where_ (query (fields o))) as [w|]; [|contradiction].
  cbn [option_map orEmpty] in Hin. unfold settleWhere in Hin.
  apply filter_In in Hin. destruct Hin as [_ Hc].
  rewrite (canPushDown_without_joins c _ Hnone), Hl in Hc. discriminate.
Qed.

End Facts.

Lemma optimize_drops_pushed_predicates_witness :
  exists r s',
    optimize floorLog2 (mkObject 0 CacheLaws.filteredQuery) freshState = (Returns r, s')
    /\ where_ (query (fields (optimizedIR r))) = Some [].
Proof.
  destruct (@optimize_drops_pushed_predicates floorLog2 (mkObject 0 CacheLaws.filteredQuery)
              freshState eq_refl eq_refl eq_refl) as (r & s' & Hrun & Hw & _).
  exists r, s'. split; [exact Hrun|]. rewrite Hw. reflexivity.
Defined.

End PassFacts.

Module SimilarityFacts.
Import JsMath Recognizer.
Open Scope Q_scope.

(** *** The table of [levenshteinDistance] *)

Lemma levRow_length (c : ascii) (str2 : string) :
  forall prev leftv, length prev = S (String.length str2) ->
                     length (levRow c str2 prev leftv) = String.length str2.
Proof.
  induction str2 as [|d r IH]; intros prev leftv Hl; [reflexivity|].
  destruct prev as [|diag [|up rest]]; simpl in Hl; try lia.
  cbn [levRow length String.length]. f_equal. apply IH. simpl. lia.
Qed.

(** Every entry of a row is at most the larger of its two indices. *)
Lemma levRow_bound (c : ascii) (str2 : string) :
  forall prev leftv i off,
    (forall j v, nth_error prev j = Some v -> (v <= Nat.max i (off + j))%nat) ->
    (leftv <= Nat.max (S i) off)%nat ->
    forall j v, nth_error (levRow c str2 prev leftv) j = Some v ->
                (v <= Nat.max (S i) (S off + j))%nat.
Proof.
  induction str2 as [|d r IH]; intros prev leftv i off Hprev Hleft j v.
  - simpl. destruct j; discriminate.
  - destruct prev as [|diag [|up rest]]; try (destruct j; discriminate).
    cbn [levRow].
    pose proof (Hprev 0%nat diag eq_refl) as Hd.
    pose proof (Hprev 1%nat up eq_refl) as Hu.
    set (v0 := if Ascii.eqb c d then diag else (1 + Nat.min up (Nat.min leftv diag))%nat).
    assert (v0 <= Nat.max (S i) (S off))%nat as Hv0.
    { unfold v0. destruct (Ascii.eqb c d); lia. }
    destruct j as [|j']; cbn [nth_error].
    + intros H; injection H as <-. lia.
    + intros H.
      pose proof (IH (up :: rest) v0 i (S off)) as IH'.
      replace (S off + S j')%nat with (S (S off) + j')%nat by lia.
      apply IH' with (j := j'); [|exact Hv0|exact H].
      intros k w Hk. replace (S off + k)%nat with (off + S k)%nat by lia.
      now apply (Hprev (S k)).
Qed.

Lemma levRows_bound (str1 str2 : string) :
  forall i prev,
    length prev = S (String.length str2) ->
    (forall j v, nth_error prev j = Some v -> (v <= Nat.max i j)%nat) ->
    length (levRows str1 str2 i prev) = S (String.length str2)
    /\ forall j v, nth_error (levRows str1 str2 i prev) j = Some v ->
                   (v <= Nat.max (i + String.length str1) j)%nat.
Proof.
  induction str1 as [|c r IH]; intros i prev Hl Hprev.
  - simpl. split; [exact Hl|]. intros j v H. rewrite Nat.add_0_r. now apply Hprev.
  - cbn [levRows String.length].
    replace (i + S (String.length r))%nat with (S i + String.length r)%nat by lia.
    apply IH.
    + simpl. now rewrite levRow_length.
    + intros [|j] v; cbn [nth_error].
      * intros H; injection H as <-. lia.
      * intros H.
        apply (@levRow_bound c str2 prev (S i) i 0%nat) with (j := j) (v := v) in H.
        -- simpl in H. exact H.
        -- intros k w Hk. simpl. now apply Hprev.
        -- lia.
Qed.

Lemma last_nth_error {A} (l : list A) (d : A) (n : nat) :
  length l = S n -> nth_error l n = Some (last l d).
Proof.
  revert n. induction l as [|x r IH]; intros n Hl; [discriminate|].
  destruct r as [|y r'].
  - simpl in Hl. injection Hl as <-. reflexivity.
  - destruct n as [|n]; [simpl in Hl; lia|].
    change (last (x :: y :: r') d) with (last (y :: r') d).
    cbn [nth_error]. apply IH. simpl in *. lia.
Qed.

Lemma nth_error_seq0 (n j v : nat) : nth_error (seq 0 n) j = Some v -> v = j.
Proof.
  intros H. pose proof H as H'. apply nth_error_nth with (d := O) in H'.
  assert (j < n)%nat as Hj.
  { rewrite <- (length_seq n 0). apply nth_error_Some. congruence. }
  rewrite seq_nth in H' by exact Hj. simpl in H'. congruence.
Qed.

Lemma levenshtein_le_max (str1 str2 : string) :
  (levenshteinDistance str1 str2 <= Nat.max (String.length str1) (String.length str2))%nat.
Proof.
  unfold levenshteinDistance.
  destruct (@levRows_bound str1 str2 0%nat (seq 0 (S (String.length str2)))) as [Hl Hb].
  - apply length_seq.
  - intros j v H. apply nth_error_seq0 in H. lia.
  - apply (Hb (String.length str2)). now apply last_nth_error.
Qed.

(** The diagonal: an entry below equal characters is the entry above and to
    the left of it. *)
Lemma levRow_diagonal (c : ascii) (str2 : string) :
  forall prev leftv k x,
    length prev = S (String.length str2) ->
    String.get k str2 = Some c -> nth_error prev k = Some x ->
    nth_error (levRow c str2 prev leftv) k = Some x.
Proof.
  induction str2 as [|d r IH]; intros prev leftv k x Hl Hg Hx.
  - destruct k; discriminate.
  - destruct prev as [|diag [|up rest]]; simpl in Hl; try lia.
    cbn [levRow]. destruct k as [|k'].
    + simpl in Hg, Hx. injection Hg as ->. injection Hx as ->.
      now rewrite Ascii.eqb_refl.
    + cbn [nth_error]. apply IH; [simpl; lia | exact Hg | exact Hx].
Qed.

Lemma get_middle (pre : string) (c : ascii) (r : string) :
  String.get (String.length pre) (pre ++ String c r) = Some c.
Proof. induction pre as [|a p IH]; [reflexivity | exact IH]. Qed.

Lemma length_app_string (a b : string) :
  String.length (a ++ b) = (String.length a + String.length b)%nat.
Proof. induction a as [|x r IH]; simpl; [reflexivity | now rewrite IH]. Qed.

Lemma app_assoc_string (a b c : string) : (a ++ b) ++ c = a ++ b ++ c.
Proof. induction a as [|x r IH]; simpl; [reflexivity | now rewrite IH]. Qed.

Lemma levRows_diagonal (s : string) :
  forall rest pre prev,
    s = pre ++ rest ->
    length prev = S (String.length s) ->
    nth_error prev (String.length pre) = Some O ->
    nth_error (levRows rest s (String.length pre) prev) (String.length s) = Some O.
Proof.
  induction rest as [|c r IH]; intros pre prev Hs Hl H0.
  - simpl. subst s. rewrite length_app_string. simpl. now rewrite Nat.add_0_r.
  - cbn [levRows].
    specialize (IH (pre ++ String c EmptyString)
                   (S (String.length pre)
                    :: levRow c s prev (S (String.length pre)))).
    rewrite length_app_string in IH. simpl in IH.
    replace (String.length pre + 1)%nat with (S (String.length pre)) in IH by lia.
    apply IH.
    + now rewrite app_assoc_string.
    + now rewrite levRow_length.
    + apply levRow_diagonal; [exact Hl | | exact H0].
      subst s. apply get_middle.
Qed.

Lemma levenshtein_refl (s : string) : levenshteinDistance s s = O.
Proof.
  unfold levenshteinDistance.
  pose proof (@levRows_diagonal s s EmptyString (seq 0 (S (String.length s)))
                eq_refl (length_seq _ _) eq_refl) as H.
  destruct (@levRows_bound s s 0%nat (seq 0 (S (String.length s)))) as [Hl _].
  - apply length_seq.
  - intros j v Hj. apply nth_error_seq0 in Hj. lia.
  - change (String.length EmptyString) with 0%nat in H.
    rewrite (last_nth_error _ O Hl) in H. now injection H.
Qed.

Lemma levenshtein_empty_l (t : string) : levenshteinDistance EmptyString t = String.length t.
Proof.
  unfold levenshteinDistance. cbn [levRows].
  pose proof (@last_nth_error _ (seq 0 (S (String.length t))) O (String.length t)
                (length_seq _ _)) as H.
  apply nth_error_seq0 in H. exact H.
Qed.

Lemma levRows_empty_r (s : string) :
  forall i prev, length prev = 1%nat ->
                 last (levRows s EmptyString i prev) O
                 = match s with
                   | EmptyString => last prev O
                   | _ => (i + String.length s)%nat
                   end.
Proof.
  induction s as [|c r IH]; intros i prev Hl; [reflexivity|].
  cbn [levRows levRow]. rewrite IH by reflexivity.
  destruct r; simpl; lia.
Qed.

Lemma levenshtein_empty_r (s : string) : levenshteinDistance s EmptyString = String.length s.
Proof.
  unfold levenshteinDistance. rewrite levRows_empty_r by reflexivity.
  destruct s; reflexivity.
Qed.

(** X16: the edit distance computed by the fuzzy matcher is zero between a
    string and itself, the length of the other string when one is empty, and
    never more than the longer of the two lengths. *)
Theorem levenshteinDistance_basics (str1 str2 : string) :
  levenshteinDistance str1 str1 = O
  /\ levenshteinDistance str1 EmptyString = String.length str1
  /\ levenshteinDistance EmptyString str2 = String.length str2
  /\ (levenshteinDistance str1 str2
      <= Nat.max (String.length str1) (String.length str2))%nat.
Proof.
  split; [apply levenshtein_refl|]. split; [apply levenshtein_empty_r|].
  split; [apply levenshtein_empty_l | apply levenshtein_le_max].
Qed.

End SimilarityFacts.

Module ScoreFacts.
Import JsMath Recognizer RecognizerFacts SimilarityFacts.
Open Scope Q_scope.

Lemma ofNat_nonneg (n : nat) : 0 <= ofNat n.
Proof. unfold ofNat, Qle. simpl. lia. Qed.

Lemma ofNat_le (a b : nat) : (a <= b)%nat -> ofNat a <= ofNat b.
Proof. intros H. unfold ofNat, Qle. simpl. lia. Qed.

Lemma ofNat_pos (n : nat) : (0 < n)%nat -> 0 < ofNat n.
Proof. intros H. unfold ofNat, Qlt. simpl. lia. Qed.

Lemma ratio_range (d m : nat) :
  (d <= m)%nat -> (0 < m)%nat -> 0 <= ofNat d / ofNat m /\ ofNat d / ofNat m <= 1.
Proof.
  intros Hd Hm. pose proof (ofNat_pos Hm) as Hp. split.
  - apply Qle_shift_div_l; [exact Hp|]. rewrite Qmult_0_l. apply ofNat_nonneg.
  - apply Qle_shift_div_r; [exact Hp|]. rewrite Qmult_1_l. now apply ofNat_le.
Qed.

Lemma mathMin_le_r (x y b : Q) : y <= b -> mathMin x y <= b.
Proof.
  intros H. unfold mathMin. destruct (Qle_bool x y) eqn:E; [|exact H].
  apply Qle_bool_iff in E. now apply Qle_trans with y.
Qed.

Lemma mathMin_nonneg (x y : Q) : 0 <= x -> 0 <= y -> 0 <= mathMin x y.
Proof. unfold mathMin. destruct (Qle_bool x y); auto. Qed.

Lemma prefix_refl (s : string) : String.prefix s s = true.
Proof.
  induction s as [|a r IH]; [reflexivity|]. simpl.
  destruct (ascii_dec a a); [exact IH | contradiction].
Qed.

Lemma calculateSimilarity_le_1 (str1 str2 : string) : calculateSimilarity str1 str2 <= 1.
Proof.
  unfold calculateSimilarity. cbv zeta.
  destruct (Nat.max (String.length str1) (String.length str2) =? 0)%nat eqn:E; [lra|].
  apply Nat.eqb_neq in E.
  destruct (@ratio_range (levenshteinDistance str1 str2)
              (Nat.max (String.length str1) (String.length str2)))
    as [H0 H1]; [apply levenshtein_le_max | lia |].
  destruct (Js.startsWith str2 str1 || Js.startsWith str1 str2).
  - apply mathMin_le_r. lra.
  - lra.
Qed.

(** X17: the similarity of two strings is a score between 0 and 1, and the
    similarity of a string with itself is 1. *)
Theorem calculateSimilarity_range (str1 str2 : string) :
  0 <= calculateSimilarity str1 str2 /\ calculateSimilarity str1 str2 <= 1
  /\ calculateSimilarity str1 str1 == 1.
Proof.
  split; [|split].
  - unfold calculateSimilarity. cbv zeta.
    destruct (Nat.max (String.length str1) (String.length str2) =? 0)%nat eqn:E; [lra|].
    apply Nat.eqb_neq in E.
    destruct (@ratio_range (levenshteinDistance str1 str2)
                (Nat.max (String.length str1) (String.length str2)))
      as [H0 H1]; [apply levenshtein_le_max | lia |].
    destruct (Js.startsWith str2 str1 || Js.startsWith str1 str2).
    + apply mathMin_nonneg; lra.
    + lra.
  - apply calculateSimilarity_le_1.
  - unfold calculateSimilarity. cbv zeta. rewrite levenshtein_refl.
    destruct (Nat.max (String.length str1) (String.length str1) =? 0)%nat eqn:E;
      [reflexivity|].
    unfold Js.startsWith. rewrite prefix_refl. cbn [orb].
    assert (1 - ofNat 0 / ofNat (Nat.max (String.length str1) (String.length str1)) == 1)
      as Hs.
    { change (ofNat 0) with 0. unfold Qdiv. rewrite Qmult_0_l. lra. }
    unfold mathMin.
    destruct (Qle_bool _ 1.0) eqn:Hle; [|reflexivity].
    apply Qle_bool_iff in Hle. rewrite Hs in Hle. lra.
Qed.

Section WithSchema.

Variable DateT : Type.
Variable parseTemporal : string -> option DateT.
Variable schema : SchemaContext.

(** *** Confidence never exceeds 1 *)

Lemma better_score (P : Match DateT -> Prop) (best : option (Match DateT) * Q)
  (cand : Match DateT) :
  P cand -> (forall m, fst best = Some m -> P m) ->
  forall m, fst (better best cand) = Some m -> P m.
Proof.
  intros Hc Hb m. unfold better. destruct (Qltb (snd best) (score cand)); cbn [fst].
  - intros H; injection H as <-. exact Hc.
  - apply Hb.
Qed.

Lemma fold_better {A} (P : Match DateT -> Prop) (mk : A -> Match DateT) (l : list A) :
  (forall x, P (mk x)) ->
  forall best, (forall m, fst best = Some m -> P m) ->
               forall m, fst (fold_left (fun b x => better b (mk x)) l best) = Some m -> P m.
Proof.
  intros Hmk. induction l as [|x r IH]; intros best Hb; simpl; [exact Hb|].
  apply IH. apply better_score; [apply Hmk | exact Hb].
Qed.

Lemma fuzzyMatch_score (text : string) (m : Match DateT) :
  fuzzyMatch DateT schema text = Some m -> score m <= 1.
Proof.
  unfold fuzzyMatch. cbv zeta.
  apply (@fold_better _ (fun m => score m <= 1)).
  { intros x. apply calculateSimilarity_le_1. }
  assert (forall (ts : list TableInfo) (best : option (Match DateT) * Q),
             (forall m : Match DateT, fst best = Some m -> score m <= 1) ->
             forall m : Match DateT,
               fst (fold_left
                      (fun best table_ =>
                         fold_left
                           (fun best column_ =>
                              better best
                                (mkMatch EntityType.COLUMN (col_name column_)
                                   (calculateSimilarity text (Js.toLowerCase (col_name column_)))
                                   (mkMetadata (Some (TableName (name table_)))
                                      (Some column_) None None None None None)))
                           (table_columns table_) best)
                      ts best) = Some m -> score m <= 1) as Hcols.
  { induction ts as [|t r IH]; intros best Hb; simpl; [exact Hb|].
    apply IH.
    apply (@fold_better _ (fun m => score m <= 1)
             (fun column_ =>
                mkMatch EntityType.COLUMN (col_name column_)
                  (calculateSimilarity text (Js.toLowerCase (col_name column_)))
                  (mkMetadata (Some (TableName (name t))) (Some column_) None None
                     None None None))).
    - intros x. apply calculateSimilarity_le_1.
    - exact Hb. }
  apply Hcols.
  apply (@fold_better _ (fun m => score m <= 1)).
  { intros x. apply calculateSimilarity_le_1. }
  intros m0 H. discriminate.
Qed.

Definition atMostOne (e : Entity DateT) : Prop := confidence e <= 1.

Lemma directMatch_atMostOne (token : Token) (e : Entity DateT) :
  directMatch DateT schema token = Some e -> atMostOne e.
Proof.
  unfold directMatch.
  destruct (firstSome _ (tables schema)) as [e'|] eqn:E.
  - intros H; injection H as <-. revert E.
    apply firstSome_prop. intros t z.
    destruct (matches schema (normalized token) (name t)).
    + intros H; injection H as <-. unfold atMostOne. simpl. lra.
    + apply firstSome_prop. intros c z'.
      destruct (matches schema (normalized token) (col_name c)); [|discriminate].
      intros H; injection H as <-. unfold atMostOne. simpl. lra.
  - apply firstSome_prop. intros fn z.
    destruct (matches schema (normalized token) (fn_name fn)); [|discriminate].
    intros H; injection H as <-. unfold atMostOne. simpl. lra.
Qed.

Lemma resolve_atMostOne (token : Token) (allTokens : list Token) (index : nat)
  (context : Context) (e : Entity DateT) :
  resolve DateT schema token allTokens index context = Some e -> atMostOne e.
Proof.
  unfold resolve, atMostOne. cbv zeta.
  repeat match goal with
         | |- context [if ?c then _ else _] => destruct c
         | |- context [match findBestTableMatch ?s ?t ?c with _ => _ end] =>
             destruct (findBestTableMatch s t c)
         | |- context [match findBestColumnMatch ?s ?t ?c with _ => _ end] =>
             destruct (findBestColumnMatch s t c)
         end;
    intros H; try discriminate; injection H as <-; simpl; lra.
Qed.

Lemma recognizeByType_atMostOne (token : Token) (e : Entity DateT) :
  recognizeByType parseTemporal token = Some e -> atMostOne e.
Proof.
  unfold recognizeByType, typed, atMostOne.
  destruct (tok_type token); intros H; try discriminate;
    injection H as <-; simpl; lra.
Qed.

Lemma recognizeEntity_atMostOne (token : Token) (allTokens : list Token) (index : nat)
  (context : Context) (e : Entity DateT) :
  recognizeEntity parseTemporal schema token allTokens index context = Some e ->
  atMostOne e.
Proof.
  unfold recognizeEntity.
  destruct (directMatch DateT schema token) as [d|] eqn:Hd.
  - intros H; injection H as <-. now apply directMatch_atMostOne in Hd.
  - assert (match resolve DateT schema token allTokens index context with
            | Some e0 => Some e0
            | None => recognizeByType parseTemporal token
            end = Some e -> atMostOne e) as Hctx.
    { destruct (resolve DateT schema token allTokens index context) as [r|] eqn:Hr.
      - intros H; injection H as <-. now apply resolve_atMostOne in Hr.
      - apply recognizeByType_atMostOne. }
    destruct (fuzzyMatch DateT schema (normalized token)) as [m|] eqn:Hm; [|exact Hctx].
    destruct (Qltb 0.7 (score m)); [|exact Hctx].
    intros H; injection H as <-. unfold atMostOne. simpl.
    now apply fuzzyMatch_score in Hm.
Qed.

Lemma recognizeFrom_atMostOne (tokens rest : list Token) (i : nat) (context : Context) :
  Forall atMostOne (recognizeFrom parseTemporal schema tokens rest i context).
Proof.
  revert i. induction rest as [|token r IH]; intros i; simpl; [constructor|].
  destruct (recognizeEntity _ _ token tokens i context) as [e|] eqn:He; [|apply IH].
  destruct (Qltb 0.3 (confidence e)); [|apply IH].
  constructor; [now apply recognizeEntity_atMostOne in He | apply IH].
Qed.

Lemma resolveEntity_atMostOne (context : Context) (e : Entity DateT) :
  atMostOne e -> atMostOne (resolveEntity schema context e).
Proof.
  unfold atMostOne, resolveEntity. intros Hc.
  destruct (EntityType.eqb (ent_type e) EntityType.COLUMN && negb (hasOwner e));
    [|exact Hc].
  destruct (findTablesWithColumn schema (lookupName e)) as [|t [|t' r]]; [exact Hc| |].
  - simpl. apply mathMin_le_r. lra.
  - destruct (contextTableOf _ context) as [ct|]; [destruct (Js.truthy ct)|];
      simpl; try apply mathMin_le_r; lra.
Qed.

(** X18: no entity is more than certain.  Every entity that [recognize]
    returns has a confidence of at most 1, fuzzy matches and the boosts of
    the ambiguity pass included. *)
Theorem recognize_confidence_at_most_one (tokens : list Token) :
  Forall (fun e => confidence e <= 1) (recognize parseTemporal schema tokens).
Proof.
  unfold recognize, resolveAmbiguities.
  apply Forall_map.
  eapply Forall_impl; [|apply recognizeFrom_atMostOne].
  intros e He. now apply resolveEntity_atMostOne.
Qed.

End WithSchema.
End ScoreFacts.

Module MatchingFacts.
Import JsMath Recognizer RecognizerFacts.
Open Scope Q_scope.

(** *** Lower case *)

Lemma lowerChar_idem (a : ascii) : Js.lowerChar (Js.lowerChar a) = Js.lowerChar a.
Proof. destruct a as [[] [] [] [] [] [] [] []]; reflexivity. Qed.

Lemma lowerChar_not_upper (a : ascii) : isUpper (Js.lowerChar a) = false.
Proof. destruct a as [[] [] [] [] [] [] [] []]; reflexivity. Qed.

Lemma toLowerCase_idem (s : string) : Js.toLowerCase (Js.toLowerCase s) = Js.toLowerCase s.
Proof.
  unfold Js.toLowerCase. induction s as [|a r IH]; simpl; [reflexivity|].
  now rewrite lowerChar_idem, IH.
Qed.

Lemma spaceBeforeUpper_lower (s : string) :
  spaceBeforeUpper (Js.toLowerCase s) = Js.toLowerCase s.
Proof.
  unfold Js.toLowerCase. induction s as [|a r IH]; simpl; [reflexivity|].
  now rewrite lowerChar_not_upper, IH.
Qed.

Section WithSchema.

Variable DateT : Type.
Variable parseTemporal : string -> option DateT.
Variable schema : SchemaContext.

(** X19: the camel-case rule of [matches] never splits a name: the target
    is lower-cased before capitals are looked for, so the rule compares with
    the trimmed lower-case name.  A text matches a name exactly when it is
    the lower-case name, a synonym of it, the lower-case name with blanks for
    underscores, or the trimmed lower-case name; the case of the name does
    not matter. *)
Theorem matches_never_splits_camel_case (normalized_ target : string) :
  let lower := Js.toLowerCase target in
  matches schema normalized_ target
  = (String.eqb normalized_ lower
     || match JsMap.get string_dec normalized_ (synonymMap schema) with
        | Some synonym => String.eqb synonym lower
        | None => false
        end
     || String.eqb normalized_ (Js.replaceAll "_"%char " " lower)
     || String.eqb normalized_ (Js.trim lower))
  /\ matches schema normalized_ lower = matches schema normalized_ target.
Proof.
  cbv zeta. split.
  - unfold matches. cbv zeta.
    rewrite spaceBeforeUpper_lower, toLowerCase_idem.
    destruct (String.eqb normalized_ (Js.toLowerCase target)); [reflexivity|].
    cbn [orb].
    destruct (match JsMap.get string_dec normalized_ (synonymMap schema) with
              | Some synonym => String.eqb synonym (Js.toLowerCase target)
              | None => false
              end); [reflexivity|].
    cbn [orb].
    destruct (String.eqb normalized_ (Js.replaceAll "_"%char " " (Js.toLowerCase target)));
      reflexivity.
  - unfold matches. cbv zeta. now rewrite toLowerCase_idem.
Qed.

(** *** Entities and the tokens they come from *)

Definition anchored (token : Token) (e : Entity DateT) : Prop :=
  ent_text e = tok_text token /\ ent_position e = tok_position token
  /\ ent_length e = tok_length token.

Lemma directMatch_anchored (token : Token) (e : Entity DateT) :
  directMatch DateT schema token = Some e -> anchored token e.
Proof.
  unfold directMatch.
  destruct (firstSome _ (tables schema)) as [e'|] eqn:E.
  - intros H; injection H as <-. revert E.
    apply firstSome_prop. intros t z.
    destruct (matches schema (normalized token) (name t)).
    + intros H; injection H as <-. repeat split.
    + apply firstSome_prop. intros c z'.
      destruct (matches schema (normalized token) (col_name c)); [|discriminate].
      intros H; injection H as <-. repeat split.
  - apply firstSome_prop. intros fn z.
    destruct (matches schema (normalized token) (fn_name fn)); [|discriminate].
    intros H; injection H as <-. repeat split.
Qed.

Lemma resolve_anchored (token : Token) (allTokens : list Token) (index : nat)
  (context : Context) (e : Entity DateT) :
  resolve DateT schema token allTokens index context = Some e -> anchored token e.
Proof.
  unfold resolve. cbv zeta.
  repeat match goal with
         | |- context [if ?c then _ else _] => destruct c
         | |- context [match findBestTableMatch ?s ?t ?c with _ => _ end] =>
             destruct (findBestTableMatch s t c)
         | |- context [match findBestColumnMatch ?s ?t ?c with _ => _ end] =>
             destruct (findBestColumnMatch s t c)
         end;
    intros H; try discriminate; injection H as <-; repeat split.
Qed.

Lemma recognizeByType_anchored (token : Token) (e : Entity DateT) :
  recognizeByType parseTemporal token = Some e -> anchored token e.
Proof.
  unfold recognizeByType, typed.
  destruct (tok_type token); intros H; try discriminate;
    injection H as <-; repeat split.
Qed.

Lemma recognizeEntity_anchored (token : Token) (allTokens : list Token) (index : nat)
  (context : Context) (e : Entity DateT) :
  recognizeEntity parseTemporal schema token allTokens index context = Some e ->
  anchored token e.
Proof.
  unfold recognizeEntity.
  destruct (directMatch DateT schema token) as [d|] eqn:Hd.
  - intros H; injection H as <-. now apply directMatch_anchored in Hd.
  - assert (match resolve DateT schema token allTokens index context with
            | Some e0 => Some e0
            | None => recognizeByType parseTemporal token
            end = Some e -> anchored token e) as Hctx.
    { destruct (resolve DateT schema token allTokens index context) as [r|] eqn:Hr.
      - intros H; injection H as <-. now apply resolve_anchored in Hr.
      - apply recognizeByType_anchored. }
    destruct (fuzzyMatch DateT schema (normalized token)) as [m|]; [|exact Hctx].
    destruct (Qltb 0.7 (score m)); [|exact Hctx].
    intros H; injection H as <-. repeat split.
Qed.

Lemma resolveEntity_anchored (context : Context) (token : Token) (e : Entity DateT) :
  anchored token e -> anchored token (resolveEntity schema context e).
Proof.
  unfold resolveEntity. intros H.
  destruct (EntityType.eqb (ent_type e) EntityType.COLUMN && negb (hasOwner e));
    [|exact H].
  destruct (findTablesWithColumn schema (lookupName e)) as [|t [|t' r]]; [exact H|exact H|].
  destruct (contextTableOf _ context) as [ct|]; [destruct (Js.truthy ct)|]; exact H.
Qed.

(** The entities kept for the tokens [rest], in the order of the tokens:
    each one belongs to a token further down the list than the one before. *)
Inductive Anchors : list Token -> list (Entity DateT) -> Prop :=
| anchors_nil (rest : list Token) : Anchors rest []
| anchors_skip (token : Token) (rest : list Token) (es : list (Entity DateT)) :
    Anchors rest es -> Anchors (token :: rest) es
| anchors_keep (token : Token) (rest : list Token) (e : Entity DateT)
    (es : list (Entity DateT)) :
    anchored token e -> Anchors rest es -> Anchors (token :: rest) (e :: es).

Lemma recognizeFrom_anchors (tokens rest : list Token) (i : nat) (context : Context) :
  Anchors rest (recognizeFrom parseTemporal schema tokens rest i context).
Proof.
  revert i. induction rest as [|token r IH]; intros i; simpl; [constructor|].
  destruct (recognizeEntity _ _ token tokens i context) as [e|] eqn:He;
    [|apply anchors_skip, IH].
  destruct (Qltb 0.3 (confidence e)); [|apply anchors_skip, IH].
  apply anchors_keep; [now apply recognizeEntity_anchored in He | apply IH].
Qed.

Lemma Anchors_map (g : Entity DateT -> Entity DateT) :
  (forall token e, anchored token e -> anchored token (g e)) ->
  forall rest es, Anchors rest es -> Anchors rest (map g es).
Proof.
  intros Hg. induction 1 as [rest|token rest es _ IH|token rest e es Ha _ IH]; simpl.
  - apply anchors_nil.
  - apply anchors_skip, IH.
  - apply anchors_keep; [now apply Hg | exact IH].
Qed.

Lemma Anchors_length (rest : list Token) (es : list (Entity DateT)) :
  Anchors rest es -> (length es <= length rest)%nat.
Proof. induction 1; simpl; lia. Qed.

Lemma Anchors_In (rest : list Token) (es : list (Entity DateT)) :
  Anchors rest es -> forall e, In e es -> exists token, In token rest /\ anchored token e.
Proof.
  induction 1 as [rest|token rest es _ IH|token rest e0 es Ha _ IH]; intros e Hin.
  - contradiction.
  - destruct (IH e Hin) as (t & Ht & Hte). exists t. split; [now right | exact Hte].
  - destruct Hin as [<-|Hin].
    + exists token. split; [now left | exact Ha].
    + destruct (IH e Hin) as (t & Ht & Hte). exists t. split; [now right | exact Hte].
Qed.

(** X20: entities stay with their tokens.  [recognize] returns at most one
    entity per token, in the order of the tokens, and each entity carries the
    text, the position and the length of the token it was recognised from. *)
Theorem recognize_entities_follow_tokens (tokens : list Token) :
  Anchors tokens (recognize parseTemporal schema tokens)
  /\ (length (recognize parseTemporal schema tokens) <= length tokens)%nat
  /\ forall e, In e (recognize parseTemporal schema tokens) ->
               exists token, In token tokens
                             /\ ent_text e = tok_text token
                             /\ ent_position e = tok_position token
                             /\ ent_length e = tok_length token.
Proof.
  assert (Anchors tokens (recognize parseTemporal schema tokens)) as H.
  { unfold recognize, resolveAmbiguities. apply Anchors_map.
    - intros token e. apply resolveEntity_anchored.
    - apply recognizeFrom_anchors. }
  split; [exact H|]. split; [now apply Anchors_length|].
  intros e He. destruct (Anchors_In H e He) as (t & Ht & Hte). exists t. split; [exact Ht|].
  exact Hte.
Qed.

(** *** Exact names *)

Lemma firstSome_hit {A B} (f : A -> option B) (l : list A) (x : A) (y : B) :
  In x l -> f x = Some y -> exists z, firstSome f l = Some z.
Proof.
  induction l as [|a r IH]; [contradiction|]. simpl.
  intros [->|Hin] Hy.
  - rewrite Hy. eauto.
  - destruct (f a); eauto.
Qed.

Lemma matches_lower (target : string) :
  matches schema (Js.toLowerCase target) target = true.
Proof. unfold matches. cbv zeta. now rewrite String.eqb_refl. Qed.

(** X21: a token that spells the name of a table of the schema in lower
    case is recognised by direct match, whatever its type and its neighbours
    are: as a table with confidence 1, or as the column of an earlier table
    that matches the same text, with confidence 0.9. *)
Theorem exact_table_name_is_recognised (token : Token) (allTokens : list Token)
  (index : nat) (context : Context) (t : TableInfo) :
  In t (tables schema) ->
  normalized token = Js.toLowerCase (name t) ->
  exists e,
    recognizeEntity parseTemporal schema token allTokens index context = Some e
    /\ ((ent_type e = EntityType.TABLE /\ confidence e == 1)
        \/ (ent_type e = EntityType.COLUMN /\ confidence e == 0.9)).
Proof.
  intros Hin Hn. unfold recognizeEntity, directMatch.
  match goal with
  | |- context [firstSome ?f (tables schema)] =>
      destruct (@firstSome_hit _ _ f (tables schema) t
                  (mkEntity (tok_text token) EntityType.TABLE None 1.0 (tok_position token)
                     (tok_length token) (Some (name t))
                     (Some (mkMetadata (Some (TableObject t)) None None None None None
                                       None))) Hin) as [z Hz];
        [cbv beta; rewrite Hn, matches_lower; reflexivity|];
        rewrite Hz
  end.
  exists z. split; [reflexivity|].
  revert Hz.
  apply (@firstSome_prop _ _
           (fun z => (ent_type z = EntityType.TABLE /\ confidence z == 1)
                     \/ (ent_type z = EntityType.COLUMN /\ confidence z == 0.9))).
  intros tb z0.
  destruct (matches schema (normalized token) (name tb)).
  - intros H; injection H as <-. left. split; reflexivity.
  - apply (@firstSome_prop _ _
             (fun z => (ent_type z = EntityType.TABLE /\ confidence z == 1)
                       \/ (ent_type z = EntityType.COLUMN /\ confidence z == 0.9))).
    intros c z'.
    destruct (matches schema (normalized token) (col_name c)); [|discriminate].
    intros H; injection H as <-. right. split; reflexivity.
Qed.

End WithSchema.

(** *** A concrete run *)

Definition shopSchema : SchemaContext :=
  mkSchema [mkTableInfo "Orders" None [mkColumnInfo "id" "integer" false;
                                       mkColumnInfo "status" "text" true]]
           [].

Definition ordersToken : Token := mkToken "orders" TokenType.NOUN 5 6 "orders" 0.9.

Definition noContext : Context := mkContext [] [] [] false false false false.

Definition noDates (text : string) : option unit := None.

Lemma recognize_entities_follow_tokens_witness :
  exists e token,
    In e (recognize noDates shopSchema [ordersToken])
    /\ In token [ordersToken]
    /\ ent_text e = tok_text token.
Proof.
  pose proof (proj2 (proj2 (@recognize_entities_follow_tokens unit noDates shopSchema
                              [ordersToken]))) as H.
  destruct (recognize noDates shopSchema [ordersToken]) as [|e r] eqn:E;
    [vm_compute in E; discriminate|].
  destruct (H e (or_introl eq_refl)) as (token & Hin & Ht & _).
  exists e, token. split; [now left|]. split; assumption.
Defined.

Lemma exact_table_name_is_recognised_witness :
  exists e, recognizeEntity noDates shopSchema ordersToken [ordersToken] 0 noContext = Some e.
Proof.
  destruct (@exact_table_name_is_recognised unit noDates shopSchema ordersToken
              [ordersToken] 0%nat noContext
              (mkTableInfo "Orders" None [mkColumnInfo "id" "integer" false;
                                          mkColumnInfo "status" "text" true]))
    as (e & He & _).
  - now left.
  - reflexivity.
  - exists e. exact He.
Defined.

End MatchingFacts.

Module BuilderFacts.
Import Intent IntentFacts.

(** *** findTableByName *)

Definition named (schema : SchemaInfo) (t : string) : Prop :=
  In t (map tname (tables schema)).

Lemma find_named (schema : SchemaInfo) (p : TableInfo -> bool) (ti : TableInfo) :
  find p (tables schema) = Some ti -> named schema (tname ti).
Proof. intros H. apply find_some in H. apply in_map. tauto. Qed.

Lemma findTableByName_some (schema : SchemaInfo) (name t : string) :
  findTableByName schema name = Some t ->
  exists ti, In ti (tables schema) /\ t = tname ti
             /\ (Js.toLowerCase (tname ti) = Js.toLowerCase name
                 \/ Js.toLowerCase (tname ti) = singularize (Js.toLowerCase name)
                 \/ Js.toLowerCase (tname ti) = singularize (Js.toLowerCase name) ++ "s").
Proof.
  unfold findTableByName. cbv zeta.
  destruct (find _ (tables schema)) as [ti|] eqn:E.
  - intros H; injection H as <-. apply find_some in E. destruct E as [Hin Heq].
    apply String.eqb_eq in Heq. exists ti. auto.
  - destruct (find (fun t0 => _ || _) (tables schema)) as [ti|] eqn:E2; [|discriminate].
    intros H; injection H as <-. apply find_some in E2. destruct E2 as [Hin Heq].
    apply orb_true_iff in Heq. exists ti. split; [exact Hin|]. split; [reflexivity|].
    destruct Heq as [Heq|Heq]; apply String.eqb_eq in Heq; auto.
Qed.

Lemma findTableByName_named (schema : SchemaInfo) (name t : string) :
  findTableByName schema name = Some t -> named schema t.
Proof.
  intros H. apply findTableByName_some in H. destruct H as (ti & Hin & -> & _).
  now apply in_map.
Qed.

(** X22: [findTableByName] answers with the name of a table of the schema,
    as the schema spells it: a table whose lower-case name is the lower-case
    text, its singular or that singular with an [s]; and a table whose name
    is the text up to case is never missed. *)
Theorem findTableByName_finds_schema_tables (schema : SchemaInfo) (name : string) :
  (forall t, findTableByName schema name = Some t ->
             exists ti, In ti (tables schema) /\ t = tname ti
                        /\ (Js.toLowerCase (tname ti) = Js.toLowerCase name
                            \/ Js.toLowerCase (tname ti) = singularize (Js.toLowerCase name)
                            \/ Js.toLowerCase (tname ti)
                               = singularize (Js.toLowerCase name) ++ "s"))
  /\ (forall ti, In ti (tables schema) ->
                 Js.toLowerCase (tname ti) = Js.toLowerCase name ->
                 exists ti', In ti' (tables schema)
                             /\ Js.toLowerCase (tname ti') = Js.toLowerCase name
                             /\ findTableByName schema name = Some (tname ti')).
Proof.
  split; [intros t; apply findTableByName_some|].
  unfold findTableByName. cbv zeta. intros ti Hin Heq.
  destruct (find (fun t0 => String.eqb (Js.toLowerCase (tname t0)) (Js.toLowerCase name))
                 (tables schema)) as [ti'|] eqn:E.
  - apply find_some in E. destruct E as [Hin' Heq']. apply String.eqb_eq in Heq'.
    exists ti'. auto.
  - exfalso. pose proof (find_none _ _ E ti Hin) as Hn. cbv beta in Hn.
    rewrite Heq, String.eqb_refl in Hn. discriminate.
Qed.

(** *** The base table *)

Lemma inferBase_named (text : string) (schema : SchemaInfo) (t : string) :
  inferBase text schema = Some t -> named schema t.
Proof.
  unfold inferBase. cbv zeta.
  destruct (find _ (tables schema)) as [ti|] eqn:E.
  - intros H; injection H as <-. now apply find_named in E.
  - assert (forall hints base,
               (forall b, base = Some b -> named schema b) ->
               forall b,
                 fold_left
                   (fun base hint =>
                      if Js.includes text hint || Js.includes text (replaceFirstSpace hint)
                      then match findTableByName schema (replaceFirstSpace hint) with
                           | Some t0 => Some t0
                           | None => base
                           end
                      else base) hints base = Some b -> named schema b) as Hfold.
    { induction hints as [|h r IH]; intros base Hb b; simpl; [apply Hb|].
      apply IH. intros b0.
      destruct (Js.includes text h || Js.includes text (replaceFirstSpace h)); [|apply Hb].
      destruct (findTableByName schema (replaceFirstSpace h)) as [t0|] eqn:Ef; [|apply Hb].
      intros H; injection H as <-. now apply findTableByName_named in Ef. }
    apply Hfold. discriminate.
Qed.

Lemma chooseBase_named (text : string) (schema : SchemaInfo) (opts : ParseOptions)
  (t : string) :
  chooseBase text schema opts = Some t ->
  named schema t \/ defaultTable opts = Some t.
Proof.
  unfold chooseBase. cbv zeta.
  destruct (Js.truthyOpt (inferBase text schema)).
  - intros H. left. now apply inferBase_named in H.
  - unfold orElse. destruct (Js.truthyOpt (defaultTable opts)); [now right|].
    destruct (tables schema) as [|t0 r] eqn:E; [discriminate|].
    simpl. intros H; injection H as <-. left. unfold named. rewrite E. now left.
Qed.

Lemma bothTruthy_some (a b : option string) (x y : string) :
  bothTruthy a b = Some (x, y) ->
  a = Some x /\ b = Some y /\ Js.truthy x = true /\ Js.truthy y = true.
Proof.
  unfold bothTruthy. destruct a as [x'|], b as [y'|]; try discriminate.
  destruct (Js.truthy x') eqn:Ex; [|discriminate].
  destruct (Js.truthy y') eqn:Ey; [|discriminate].
  simpl. intros H; injection H as <- <-. auto.
Qed.

(** What the join section keeps: the base table stays or becomes the table
    found for [orders], and every join built is an inner join. *)
Definition goodJoins (schema : SchemaInfo) (base : string) (st : list JoinSpec * string)
  : Prop :=
  (snd st = base
   \/ (findTableByName schema "orders" = Some (snd st) /\ Js.truthy (snd st) = true))
  /\ Forall (fun j => join_type j = inner) (fst st).

Lemma joining_good (text : string) (schema : SchemaInfo) (agg : option AggregateSpec)
  (grp : list ColumnRef) (base : string) :
  goodJoins schema base (joining text schema agg grp base).
Proof.
  unfold joining. cbv zeta.
  destruct agg as [[f [c|raw] al]|];
    try destruct (Js.includes raw "order_items");
    try destruct (bothTruthy (findTableByName schema "orders")
                    (findTableByName schema "order_items")) as [[o1 oi]|] eqn:E1;
    destruct (existsb (tableIs (orElse _ _)) grp);
    try destruct (bothTruthy (orElse _ _) (findTableByName schema "orders"))
      as [[c2 o2]|] eqn:E2;
    destruct (_ || Js.includes text "restaurant" || Js.includes text "merchant");
    try destruct (bothTruthy (findTableByName schema "orders")
                    (findTableByName schema "merchants")) as [[o3 m3]|] eqn:E3;
    try destruct (bothTruthy (findTableByName schema "restaurants")
                    (findTableByName schema "merchants")) as [[r4 m4]|] eqn:E4;
    repeat match goal with
           | H : bothTruthy _ _ = Some _ |- _ =>
               apply bothTruthy_some in H; destruct H as (? & ? & ? & ?)
           end;
    (split; cbn [fst snd];
     [ auto
     | unfold push; repeat (apply Forall_app; split); repeat constructor ]).

Qed.


(** X23: every IR the builder returns has a base table that is a table of
    the schema, or the default table of the options, under a non-empty name;
    it projects at least one column; its joins are inner joins; and it has no
    [having], [orderBy] or [limit]. *)
Theorem parseIntentToIR_builds_on_schema_tables (prompt : string) (schema : SchemaInfo)
  (opts : ParseOptions) (ir : SelectQueryIR) :
  parseIntentToIR prompt schema opts = Returns ir ->
  (In (from ir) (map tname (tables schema)) \/ defaultTable opts = Some (from ir))
  /\ from ir <> EmptyString
  /\ columns ir <> []
  /\ Forall (fun j => join_type j = inner) (orEmpty (joins ir))
  /\ having ir = None /\ orderBy ir = None /\ limit ir = None.
Proof.
  unfold parseIntentToIR. cbv zeta.
  destruct (chooseBase (Js.toLowerCase prompt) schema opts) as [base|] eqn:Hb;
    [|discriminate].
  destruct (Js.truthy base) eqn:Ht; [|discriminate]. cbn [negb].
  pose proof (joining_good (Js.toLowerCase prompt) schema
                (aggregation (Js.toLowerCase prompt) schema base)
                (grouping (Js.toLowerCase prompt) schema base) base) as [Hbase Hjoins].
  destruct (joining _ schema _ _ base) as [js b]. cbn [fst snd] in *.
  intros H; injection H as <-. cbn [from columns joins having orderBy limit].
  split; [|split; [|split; [|split; [|auto]]]].
  - destruct Hbase as [->|[Ho _]].
    + now apply chooseBase_named in Hb.
    + left. now apply findTableByName_named in Ho.
  - destruct Hbase as [->|[_ Hy]]; intros ->; discriminate.
  - destruct (map PCol (grouping _ schema base) ++ _)%list; discriminate.
  - destruct js; [constructor | exact Hjoins].
Qed.

(** *** The group-by list of the builder *)

Lemma list_of_append (a b : string) :
  list_ascii_of_string (a ++ b) = (list_ascii_of_string a ++ list_ascii_of_string b)%list.
Proof. induction a as [|x r IH]; simpl; [reflexivity | now rewrite IH]. Qed.

Lemma merchant_id_is_not_name (a b : string) : a ++ ".merchant_id" <> b ++ ".name".
Proof.
  intros H. apply (f_equal list_ascii_of_string) in H. rewrite !list_of_append in H.
  apply (f_equal (fun l => last l " "%char)) in H.
  change (list_ascii_of_string ".merchant_id")
    with (list_ascii_of_string ".merchant_i" ++ ["d"%char])%list in H.
  change (list_ascii_of_string ".name")
    with (list_ascii_of_string ".nam" ++ ["e"%char])%list in H.
  rewrite !app_assoc, !last_last in H. discriminate.
Qed.

Lemma nameOrId_short (schema : SchemaInfo) (t : option string) :
  (length (nameOrId schema t) <= 1)%nat.
Proof.
  unfold nameOrId. destruct t as [d|]; [|simpl; lia].
  destruct (Js.truthy d), (columnExists schema d "name"), (columnExists schema d "id");
    simpl; lia.
Qed.

Lemma short_NoDup {A B} (g : A -> B) (l : list A) : (length l <= 1)%nat -> NoDup (map g l).
Proof.
  destruct l as [|x [|y r]]; simpl; intros H; try lia; repeat constructor; intros [].
Qed.

Lemma grouping_NoDup (text : string) (schema : SchemaInfo) (base : string) :
  NoDup (map Optimizer.key (grouping text schema base)).
Proof.
  unfold grouping.
  destruct (phrase "per" "customer" text || phrase "by" "customer" text);
    [apply short_NoDup, nameOrId_short|].
  destruct (phrase "per" "product" text || phrase "by" "product" text);
    [apply short_NoDup, nameOrId_short|].
  destruct (phrase "per" "restaurant" text || phrase "by" "restaurant" text
            || phrase "each" "restaurant" text).
  - destruct (columnExists schema base "merchant_id");
      destruct (findTableByName schema "merchants") as [m|];
      try destruct (Js.truthy m && columnExists schema m "name");
      simpl; repeat constructor; simpl; try tauto.
    intros [H|[]]. unfold Optimizer.key in H. simpl in H.
    symmetry in H. now apply merchant_id_is_not_name in H.
  - destruct (phrase "per" "restaurateur" text || phrase "each" "restaurateur" text).
    + destruct (findTableByName schema "merchants") as [m|];
        try destruct (Js.truthy m && columnExists schema m "parent_merchant_id");
        simpl; repeat constructor; simpl; tauto.
    + destruct (phrase "per" "day" text || phrase "by" "day" text
                || phrase "per" "date" text || phrase "by" "date" text);
        [|constructor].
      destruct (likelyDateColumn schema base) as [dc|]; [|constructor].
      destruct (Js.truthy dc); simpl; repeat constructor; simpl; tauto.
Qed.

Lemma ensureSelected_projected (gs : list ColumnRef) (rest : list Projection) :
  forall pre,
    Optimizer.ensureSelected gs (map PCol (pre ++ gs) ++ rest)
    = (map PCol (pre ++ gs) ++ rest)%list.
Proof.
  induction gs as [|g r IH]; intros pre; simpl; [reflexivity|].
  assert (existsb (Optimizer.sameColumn g) (map PCol (pre ++ g :: r) ++ rest) = true) as ->.
  { apply existsb_exists. exists (PCol g). split.
    - apply in_or_app. left. apply in_map. apply in_or_app. right. now left.
    - simpl. now rewrite !String.eqb_refl. }
  replace (pre ++ g :: r)%list with ((pre ++ [g]) ++ r)%list by now rewrite <- app_assoc.
  apply IH.
Qed.

Lemma optimizeIR_built (prompt : string) (schema : SchemaInfo)
  (opts : ParseOptions) (ir : SelectQueryIR) :
  parseIntentToIR prompt schema opts = Returns ir -> Optimizer.optimizeIR ir = ir.
Proof.
  unfold parseIntentToIR. cbv zeta.
  destruct (chooseBase (Js.toLowerCase prompt) schema opts) as [base|]; [|discriminate].
  destruct (negb (Js.truthy base)); [discriminate|].
  pose proof (grouping_NoDup (Js.toLowerCase prompt) schema base) as Hnd.
  set (agg := aggregation (Js.toLowerCase prompt) schema base) in *.
  set (grp := grouping (Js.toLowerCase prompt) schema base) in *.
  destruct (joining _ schema agg grp base) as [js b].
  intros H; injection H as <-.
  unfold Optimizer.optimizeIR. cbn [from columns joins where_ groupBy having orderBy limit].
  destruct grp as [|g gs] eqn:Hg; [reflexivity|].
  cbn [nonEmpty]. f_equal.
  - cbn [map app].
    change (PCol g :: (map PCol gs ++ match agg with Some a => [PAgg a] | None => [] end)%list)
      with (map PCol ([] ++ g :: gs) ++ match agg with Some a => [PAgg a] | None => [] end)%list.
    apply ensureSelected_projected.
  - f_equal. apply OptimizerLaws.dedupe_id; [exact Hnd | intros x _ []].
Qed.

(** X24: the basic optimizer has nothing to do on what the builder builds.
    Every IR [parseIntentToIR] returns already projects its group-by columns
    and has no repeated grouping key, so [optimizeIR] returns it unchanged. *)
Theorem optimizeIR_leaves_built_IR (prompt : string) (schema : SchemaInfo)
  (opts : ParseOptions) (ir : SelectQueryIR) :
  parseIntentToIR prompt schema opts = Returns ir -> Optimizer.optimizeIR ir = ir.
Proof. apply optimizeIR_built. Qed.

(** *** A concrete run *)

Definition shopTables : SchemaInfo :=
  mkSchemaInfo [mkTableInfo "Orders" [mkColumnDecl "id" None None;
                                      mkColumnDecl "merchant_id" None None;
                                      mkColumnDecl "total" None None];
                mkTableInfo "merchants" [mkColumnDecl "id" None None;
                                         mkColumnDecl "name" None None]].

Definition revenuePrompt : string := "total revenue by merchant".

Lemma findTableByName_finds_schema_tables_witness :
  exists ti, In ti (tables shopTables)
             /\ Js.toLowerCase (tname ti) = Js.toLowerCase "ORDERS"
             /\ findTableByName shopTables "ORDERS" = Some (tname ti).
Proof.
  apply (proj2 (findTableByName_finds_schema_tables shopTables "ORDERS")
               (mkTableInfo "Orders" [mkColumnDecl "id" None None;
                                      mkColumnDecl "merchant_id" None None;
                                      mkColumnDecl "total" None None])).
  - now left.
  - reflexivity.
Defined.

Lemma parseIntentToIR_builds_on_schema_tables_witness :
  exists ir,
    parseIntentToIR revenuePrompt shopTables (mkParseOptions None) = Returns ir
    /\ from ir <> EmptyString /\ columns ir <> [] /\ limit ir = None.
Proof.
  destruct (parseIntentToIR revenuePrompt shopTables (mkParseOptions None)) as [ir|e] eqn:E;
    [|vm_compute in E; discriminate].
  destruct (@parseIntentToIR_builds_on_schema_tables revenuePrompt shopTables
              (mkParseOptions None) ir E) as (_ & Hf & Hc & _ & _ & _ & Hl).
  exists ir. auto.
Defined.

Lemma optimizeIR_leaves_built_IR_witness :
  exists ir,
    parseIntentToIR revenuePrompt shopTables (mkParseOptions None) = Returns ir
    /\ Optimizer.optimizeIR ir = ir.
Proof.
  destruct (parseIntentToIR revenuePrompt shopTables (mkParseOptions None)) as [ir|e] eqn:E;
    [|vm_compute in E; discriminate].
  exists ir. split; [reflexivity|].
  exact (@optimizeIR_leaves_built_IR revenuePrompt shopTables (mkParseOptions None) ir E).
Defined.

End BuilderFacts.

Module PipelineFacts.
Import Intent IntentFacts BuilderFacts Generator GeneratorFacts Pipeline.

(** *** Texts and their parts *)

Lemma includes_suffix (p r sub : string) :
  Js.includes r sub = true -> Js.includes (p ++ r) sub = true.
Proof.
  intros H. induction p as [|a p IH]; [exact H|].
  cbn [append Js.includes]. rewrite IH. now destruct (String.prefix sub _).
Qed.

Lemma includes_prefix (s sub : string) : String.prefix sub s = true -> Js.includes s sub = true.
Proof. intros H. destruct s; cbn [Js.includes]; now rewrite H. Qed.

Lemma dropPrefix_some (p : string) :
  forall s r, dropPrefix p s = Some r -> s = p ++ r.
Proof.
  unfold dropPrefix. induction p as [|a p IH]; intros s r.
  - destruct s; simpl; intros H; injection H as <-; [reflexivity|].
    now rewrite substring_all.
  - destruct s as [|b s]; [discriminate|]. cbn [String.prefix].
    destruct (ascii_dec a b) as [->|]; [|discriminate].
    intros H. cbn [append]. f_equal. apply IH.
    destruct (String.prefix p s); [|discriminate].
    injection H as <-. reflexivity.
Qed.

Lemma trimStart_suffix (s : string) : exists p, s = p ++ Js.trimStart s.
Proof.
  induction s as [|a r [p IH]]; [now exists EmptyString|].
  cbn [Js.trimStart]. destruct (Js.isSpace a).
  - exists (String a p). cbn [append]. now f_equal.
  - now exists EmptyString.
Qed.

Lemma phraseAt_includes (w1 w2 s : string) :
  phraseAt w1 w2 s = true -> Js.includes s w2 = true.
Proof.
  unfold phraseAt.
  destruct (dropPrefix w1 s) as [r|] eqn:Hd; [|discriminate].
  apply dropPrefix_some in Hd. subst s.
  destruct r as [|a r]; [discriminate|]. cbn [spaces1].
  destruct (Js.isSpace a); [|discriminate].
  intros H. destruct (trimStart_suffix r) as [p Hp].
  rewrite Hp. change (String a (p ++ Js.trimStart r)) with (String a p ++ Js.trimStart r).
  rewrite <- SimilarityFacts.app_assoc_string. apply includes_suffix. now apply includes_prefix.
Qed.

Lemma anywhere_includes (w1 w2 : string) (s : string) :
  phrase w1 w2 s = true -> Js.includes s w2 = true.
Proof.
  unfold phrase. induction s as [|a r IH]; cbn [anywhere].
  - destruct (phraseAt w1 w2 EmptyString) eqn:E; [|discriminate].
    intros _. now apply phraseAt_includes in E.
  - destruct (phraseAt w1 w2 (String a r)) eqn:E.
    + intros _. now apply phraseAt_includes in E.
    + intros H. apply IH in H.
      change (String a r) with (String a EmptyString ++ r). now apply includes_suffix.
Qed.

Lemma phrase_or_includes (w1 w2 s : string) :
  phrase w1 w2 s || Js.includes s w2 = Js.includes s w2.
Proof.
  destruct (phrase w1 w2 s) eqn:E; [|reflexivity].
  apply anywhere_includes in E. now rewrite E.
Qed.

(** *** The filters of the builder *)

(** The month filter is built: the text mentions june and a date column is
    found for the base table or for orders. *)
Definition juneFilter (text : string) (schema : SchemaInfo) (base : string) : bool :=
  Js.includes text "june"
  && match dateColumnFor schema base with Some _ => true | None => false end.

Lemma Forall_push {A} (P : A -> Prop) (l : list A) (x : A) :
  Forall P l -> P x -> Forall P (push l x).
Proof. intros Hl Hx. unfold push. apply Forall_app. split; [exact Hl | now constructor]. Qed.

Lemma filters_without_june (text : string) (schema : SchemaInfo) (base : string) :
  juneFilter text schema base = false ->
  Forall lhsIsColumn (filters text schema base).
Proof.
  unfold juneFilter, filters. cbv zeta. rewrite phrase_or_includes.
  intros Hj.
  assert (forall c op_ r, lhsIsColumn (mkCondition (LhsColumn c) op_ r)) as Hcol
    by (intros c op_ r; now exists c).
  destruct (dateColumnFor schema base) as [d|];
    destruct (daysMatch text) as [ds|];
    try destruct (Js.truthy d);
    destruct (Js.includes text "june"); try discriminate Hj;
    destruct (phrase "completed" "orders" text || Js.includes text "completed");
    try destruct (columnExists schema base "status");
    repeat apply Forall_push; try apply Hcol; constructor.
Qed.

Lemma filters_with_june (text : string) (schema : SchemaInfo) (base : string) :
  juneFilter text schema base = true ->
  exists w, In w (filters text schema base) /\ ~ lhsIsColumn w.
Proof.
  unfold juneFilter, filters. cbv zeta. rewrite phrase_or_includes.
  intros Hj. apply andb_true_iff in Hj. destruct Hj as [Hj Hd]. rewrite Hj.
  destruct (dateColumnFor schema base) as [d|] eqn:Ed; [|discriminate].
  rewrite (dateColumnFor_truthy _ _ Ed).
  exists (mkCondition
            (LhsExpr ("EXTRACT(MONTH FROM "
                      ++ (if Js.includes d "." then d else base ++ "." ++ d) ++ ")"))
            OpEq (RhsExpr (Some "6") None)).
  split; [|intros [c Hc]; discriminate].
  destruct (daysMatch text) as [ds|];
    destruct (phrase "completed" "orders" text || Js.includes text "completed");
    try destruct (columnExists schema base "status");
    unfold push; repeat (apply in_or_app; first [right; now left | left]).
Qed.

(** *** generateSQL on a where-list *)

Lemma mapO_throws_at {A B} (f : A -> Outcome B) (l : list A) (x : A) (e : Thrown) :
  In x l -> f x = Throws e -> (forall y e', f y = Throws e' -> e' = e) ->
  mapO f l = Throws e.
Proof.
  intros Hin Hx Hall. induction l as [|a r IH]; [contradiction|]. simpl.
  destruct (f a) as [y|e'] eqn:Ha; simpl.
  - destruct Hin as [->|Hin]; [congruence|]. now rewrite IH.
  - now rewrite (Hall a e' Ha).
Qed.

Lemma generateSQL_throws_on (ir : SelectQueryIR) (dialect : SqlDialect) (w : Condition) :
  In w (orEmpty (where_ ir)) -> ~ lhsIsColumn w ->
  generateSQL ir dialect = Throws JsTypeError.
Proof.
  intros Hin Hn. unfold generateSQL, parts, clauses.
  rewrite (@mapO_throws_at _ _ (fun w => emitCondition w dialect) _ w JsTypeError Hin).
  - reflexivity.
  - destruct (emitCondition w dialect) as [s|e] eqn:E.
    + exfalso. apply Hn. unfold emitCondition in E.
      destruct (lhs w) as [c|v|x] eqn:El; try discriminate. now exists c.
    + apply emitCondition_throws in E. now destruct E as [-> _].
  - intros y e' H. now apply emitCondition_throws in H.
Qed.

Lemma generateSQL_returns_on (ir : SelectQueryIR) (dialect : SqlDialect) :
  Forall lhsIsColumn (orEmpty (where_ ir)) -> exists s, generateSQL ir dialect = Returns s.
Proof.
  intros Hall. unfold generateSQL, parts, clauses.
  destruct (mapO_returns (fun w => emitCondition w dialect) (l := orEmpty (where_ ir)))
    as [ws Hws].
  { eapply Forall_impl; [|exact Hall]. intros w Hw. now apply emitCondition_column. }
  rewrite Hws. simpl. eauto.
Qed.

Definition firstTable (schema : SchemaInfo) : ParseOptions :=
  mkParseOptions (option_map tname (hd_error (tables schema))).

Definition dialectOr (dialect : option SqlDialect) : SqlDialect :=
  match dialect with Some d => d | None => sqlite end.

(** X25: the outcome of the pipeline, for every prompt, schema and dialect.
    When the builder throws, so does the run.  When the builder returns an IR, the
    basic optimizer leaves it as it is, and the run throws a [TypeError] if
    the prompt mentions june and a date column is found for the base table or
    for orders; in every other case it returns the SQL generated for the IR
    with the explanation of the IR.  The builder returns an IR whenever the
    first table of the schema has a non-empty name. *)
Theorem run_outcome (prompt : string) (schema : SchemaInfo) (dialect : option SqlDialect) :
  match parseIntentToIR prompt schema (firstTable schema) with
  | Throws e => run prompt schema dialect = Throws e
  | Returns ir =>
      if juneFilter (Js.toLowerCase prompt) schema (from ir)
      then run prompt schema dialect = Throws JsTypeError
      else exists text,
             generateSQL ir (dialectOr dialect) = Returns text
             /\ run prompt schema dialect
                = Returns (mkRunResult text (Explainer.explain ir))
  end
  /\ (forall t r, tables schema = t :: r -> tname t <> EmptyString ->
                  exists ir, parseIntentToIR prompt schema (firstTable schema) = Returns ir).
Proof.
  split.
  - unfold run. fold (firstTable schema). fold (dialectOr dialect).
    destruct (parseIntentToIR prompt schema (firstTable schema)) as [ir|e] eqn:Hp;
      [|reflexivity].
    cbn [bindO]. rewrite (optimizeIR_built _ _ _ Hp).
    pose proof (parseIntentToIR_where _ _ _ Hp) as Hw.
    destruct (juneFilter (Js.toLowerCase prompt) schema (from ir)) eqn:Hj.
    + destruct (filters_with_june _ _ _ Hj) as (w & Hin & Hn).
      rewrite (@generateSQL_throws_on ir (dialectOr dialect) w); [reflexivity | | exact Hn].
      rewrite Hw. destruct (filters _ schema (from ir)); [contradiction | exact Hin].
    + destruct (@generateSQL_returns_on ir (dialectOr dialect)) as [text Ht].
      { rewrite Hw.
        pose proof (filters_without_june _ _ _ Hj) as Hf.
        destruct (filters _ schema (from ir)); [constructor | exact Hf]. }
      exists text. rewrite Ht. split; reflexivity.
  - intros t r Ht Hne. unfold parseIntentToIR, firstTable. rewrite Ht. cbn [hd_error option_map].
    assert (exists b, chooseBase (Js.toLowerCase prompt) schema
                        (mkParseOptions (Some (tname t))) = Some b
                      /\ Js.truthy b = true) as (b & Hb & Hy).
    { unfold chooseBase. cbv zeta.
      destruct (inferBase (Js.toLowerCase prompt) schema) as [b|] eqn:Hi.
      - cbn [Js.truthyOpt]. destruct (Js.truthy b) eqn:Hy; [eauto|].
        unfold orElse. cbn [defaultTable Js.truthyOpt].
        destruct (tname t) eqn:En; [contradiction|]. cbn. eauto.
      - cbn [Js.truthyOpt]. unfold orElse. cbn [defaultTable Js.truthyOpt].
        destruct (tname t) eqn:En; [contradiction|]. cbn. eauto. }
    rewrite Hb, Hy. cbn [negb]. cbv zeta.
    destruct (joining _ schema _ _ b) as [js b']. eauto.
Qed.

Lemma run_outcome_witness :
  exists ir, parseIntentToIR revenuePrompt shopTables (firstTable shopTables) = Returns ir.
Proof.
  apply (proj2 (run_outcome revenuePrompt shopTables None)
               (mkTableInfo "Orders" [mkColumnDecl "id" None None;
                                      mkColumnDecl "merchant_id" None None;
                                      mkColumnDecl "total" None None])
               [mkTableInfo "merchants" [mkColumnDecl "id" None None;
                                         mkColumnDecl "name" None None]]).
  - reflexivity.
  - discriminate.
Defined.

End PipelineFacts.

Module RelativeDateFacts.
Import Intent IntentFacts GeneratorFacts PipelineFacts.




End RelativeDateFacts.

Module FileProcessorFacts.
Import FileProcessor.

(** *** Text classification *)

(** X26: [analyzeTextContent] answers with what [looksLikeSqlSchema] says:
    its own keyword test is never reached with a keyword in the text, and no
    content is classified as data. *)
Theorem analyzeTextContent_follows_looksLikeSqlSchema (content : string) :
  analyzeTextContent content = (if looksLikeSqlSchema content then schema else mixed)
  /\ analyzeTextContent content <> data.
Proof.
  assert (analyzeTextContent content
          = if looksLikeSqlSchema content then schema else mixed) as H.
  { unfold analyzeTextContent. cbv zeta.
    destruct (looksLikeSqlSchema content) eqn:E; [reflexivity|].
    unfold looksLikeSqlSchema in E. cbv zeta in E. cbn [existsb] in E.
    repeat (apply orb_false_iff in E; destruct E as [? E]).
    repeat match goal with H : Js.includes _ _ = false |- _ => rewrite H; clear H end.
    reflexivity. }
  split; [exact H|]. rewrite H. destruct (looksLikeSqlSchema content); discriminate.
Qed.

(** *** Dates *)

Lemma shape_length (ps : list Position) :
  forall s r, shape ps s = Some r ->
              String.length s = (length ps + String.length r)%nat.
Proof.
  induction ps as [|p ps IH]; intros s r; simpl.
  - intros H; now injection H as ->.
  - destruct s as [|a s]; [discriminate|].
    destruct (accepts p a); [|discriminate].
    intros H. apply IH in H. simpl. now rewrite H.
Qed.

(** X27: a value that looks like a date has ten characters and does not
    look like a date with a time, which takes nineteen at least: the order of
    the two tests in [inferColumnSchema] does not matter. *)
Theorem looksLikeDate_excludes_looksLikeDateTime (value : string) :
  (looksLikeDate value = true -> String.length value = 10%nat)
  /\ (looksLikeDateTime value = true -> (19 <= String.length value)%nat)
  /\ (looksLikeDate value = true -> looksLikeDateTime value = false).
Proof.
  assert (looksLikeDate value = true -> String.length value = 10%nat) as H1.
  { unfold looksLikeDate, whole. intros H. apply orb_true_iff in H.
    destruct H as [H|H];
      [destruct (shape isoDate value) as [[|a r]|] eqn:E
      |destruct (shape slashDate value) as [[|a r]|] eqn:E]; try discriminate;
      apply shape_length in E; exact E. }
  assert (looksLikeDateTime value = true -> (19 <= String.length value)%nat) as H2.
  { unfold looksLikeDateTime, atStart. intros H.
    destruct (shape isoDateTime value) as [r|] eqn:E; [|discriminate].
    apply shape_length in E. rewrite E. simpl. lia. }
  split; [exact H1|]. split; [exact H2|].
  intros H. destruct (looksLikeDateTime value) eqn:E; [|reflexivity].
  apply H1 in H. specialize (H2 eq_refl). lia.
Qed.

Lemma looksLikeDate_excludes_looksLikeDateTime_witness :
  String.length "2024-06-30" = 10%nat.
Proof.
  exact (proj1 (looksLikeDate_excludes_looksLikeDateTime "2024-06-30") eq_refl).
Defined.

(** *** Sets *)

Section Sets.
Variable A : Type.
Variable A_eq_dec : forall x y : A, {x = y} + {x <> y}.

Definition addAllTo (l s : list A) : list A :=
  fold_left (fun s v => JsMap.add A_eq_dec v s) l s.

Lemma addAllTo_NoDup (l : list A) : forall s, NoDup s -> NoDup (addAllTo l s).
Proof.
  induction l as [|v r IH]; intros s H; simpl; [exact H|].
  apply IH. unfold JsMap.add. destruct (in_dec A_eq_dec v s) as [|Hn]; [exact H|].
  apply NoDup_app; [exact H | repeat constructor; intros [] |].
  intros x Hx [<-|[]]. contradiction.
Qed.

Lemma addAllTo_keeps (l : list A) : forall s x, In x s -> In x (addAllTo l s).
Proof.
  induction l as [|v r IH]; intros s x H; simpl; [exact H|].
  apply IH. unfold JsMap.add. destruct (in_dec A_eq_dec v s); [exact H|].
  apply in_or_app. now left.
Qed.

Lemma addAllTo_In (l : list A) : forall s x, In x l -> In x (addAllTo l s).
Proof.
  induction l as [|v r IH]; intros s x; simpl; [contradiction|].
  intros [<-|H]; [|now apply IH].
  apply addAllTo_keeps. unfold JsMap.add. destruct (in_dec A_eq_dec v s); [assumption|].
  apply in_or_app. right. now left.
Qed.

Lemma addAllTo_from (l : list A) : forall s x, In x (addAllTo l s) -> In x s \/ In x l.
Proof.
  induction l as [|v r IH]; intros s x; simpl; [auto|].
  intros H. apply IH in H. destruct H as [H|H]; [|auto].
  unfold JsMap.add in H. destruct (in_dec A_eq_dec v s); [auto|].
  apply in_app_or in H. destruct H as [H|[<-|[]]]; auto.
Qed.

Lemma add_old (v : A) (s : list A) : In v s -> JsMap.add A_eq_dec v s = s.
Proof. intros H. unfold JsMap.add. destruct (in_dec A_eq_dec v s); [reflexivity | contradiction]. Qed.

Lemma add_new (v : A) (s : list A) : ~ In v s -> JsMap.add A_eq_dec v s = (s ++ [v])%list.
Proof. intros H. unfold JsMap.add. destruct (in_dec A_eq_dec v s); [contradiction | reflexivity]. Qed.

Lemma addAllTo_length (l : list A) :
  forall s, (length (addAllTo l s) <= length s + length l)%nat.
Proof.
  induction l as [|v r IH]; intros s; simpl; [lia|].
  change (length (addAllTo r (JsMap.add A_eq_dec v s)) <= length s + S (length r))%nat.
  specialize (IH (JsMap.add A_eq_dec v s)).
  destruct (in_dec A_eq_dec v s) as [Hin|Hn].
  - rewrite (@add_old _ _ Hin) in *. lia.
  - rewrite (@add_new _ _ Hn) in *. rewrite length_app in IH. simpl in IH. lia.
Qed.

Lemma addAllTo_full (l : list A) :
  forall s, NoDup s -> length (addAllTo l s) = (length s + length l)%nat ->
            NoDup (s ++ l).
Proof.
  induction l as [|v r IH]; intros s Hs; simpl.
  - intros _. now rewrite app_nil_r.
  - change (length (addAllTo r (JsMap.add A_eq_dec v s)) = (length s + S (length r))%nat
            -> NoDup (s ++ v :: r)).
    intros Hl. destruct (in_dec A_eq_dec v s) as [Hin|Hn].
    + rewrite (@add_old _ _ Hin) in Hl. pose proof (addAllTo_length r s). lia.
    + rewrite (@add_new _ _ Hn) in Hl.
      replace (s ++ v :: r)%list with ((s ++ [v]) ++ r)%list by now rewrite <- app_assoc.
      apply IH.
      * apply NoDup_app; [exact Hs | repeat constructor; intros [] |].
        intros x Hx [<-|[]]. contradiction.
      * rewrite Hl, length_app. simpl. lia.
Qed.

End Sets.

(** *** inferColumnSchema *)

Lemma mapO_getField_null (columnName : string) (data : list Row) :
  In RowNull data ->
  mapO (fun row => getField row columnName) data = Throws JsTypeError.
Proof.
  induction data as [|row r IH]; [contradiction|]. simpl.
  destruct row as [|fields]; [reflexivity|]. cbn [getField bindO].
  intros [H|H]; [discriminate|]. now rewrite IH.
Qed.

Lemma mapO_length {A B} (f : A -> Outcome B) (l : list A) (ys : list B) :
  mapO f l = Returns ys -> length ys = length l.
Proof.
  revert ys. induction l as [|x r IH]; intros ys; simpl.
  - intros H; now injection H as <-.
  - destruct (f x) as [y|e]; [|discriminate]. cbn [bindO].
    destruct (mapO f r) as [ys'|e]; [|discriminate]. cbn [bindO].
    intros H; injection H as <-. simpl. f_equal. now apply IH.
Qed.

Lemma filter_shorter {A} (p : A -> bool) (l : list A) :
  (length (filter p l) < length l)%nat <-> exists x, In x l /\ p x = false.
Proof.
  induction l as [|x r IH]; simpl.
  - split; [lia | intros (x & [] & _)].
  - pose proof (filter_length_le p r) as Hle.
    destruct (p x) eqn:E; simpl.
    + rewrite <- Nat.succ_lt_mono, IH. split.
      * intros (y & Hy & Hp). eauto.
      * intros (y & [<-|Hy] & Hp); [congruence | eauto].
    + split; [intros _; eauto | intros _; lia].
Qed.

Lemma sameType_INTEGER (v : Cell) : sameType "INTEGER" v = isInteger v.
Proof. reflexivity. Qed.

Lemma sameType_REAL (v : Cell) : sameType "REAL" v = isNumber v.
Proof. reflexivity. Qed.

Lemma sameType_BOOLEAN (v : Cell) : sameType "BOOLEAN" v = isBoolean v.
Proof. reflexivity. Qed.

Definition typeNames : list string :=
  ["TEXT"; "INTEGER"; "REAL"; "BOOLEAN"; "DATE"; "DATETIME"].

Lemma typeOfFirst_names (v : Cell) : In (typeOfFirst v) typeNames.
Proof.
  unfold typeOfFirst, typeNames.
  destruct v as [| |b|x|s|a|m]; simpl; auto.
  - match goal with |- context [if ?b then _ else _] => destruct b end; simpl; auto.
  - destruct (looksLikeDate s); [simpl; auto 6|].
    destruct (looksLikeDateTime s); simpl; auto 7.
Qed.

(** X28: what [inferColumnSchema] infers holds of the values it saw, the
    cells of the column that are neither [null] nor [undefined].  A [null]
    row makes it throw a [TypeError].  Otherwise the column is nullable
    exactly when a cell is missing; a primary key is not nullable and its
    values are all different; the type is one of six names; a column typed
    INTEGER holds integers only, one typed REAL numbers only, one typed
    BOOLEAN booleans only; and DATE or DATETIME says that the first value
    looks like one. *)
Theorem inferColumnSchema_describes_the_values (columnName : string) (data : list Row) :
  (In RowNull data -> inferColumnSchema columnName data = Throws JsTypeError)
  /\ forall col,
       inferColumnSchema columnName data = Returns col ->
       exists cells,
         mapO (fun row => getField row columnName) data = Returns cells
         /\ cs_name col = columnName
         /\ (cs_nullable col = true <-> exists v, In v cells /\ present v = false)
         /\ (isPrimaryKey col = Some true ->
             cs_nullable col = false /\ NoDup (filter present cells))
         /\ In (cs_type col) typeNames
         /\ (cs_type col = "INTEGER" ->
             Forall (fun v => isInteger v = true) (filter present cells))
         /\ (cs_type col = "REAL" ->
             Forall (fun v => isNumber v = true) (filter present cells))
         /\ (cs_type col = "BOOLEAN" ->
             Forall (fun v => isBoolean v = true) (filter present cells))
         /\ (cs_type col = "DATE" ->
             exists s rest, filter present cells = CStr s :: rest
                            /\ looksLikeDate s = true)
         /\ (cs_type col = "DATETIME" ->
             exists s rest, filter present cells = CStr s :: rest
                            /\ looksLikeDateTime s = true).
Proof.
  split.
  { intros H. unfold inferColumnSchema. now rewrite mapO_getField_null. }
  intros col. unfold inferColumnSchema.
  destruct (mapO (fun row => getField row columnName) data) as [cells|e] eqn:Hm;
    [|discriminate].
  cbn [bindO]. cbv zeta. intros H; injection H as <-.
  pose proof (mapO_length _ _ Hm) as Hlen.
  exists cells. split; [reflexivity|]. split; [reflexivity|].
  cbn [cs_nullable isPrimaryKey cs_type].
  set (values := filter present cells) in *.
  split; [|split].
  - rewrite Nat.ltb_lt, <- Hlen. apply filter_shorter.
  - intros Hpk. injection Hpk as Hpk. apply andb_true_iff in Hpk.
    destruct Hpk as [Hd Ht]. apply Nat.eqb_eq in Hd, Ht. split.
    + apply Nat.ltb_ge. lia.
    + unfold distinctCount in Hd.
      apply (@addAllTo_full _ Cell_eq_dec values [] (NoDup_nil _)). exact Hd.
  - destruct values as [|firstValue rest] eqn:Hv.
    { split; [simpl; auto|]. repeat split; intros; try discriminate; constructor. }
    destruct (forallb (sameType (typeOfFirst firstValue)) (firstValue :: rest)) eqn:Hall.
    2:{ split; [simpl; auto|]. repeat split; intros; discriminate. }
    rewrite forallb_forall in Hall.
    split; [apply typeOfFirst_names|].
    split; [|split; [|split; [|split]]].
    + intros Ht. apply Forall_forall. intros v Hin.
      rewrite <- sameType_INTEGER, <- Ht. now apply Hall.
    + intros Ht. apply Forall_forall. intros v Hin.
      rewrite <- sameType_REAL, <- Ht. now apply Hall.
    + intros Ht. apply Forall_forall. intros v Hin.
      rewrite <- sameType_BOOLEAN, <- Ht. now apply Hall.
    + intros Ht. unfold typeOfFirst in Ht.
      destruct firstValue as [| |b|x|s|a|m]; try discriminate.
      * destruct (isInteger (CNum x)); discriminate.
      * exists s, rest. split; [reflexivity|].
        destruct (looksLikeDate s); [reflexivity|].
        destruct (looksLikeDateTime s); discriminate.
    + intros Ht. unfold typeOfFirst in Ht.
      destruct firstValue as [| |b|x|s|a|m]; try discriminate.
      * destruct (isInteger (CNum x)); discriminate.
      * exists s, rest. split; [reflexivity|].
        destruct (looksLikeDate s); [discriminate|].
        destruct (looksLikeDateTime s); [reflexivity | discriminate].
Qed.

Definition orderRows : list Row :=
  [RowObject [("id", CNum (Q2Qc 1)); ("day", CStr "2024-06-30")];
   RowObject [("id", CNum (Q2Qc 2)); ("day", CNull); ("note", CStr "late")]].

Lemma inferColumnSchema_describes_the_values_witness :
  inferColumnSchema "id" (orderRows ++ [RowNull]) = Throws JsTypeError.
Proof.
  apply (proj1 (inferColumnSchema_describes_the_values "id" (orderRows ++ [RowNull]))).
  apply in_or_app. right. now left.
Defined.

(** *** inferSchemaFromData *)

Lemma collectKeys_NoDup (rows : list Row) : NoDup (collectKeys rows).
Proof.
  unfold collectKeys.
  assert (forall s, NoDup s ->
                    NoDup (fold_left
                             (fun columns row =>
                                fold_left (fun columns key => JsMap.add string_dec key columns)
                                          (keysOf row) columns) rows s)) as H.
  { induction rows as [|row r IH]; intros s Hs; simpl; [exact Hs|].
    apply IH. now apply (addAllTo_NoDup string_dec). }
  apply H. constructor.
Qed.

Lemma mapO_names (data : list Row) (names : list string) (cols : list ColumnSchema) :
  mapO (fun columnName => inferColumnSchema columnName data) names = Returns cols ->
  map cs_name cols = names.
Proof.
  revert cols. induction names as [|n r IH]; intros cols; simpl.
  - intros H; now injection H as <-.
  - destruct (inferColumnSchema n data) as [c|e] eqn:Hc; [|discriminate]. cbn [bindO].
    destruct (mapO _ r) as [cs|e]; [|discriminate]. cbn [bindO].
    intros H; injection H as <-. simpl. f_equal; [|now apply IH].
    unfold inferColumnSchema in Hc.
    destruct (mapO _ data); [|discriminate]. cbn [bindO] in Hc. now injection Hc as <-.
Qed.

Definition hasRows (entry : string * list Row) : bool :=
  match snd entry with [] => false | _ => true end.

(** X29: the schema inferred from data has one table for each dataset that
    has rows, in the order of the datasets and under their names; the columns
    of a table are the keys of its first hundred rows, each of them once. *)
Theorem inferSchemaFromData_tables (tables : list (string * list Row)) (db : DatabaseSchema) :
  inferSchemaFromData tables = Returns db ->
  map ts_name (db_tables db) = map fst (filter hasRows tables)
  /\ Forall (fun t => NoDup (map cs_name (ts_columns t))) (db_tables db)
  /\ map (fun t => map cs_name (ts_columns t)) (db_tables db)
     = map (fun entry => collectKeys (firstn 100 (snd entry))) (filter hasRows tables).
Proof.
  unfold inferSchemaFromData.
  destruct (mapO inferTable tables) as [found|e] eqn:Hm; [|discriminate].
  cbn [bindO]. intros H; injection H as <-. cbn [db_tables].
  revert found Hm.
  induction tables as [|[n [|row d']] r IH]; intros found; cbn [mapO inferTable].
  - intros H; injection H as <-. simpl. repeat split; constructor.
  - cbn [bindO]. destruct (mapO inferTable r) as [fs|e]; [|discriminate].
    cbn [bindO]. intros H; injection H as <-.
    cbn [List.concat app filter hasRows snd].
    now apply IH.
  - set (sample := firstn 100 (row :: d')).
    destruct (mapO (fun columnName => inferColumnSchema columnName sample)
                   (collectKeys sample)) as [cols|e] eqn:Hc; [|discriminate].
    cbn [bindO]. destruct (mapO inferTable r) as [fs|e]; [|discriminate].
    cbn [bindO]. intros H; injection H as <-.
    cbn [List.concat app filter hasRows snd map fst ts_name ts_columns].
    destruct (IH fs eq_refl) as (H1 & H2 & H3).
    apply mapO_names in Hc.
    split; [now f_equal|]. split; [|now f_equal].
    constructor; [|exact H2]. cbn [ts_columns]. rewrite Hc. apply collectKeys_NoDup.
Qed.

Lemma inferSchemaFromData_tables_witness :
  exists db,
    inferSchemaFromData [("orders", orderRows); ("empty", [])] = Returns db
    /\ map ts_name (db_tables db) = ["orders"]
    /\ map (fun t => map cs_name (ts_columns t)) (db_tables db) = [["id"; "day"; "note"]].
Proof.
  destruct (inferSchemaFromData [("orders", orderRows); ("empty", [])]) as [db|e] eqn:E;
    [|vm_compute in E; discriminate].
  destruct (@inferSchemaFromData_tables [("orders", orderRows); ("empty", [])] db E)
    as (Hn & _ & Hc).
  exists db. split; [reflexivity|]. split; [exact Hn | exact Hc].
Defined.

End FileProcessorFacts.

Module ColumnFacts.
Import FileProcessor FileProcessorFacts.

Lemma collectFrom_In (rows : list Row) :
  forall s k,
    In k (fold_left (fun columns row =>
                       fold_left (fun columns key => JsMap.add string_dec key columns)
                                 (keysOf row) columns) rows s)
    <-> In k s \/ exists row, In row rows /\ In k (keysOf row).
Proof.
  induction rows as [|row r IH]; intros s k; simpl.
  - split; [auto | intros [H|(row & [] & _)]; exact H].
  - rewrite IH. split.
    + intros [H|(row' & Hr & Hk)].
      * apply (@addAllTo_from _ string_dec) in H. destruct H as [H|H]; [auto|].
        right. exists row. auto.
      * right. exists row'. auto.
    + intros [H|(row' & [<-|Hr] & Hk)].
      * left. now apply (@addAllTo_keeps _ string_dec).
      * left. now apply (@addAllTo_In _ string_dec).
      * right. exists row'. auto.
Qed.

(** X30: the columns reported for a file are the keys of its first ten
    rows, each of them once: a key that first appears further down is not
    reported. *)
Theorem extractColumnsFromData_reads_ten_rows (data : list Row) :
  NoDup (extractColumnsFromData data)
  /\ forall k, In k (extractColumnsFromData data)
               <-> exists row, In row (firstn 10 data) /\ In k (keysOf row).
Proof.
  unfold extractColumnsFromData. destruct data as [|row r].
  - split; [constructor|]. intros k. split; [intros [] | intros (row & [] & _)].
  - split; [apply collectKeys_NoDup|].
    intros k. unfold collectKeys. rewrite collectFrom_In.
    split; [intros [[]|H]; exact H | auto].
Qed.

End ColumnFacts.
